(** * SpikeFI: the fault-injection campaign engine (spikefi/core.py)

    A shallow embedding of [Campaign] and of the entities it manipulates.
    Mutable Python objects are modelled by explicit state passing: every
    operation returns the objects it may have mutated next to its outcome,
    and an outcome is either a value or the exception that was raised. *)

From Stdlib Require Import ZArith Lia.
From stdpp Require Import base option list strings pretty gmap.

Local Open Scope Z_scope.

(** ** Python runtime: exceptions and list indexing *)

Inductive exn :=
| AssertionError (msg : string)
| TypeError (msg : string)
| IndexError (msg : string)
| KeyError (key : string)
| ValueError (msg : string)
| AttributeError (msg : string).

(** [l[i]] with Python's negative indexing: legal exactly for
    [-len(l) <= i < len(l)]. *)
Definition py_in_range {A} (l : list A) (i : Z) : bool :=
  (- Z.of_nat (length l) <=? i) && (i <? Z.of_nat (length l)).

Definition py_pos {A} (l : list A) (i : Z) : nat :=
  Z.to_nat (if i <? 0 then i + Z.of_nat (length l) else i).

Definition py_get {A} (l : list A) (i : Z) : exn + A :=
  if py_in_range l i then
    match l !! py_pos l i with
    | Some x => inr x
    | None => inl (IndexError "list index out of range")
    end
  else inl (IndexError "list index out of range").

(** The value of an outcome mapped through [f]; an exception passes. *)
Definition on_value {A C} (f : A -> C) (r : exn + A) : exn + C :=
  match r with inl e => inl e | inr a => inr (f a) end.

(** [range(n)] over integers. *)
Definition range (n : Z) : list Z := seqZ 0 n.

(** ** Fault entities (spikefi/fault.py) *)

Inductive FaultTarget := TargetZ | TargetW | TargetP.

Definition get_index (t : FaultTarget) : nat :=
  match t with TargetZ => 0%nat | TargetW => 1%nat | TargetP => 2%nat end.

Record FaultModel := mkFaultModel {
  target : FaultTarget;
  method : nat;          (* identifies the perturbation function and its arguments *)
  param_name : string    (* meaningful for parametric models only *)
}.

Definition is_synaptic (m : FaultModel) : bool :=
  match target m with TargetW => true | _ => false end.
Definition is_parametric (m : FaultModel) : bool :=
  match target m with TargetP => true | _ => false end.
Definition is_neuronal (m : FaultModel) : bool :=
  match target m with TargetW => false | _ => true end.

(** One component of a site position: an integer index, the wildcard
    [slice(None)], or [None] for a coordinate still to be drawn. *)
Inductive coord := Int (z : Z) | Slice | Undefined.

Definition Position : Type := coord * coord * coord * coord.

Definition pos_get (p : Position) (i : nat) : coord :=
  match p, i with
  | (a, _, _, _), 0%nat => a
  | (_, b, _, _), 1%nat => b
  | (_, _, c, _), 2%nat => c
  | (_, _, _, d), _ => d
  end.

Definition pos_set (p : Position) (i : nat) (x : coord) : Position :=
  match p, i with
  | (_, b, c, d), 0%nat => (x, b, c, d)
  | (a, _, c, d), 1%nat => (a, x, c, d)
  | (a, b, _, d), 2%nat => (a, b, x, d)
  | (a, b, c, _), _ => (a, b, c, x)
  end.

Record FaultSite := mkFaultSite {
  layer : option string;
  position : Position
}.

Record Fault := mkFault {
  model : FaultModel;
  sites : list FaultSite;          (* the defined sites, a set *)
  sites_pending : list FaultSite   (* sites still (partly) undefined, or duplicates *)
}.

#[global] Instance FaultTarget_eq_dec : EqDecision FaultTarget.
Proof. solve_decision. Defined.
#[global] Instance FaultModel_eq_dec : EqDecision FaultModel.
Proof. solve_decision. Defined.
#[global] Instance coord_eq_dec : EqDecision coord.
Proof. solve_decision. Defined.
#[global] Instance FaultSite_eq_dec : EqDecision FaultSite.
Proof. solve_decision. Defined.
#[global] Instance Fault_eq_dec : EqDecision Fault.
Proof. solve_decision. Defined.

(** Modelled from the spec: [Fault.__bool__] of fault.py.  A Fault with an
    empty site set is void. *)
Definition fault_bool (f : Fault) : bool :=
  match sites f with [] => false | _ => true end.

(** Modelled from the spec: [FaultSite.is_defined] of fault.py.  A site is
    defined once it has a layer and no coordinate is left to be drawn. *)
Definition coord_defined (c : coord) : bool :=
  match c with Undefined => false | _ => true end.

Definition layer_truthy (l : option string) : bool :=
  match l with Some n => negb (String.eqb n "") | None => false end.

Definition site_defined (s : FaultSite) : bool :=
  bool_decide (is_Some (layer s))
  && coord_defined (pos_get (position s) 0) && coord_defined (pos_get (position s) 1)
  && coord_defined (pos_get (position s) 2) && coord_defined (pos_get (position s) 3).

(** Modelled from the spec: [Fault.refresh(discard_duplicates=False)] of
    fault.py.  The site set is recomputed from the pending sites; a pending
    site that is still undefined, or that collides with a site of the set,
    stays pending. *)
Fixpoint refresh_sites (pending defined : list FaultSite)
  : list FaultSite * list FaultSite :=
  match pending with
  | [] => (defined, [])
  | s :: rest =>
      if site_defined s && negb (bool_decide (s ∈ defined))
      then refresh_sites rest (defined ++ [s])
      else let '(d, p) := refresh_sites rest defined in (d, s :: p)
  end.

Definition refresh (f : Fault) : Fault :=
  let '(d, p) := refresh_sites (sites_pending f) (sites f) in
  {| model := model f; sites := d; sites_pending := p |}.

(** Modelled from the spec: [FaultRound] of fault.py, a mapping keyed by
    Fault that is used as a set of Faults, in insertion order. *)
Definition FaultRound : Type := list Fault.

Definition insert_many (r : FaultRound) (faults : list Fault) : FaultRound :=
  foldl (fun acc f => if bool_decide (f ∈ acc) then acc else acc ++ [f]) r faults.

Definition extract_many (r : FaultRound) (faults : list Fault) : FaultRound :=
  list_difference r faults.

Definition round_bool (r : FaultRound) : bool :=
  match r with [] => false | _ => true end.

(** ** Layer registry (spikefi/utils/layer.py) *)

(** Modelled from the spec: [LayersInfo] of utils/layer.py, the ordered
    layer names with, per layer, the shape of the weight tensor, the shape of
    the output tensor, the injectability flag and the dropout type test. *)
Record LayersInfo := mkLayersInfo {
  order : list string;
  injectable : string -> bool;
  dropout : string -> bool;
  shapes_syn : gmap string (Z * Z * Z * Z);
  shapes_neu : gmap string (Z * Z * Z)
}.

Definition get_injectables (li : LayersInfo) : list string :=
  filter (fun n => injectable li n = true) (order li).

Definition is_injectable (li : LayersInfo) (name : option string) : bool :=
  match name with
  | Some n => bool_decide (n ∈ get_injectables li)
  | None => false
  end.

Definition get_shapes (li : LayersInfo) (is_syn : bool) (name : string) : exn + list Z :=
  if is_syn then
    match shapes_syn li !! name with
    | Some (k, l, m, n) => inr [k; l; m; n]
    | None => inl (KeyError name)
    end
  else
    match shapes_neu li !! name with
    | Some (l, m, n) => inr [l; m; n]
    | None => inl (KeyError name)
    end.

Definition shape_at (shape : list Z) (i : nat) : Z := nth i shape 0.

Definition layer_index (li : LayersInfo) (name : string) : option nat :=
  fst <$> list_find (fun n => n = name) (order li).

Definition is_output (li : LayersInfo) (name : string) : bool :=
  bool_decide (last (order li) = Some name).

Definition get_following (li : LayersInfo) (name : string) : option string :=
  i ← layer_index li name; order li !! S i.

(** ** The tensor engine and the neuron model, consumed as an interface *)

(** The testing counters of slayerSNN's statistics object. *)
Record spikeStats (L : Type) := mkStats {
  correctSamples : Z;
  numSamples : Z;
  lossSum : L
}.
Arguments mkStats {L}.
Arguments correctSamples {L}.
Arguments numSamples {L}.
Arguments lossSum {L}.

(** What the campaign needs from torch, slayerSNN and the perturbation
    functions of the fault models: opaque tensors with an exact comparison,
    the computation of one stage, and the accumulation of statistics. *)
Class Backend := {
  Tensor : Type;
  Val : Type;                         (* one weight value, [tensor.item()] *)
  Loss : Type;
  Label : Type;
  ModelArgs : Type;                   (* the [args] of the fault models *)
  tensor_equal : Tensor -> Tensor -> bool;                       (* torch.equal *)
  layer_forward : string -> (Z * Z * Z * Z -> Val) -> Tensor -> Tensor;
  spike_psp : Tensor -> Tensor;                                  (* slayer.spike(slayer.psp(x)) *)
  weight_perturb : FaultModel -> Val -> FaultSite -> Val;        (* model.perturb on a weight *)
  neuron_perturb : ModelArgs -> FaultModel -> FaultSite -> Tensor -> Tensor;
                                      (* t[ind] = model.perturb(t[ind], site) *)
  param_perturb : ModelArgs -> FaultModel -> ModelArgs;          (* model.param_perturb(slayer) *)
  param_record : ModelArgs -> FaultModel -> FaultSite -> Tensor -> ModelArgs;
                                      (* model.args[0][site] = flayer.spike(flayer.psp(out))[ind] *)
  correct_samples : Tensor -> Label -> Z;   (* sum(getClass(output) == label).item() *)
  num_samples : Label -> Z;                 (* len(label) *)
  num_spikes : Tensor -> Tensor -> Loss;    (* error.numSpikes(output, target).item() *)
  loss_zero : Loss;
  loss_add : Loss -> Loss -> Loss;
  stats_update : spikeStats Loss -> spikeStats Loss   (* stats.update() *)
}.

(** The source of [random.choice] and [random.randrange]: the draws to come. *)
Definition Rng : Type := list nat.

Definition randrange (g : Rng) (n : Z) : Rng * (exn + Z) :=
  if n <=? 0 then (g, inl (ValueError "empty range for randrange()"))
  else match g with
       | [] => ([], inr 0)
       | k :: g' => (g', inr (Z.of_nat k mod n))
       end.

Definition choice {A} (g : Rng) (l : list A) : Rng * (exn + A) :=
  match l with
  | [] => (g, inl (IndexError "Cannot choose from an empty sequence"))
  | x :: _ =>
      match g with
      | [] => ([], inr x)
      | k :: g' => (g', inr (default x (l !! (k mod length l)%nat)))
      end
  end.

Section Campaign.
Context {B : Backend}.

(** ** Campaign state *)

Inductive HookFn :=
| neuron_pre_hook (layer_name : string)
| parametric_hook (layer_name : string)
| synaptic_pre_hook (layer_name : string)
| synaptic_hook (layer_name : string).

(** A hook registered on a module of the faulty network; [on_module] is the
    child it is attached to, [is_pre] tells a forward pre-hook from a forward
    hook.  The position in the list of registrations is the handle. *)
Record HookReg := mkHookReg {
  on_module : string;
  is_pre : bool;
  hook_fn : HookFn
}.

Definition Handle : Type := nat.

Definition Weights : Type := Z * Z * Z * Z -> Val.

(** A network: the weight tensor of each of its children. *)
Definition Network : Type := string -> Weights.

Record OptimizedFaultRound := mkORound {
  oround : FaultRound;
  early_name : option string;
  early_idx : option Z;
  late_idx : option Z;
  is_out_faulty : bool
}.

Definition Slots : Type := list (list (option Handle)).

Record Campaign := mkCampaign {
  golden : Network;
  faulty : option Network;
  faulty_hooks : list HookReg;       (* the hooks registered on the children of [faulty] *)
  slayer_neuron : list string;       (* the keys of [slayer.neuron] *)
  layers_info : LayersInfo;
  r_idx : nat;
  rounds : list FaultRound;
  orounds : list OptimizedFaultRound;
  rgroups : list (option string * list nat);
  handles : gmap string Slots;
  performance : list (spikeStats Loss);
  originals : list (FaultModel * FaultSite * Val);   (* [model.original] of the fault models *)
  model_args : ModelArgs                             (* [model.args] of the fault models *)
}.

Definition set_rounds (c : Campaign) (rs : list FaultRound) : Campaign :=
  mkCampaign (golden c) (faulty c) (faulty_hooks c) (slayer_neuron c) (layers_info c)
    (r_idx c) rs (orounds c) (rgroups c) (handles c) (performance c) (originals c)
    (model_args c).

(** [Campaign.__init__], once the registry has been inferred. *)
Definition Campaign_init (net : Network) (li : LayersInfo) (neuron : list string)
    (args : ModelArgs) : Campaign :=
  {| golden := net; faulty := None; faulty_hooks := []; slayer_neuron := neuron; layers_info := li;
     r_idx := 0%nat; rounds := [ [] ]; orounds := []; rgroups := []; handles := ∅;
     performance := []; originals := []; model_args := args |}.

(** ** define_random *)

Definition shape_axis (is_syn : bool) (i : nat) : nat :=
  if is_syn then i else (i - 1)%nat.

Definition define_axis (is_syn : bool) (shape : list Z) (i : nat)
    (st : Rng * Position * (exn + unit)) : Rng * Position * (exn + unit) :=
  match st with
  | (g, pos, inr _) =>
      match pos_get pos i with
      | Undefined =>
          match randrange g (shape_at shape (shape_axis is_syn i)) with
          | (g', inr z) => (g', pos_set pos i (Int z), inr ())
          | (g', inl e) => (g', pos, inl e)
          end
      | _ => (g, pos, inr ())
      end
  | _ => st
  end.

Definition define_site (li : LayersInfo) (is_syn : bool) (g : Rng) (s : FaultSite)
  : Rng * FaultSite * (exn + unit) :=
  let '(g1, s1, r1) :=
    if layer_truthy (layer s) then (g, s, inr ())
    else match choice g (get_injectables li) with
         | (g', inr n) => (g', mkFaultSite (Some n) (position s), inr ())
         | (g', inl e) => (g', s, inl e)
         end in
  match r1 with
  | inl e => (g1, s1, inl e)
  | inr _ =>
      match get_shapes li is_syn (default "" (layer s1)) with
      | inl e => (g1, s1, inl e)
      | inr shape =>
          let pos := position s1 in
          let '(g2, pos2, r2) :=
            match pos_get pos 0 with
            | Undefined =>
                if is_syn then
                  match randrange g1 (shape_at shape 0) with
                  | (g', inr z) => (g', pos_set pos 0 (Int z), inr ())
                  | (g', inl e) => (g', pos, inl e)
                  end
                else (g1, pos_set pos 0 Slice, inr ())
            | _ => (g1, pos, inr ())
            end in
          let '(g3, pos3, r3) :=
            foldl (fun st i => define_axis is_syn shape i st) (g2, pos2, r2)
                  [1%nat; 2%nat; 3%nat] in
          match r3 with
          | inl e => (g3, s1, inl e)
          | inr _ => (g3, mkFaultSite (layer s1) pos3, inr ())
          end
      end
  end.

Fixpoint define_sites (li : LayersInfo) (is_syn : bool) (g : Rng) (pending : list FaultSite)
  : Rng * list FaultSite * (exn + unit) :=
  match pending with
  | [] => (g, [], inr ())
  | s :: rest =>
      match define_site li is_syn g s with
      | (g', s', inl e) => (g', s' :: rest, inl e)
      | (g', s', inr _) =>
          let '(g'', rest', r) := define_sites li is_syn g' rest in
          (g'', s' :: rest', r)
      end
  end.

(** The faults as the loop leaves them, and whether a site collided. *)
Fixpoint define_random (li : LayersInfo) (g : Rng) (faults : list Fault)
  : Rng * list Fault * (exn + bool) :=
  match faults with
  | [] => (g, [], inr false)
  | f :: rest =>
      match define_sites li (is_synaptic (model f)) g (sites_pending f) with
      | (g', pending', inl e) => (g', mkFault (model f) (sites f) pending' :: rest, inl e)
      | (g', pending', inr _) =>
          let f' := refresh (mkFault (model f) (sites f) pending') in
          let dup := match sites_pending f' with [] => false | _ => true end in
          let '(g'', rest', r) := define_random li g' rest in
          (g'', f' :: rest', on_value (fun d => dup || d) r)
      end
  end.

(** ** validate *)

(** [-dim <= c < dim]; comparing an integer with a slice or with [None]
    raises [TypeError]. *)
Definition coord_in_range (dim : Z) (c : coord) : exn + bool :=
  match c with
  | Int z => inr ((- dim <=? z) && (z <? dim))
  | Slice => inl (TypeError "<= not supported between instances of int and slice")
  | Undefined => inl (TypeError "<= not supported between instances of int and NoneType")
  end.

Definition check_axis (is_syn : bool) (shape : list Z) (s : FaultSite) (i : nat)
    (v : exn + bool) : exn + bool :=
  match v with
  | inl e => inl e
  | inr b =>
      match coord_in_range (shape_at shape (shape_axis is_syn i)) (pos_get (position s) i) with
      | inl e => inl e
      | inr b' => inr (b && b')
      end
  end.

(** The value of [v] after the body of the loop over the sites. *)
Definition site_valid (li : LayersInfo) (is_syn : bool) (s : FaultSite) : exn + bool :=
  if is_injectable li (layer s) then
    match get_shapes li is_syn (default "" (layer s)) with
    | inl e => inl e
    | inr shape =>
        let v0 := if is_syn then coord_in_range (shape_at shape 0) (pos_get (position s) 0)
                  else inr true in
        foldl (fun v i => check_axis is_syn shape s i v) v0 [1%nat; 2%nat; 3%nat]
    end
  else inr false.

Fixpoint sites_to_remove (li : LayersInfo) (is_syn : bool) (ss : list FaultSite)
  : exn + list FaultSite :=
  match ss with
  | [] => inr []
  | s :: rest =>
      match site_valid li is_syn s with
      | inl e => inl e
      | inr v =>
          match sites_to_remove li is_syn rest with
          | inl e => inl e
          | inr rm => inr (if v then rm else s :: rm)
          end
      end
  end.

Definition unsupported_parametric (c : Campaign) (f : Fault) : bool :=
  is_parametric (model f) && negb (bool_decide (param_name (model f) ∈ slayer_neuron c)).

(** The faults as the loop leaves them (their site sets are updated in
    place), and the returned list. *)
Fixpoint validate (c : Campaign) (faults : list Fault) : list Fault * (exn + list Fault) :=
  match faults with
  | [] => ([], inr [])
  | f :: rest =>
      if unsupported_parametric c f then
        let '(rest', r) := validate c rest in (f :: rest', r)
      else
        match sites_to_remove (layers_info c) (is_synaptic (model f)) (sites f) with
        | inl e => (f :: rest, inl e)
        | inr to_remove =>
            let f' := mkFault (model f) (list_difference (sites f) to_remove) (sites_pending f) in
            let '(rest', r) := validate c rest in
            (f' :: rest', on_value (fun vs => if fault_bool f' then f' :: vs else vs) r)
        end
  end.

(** ** inject, then_inject, eject *)

(** What a mutating method leaves behind: the campaign, the fault objects
    it was passed, the random source, and its outcome. *)
Record Result (A : Type) := mkResult {
  campaign : Campaign;
  passed : list Fault;
  rng : Rng;
  outcome : exn + A
}.
Arguments mkResult {A}.
Arguments campaign {A}.
Arguments passed {A}.
Arguments rng {A}.
Arguments outcome {A}.

Definition invalid_round_index (round_idx : Z) : exn :=
  AssertionError ("Invalid round index " +:+ pretty round_idx).

Definition inject (c : Campaign) (g : Rng) (faults : list Fault) (round_idx : Z)
  : Result (list Fault) :=
  if negb (py_in_range (rounds c) round_idx) then
    mkResult c faults g (inl (invalid_round_index round_idx))
  else
    match define_random (layers_info c) g faults with
    | (g1, faults1, inl e) => mkResult c faults1 g1 (inl e)
    | (g1, faults1, inr _) =>
        match validate c faults1 with
        | (faults2, inl e) => mkResult c faults2 g1 (inl e)
        | (faults2, inr inj_faults) =>
            let i := py_pos (rounds c) round_idx in
            let r := default [] (rounds c !! i) in
            mkResult (set_rounds c (<[i := insert_many r inj_faults]> (rounds c)))
                     faults2 g1 (inr inj_faults)
        end
    end.

Definition then_inject (c : Campaign) (g : Rng) (faults : list Fault) : Result (list Fault) :=
  inject (set_rounds c (rounds c ++ [ [] ])) g faults (-1).

(** Truth value of the optional arguments of [eject]. *)
Definition idx_truthy (round_idx : option Z) : bool :=
  match round_idx with Some z => negb (z =? 0) | None => false end.

Definition faults_truthy (faults : option (list Fault)) : bool :=
  match faults with Some (_ :: _) => true | _ => false end.

(** [self.rounds.pop(round_idx)] with an integer index. *)
Definition pop_at (rs : list FaultRound) (i : Z) : exn + list FaultRound :=
  if py_in_range rs i then inr (delete (py_pos rs i) rs)
  else inl (IndexError "pop index out of range").

(** The branch of [eject] for a specific round. *)
Definition eject_from_round (rs : list FaultRound) (faults : option (list Fault)) (i : Z)
  : list FaultRound * (exn + unit) :=
  let step1 :=
    if faults_truthy faults then
      match py_get rs i with
      | inl e => (rs, inl e)
      | inr r => (<[py_pos rs i := extract_many r (default [] faults)]> rs, inr ())
      end
    else (rs, inr ()) in
  match step1 with
  | (rs1, inl e) => (rs1, inl e)
  | (rs1, inr _) =>
      let empty_now :=
        if faults_truthy faults then
          match py_get rs1 i with
          | inl e => inl e
          | inr r => inr (negb (round_bool r))
          end
        else inr true in
      match empty_now with
      | inl e => (rs1, inl e)
      | inr true =>
          match pop_at rs1 i with
          | inl e => (rs1, inl e)
          | inr rs2 => (rs2, inr ())
          end
      | inr false => (rs1, inr ())
      end
  end.

(** The loop [for r in self.rounds] of the branch for all rounds.  The
    rounds already visited are in [seen].  [self.rounds.pop(r)] is called
    with the round itself, which is no integer: it raises [TypeError]. *)
Fixpoint eject_from_all (seen todo : list FaultRound) (faults : list Fault)
  : list FaultRound * (exn + unit) :=
  match todo with
  | [] => (seen, inr ())
  | r :: rest =>
      let r' := extract_many r faults in
      if round_bool r' then eject_from_all (seen ++ [r']) rest faults
      else (seen ++ r' :: rest,
            inl (TypeError "FaultRound object cannot be interpreted as an integer"))
  end.

Definition eject (c : Campaign) (faults : option (list Fault)) (round_idx : option Z)
  : Campaign * (exn + unit) :=
  let '(rs, r) :=
    if idx_truthy round_idx then eject_from_round (rounds c) faults (default 0 round_idx)
    else if faults_truthy faults then eject_from_all [] (rounds c) (default [] faults)
    else ([], inr ()) in
  match r with
  | inl e => (set_rounds c rs, inl e)
  | inr _ => (set_rounds c (match rs with [] => [ [] ] | _ => rs end), inr ())
  end.

(** ** The methods that run on [self]: a state and exception monad *)

Definition M (A : Type) : Type := Campaign -> Campaign * (exn + A).

Definition ret {A} (a : A) : M A := fun c => (c, inr a).
Definition raise {A} (e : exn) : M A := fun c => (c, inl e).
Definition bind {A C} (m : M A) (k : A -> M C) : M C :=
  fun c => match m c with
           | (c', inr a) => k a c'
           | (c', inl e) => (c', inl e)
           end.
Definition get : M Campaign := fun c => (c, inr c).
Definition modify (f : Campaign -> Campaign) : M unit := fun c => (f c, inr ()).
Definition lift {A} (r : exn + A) : M A := fun c => (c, r).

Notation "x <~ m ;; k" := (bind m (fun x => k))
  (at level 100, m at next level, right associativity).
Notation "m ;;; k" := (bind m (fun _ => k))
  (at level 100, right associativity).

Fixpoint for_each {A} (l : list A) (body : A -> M unit) : M unit :=
  match l with
  | [] => ret ()
  | x :: rest => body x ;;; for_each rest body
  end.

(** A loop that carries a local variable. *)
Fixpoint for_fold {A S} (l : list A) (s : S) (body : S -> A -> M S) : M S :=
  match l with
  | [] => ret s
  | x :: rest => s' <~ body s x ;; for_fold rest s' body
  end.

Definition set_faulty (n : option Network) (hooks : list HookReg) (c : Campaign) : Campaign :=
  mkCampaign (golden c) n hooks (slayer_neuron c) (layers_info c) (r_idx c) (rounds c)
    (orounds c) (rgroups c) (handles c) (performance c) (originals c) (model_args c).
Definition set_r_idx (r : nat) (c : Campaign) : Campaign :=
  mkCampaign (golden c) (faulty c) (faulty_hooks c) (slayer_neuron c) (layers_info c) r
    (rounds c) (orounds c) (rgroups c) (handles c) (performance c) (originals c)
    (model_args c).
Definition set_orounds (os : list OptimizedFaultRound) (c : Campaign) : Campaign :=
  mkCampaign (golden c) (faulty c) (faulty_hooks c) (slayer_neuron c) (layers_info c)
    (r_idx c) (rounds c) os (rgroups c) (handles c) (performance c) (originals c)
    (model_args c).
Definition set_rgroups (gs : list (option string * list nat)) (c : Campaign) : Campaign :=
  mkCampaign (golden c) (faulty c) (faulty_hooks c) (slayer_neuron c) (layers_info c)
    (r_idx c) (rounds c) (orounds c) gs (handles c) (performance c) (originals c)
    (model_args c).
Definition set_handles (h : gmap string Slots) (c : Campaign) : Campaign :=
  mkCampaign (golden c) (faulty c) (faulty_hooks c) (slayer_neuron c) (layers_info c)
    (r_idx c) (rounds c) (orounds c) (rgroups c) h (performance c) (originals c)
    (model_args c).
Definition set_performance (p : list (spikeStats Loss)) (c : Campaign) : Campaign :=
  mkCampaign (golden c) (faulty c) (faulty_hooks c) (slayer_neuron c) (layers_info c)
    (r_idx c) (rounds c) (orounds c) (rgroups c) (handles c) p (originals c)
    (model_args c).
Definition set_originals (o : list (FaultModel * FaultSite * Val)) (c : Campaign) : Campaign :=
  mkCampaign (golden c) (faulty c) (faulty_hooks c) (slayer_neuron c) (layers_info c)
    (r_idx c) (rounds c) (orounds c) (rgroups c) (handles c) (performance c) o
    (model_args c).
Definition set_model_args (a : ModelArgs) (c : Campaign) : Campaign :=
  mkCampaign (golden c) (faulty c) (faulty_hooks c) (slayer_neuron c) (layers_info c)
    (r_idx c) (rounds c) (orounds c) (rgroups c) (handles c) (performance c) (originals c)
    a.

(** ** Optimized fault rounds *)

Definition site_in_layer (name : string) (s : FaultSite) : bool :=
  bool_decide (layer s = Some name).

Definition fault_in_layer (name : string) (f : Fault) : bool :=
  existsb (site_in_layer name) (sites f).

(** Modelled from the spec: the searches of [FaultRound] in fault.py.  The
    faults of the round that have a site in the layer, by target; parametric
    faults are neuronal faults. *)
Definition search_neuronal (r : FaultRound) (name : string) : list Fault :=
  filter (fun f => is_neuronal (model f) && fault_in_layer name f = true) r.
Definition search_parametric (r : FaultRound) (name : string) : list Fault :=
  filter (fun f => is_parametric (model f) && fault_in_layer name f = true) r.
Definition search_synaptic (r : FaultRound) (name : string) : list Fault :=
  filter (fun f => is_synaptic (model f) && fault_in_layer name f = true) r.

Definition any_neuronal (r : FaultRound) (name : string) : bool :=
  round_bool (search_neuronal r name).
Definition any_parametric (r : FaultRound) (name : string) : bool :=
  round_bool (search_parametric r name).
Definition any_synaptic (r : FaultRound) (name : string) : bool :=
  round_bool (search_synaptic r name).

(** The registry indices of the layers the sites of a round address. *)
Definition touched (li : LayersInfo) (r : FaultRound) : list nat :=
  f ← r; s ← sites f; n ← option_list (layer s); option_list (layer_index li n).

(** Modelled from the spec: [FaultRound.optimized] of fault.py.  The
    earliest and the latest layer touched by a site of the round, none for a
    round that touches no layer, and whether the output stage is touched. *)
Definition optimized (li : LayersInfo) (r : FaultRound) : OptimizedFaultRound :=
  match touched li r with
  | [] => mkORound r None None None false
  | i :: more =>
      let early := foldr Nat.min i more in
      let late := foldr Nat.max i more in
      mkORound r (order li !! early) (Some (Z.of_nat early)) (Some (Z.of_nat late))
               (bool_decide (S late = length (order li)))
  end.

(** ** Hooks *)

Definition current_oround : M OptimizedFaultRound :=
  fun c => match orounds c !! r_idx c with
           | Some o => (c, inr o)
           | None => (c, inl (IndexError "list index out of range"))
           end.

Definition the_faulty : M Network :=
  fun c => match faulty c with
           | Some n => (c, inr n)
           | None => (c, inl (AttributeError "NoneType object has no such attribute"))
           end.

(** [neuron_pre_hook]: overwrite the addressed outputs in place. *)
Definition run_neuron_pre_hook (layer_name : string) (prev_spikes_out : Tensor) : M Tensor :=
  o <~ current_oround ;;
  c <~ get ;;
  ret (foldl (fun t f => foldl (fun t s => neuron_perturb (model_args c) (model f) s t)
                               t (sites f))
             prev_spikes_out (search_neuronal (oround o) layer_name)).

(** [parametric_hook]: record the outputs of the perturbed neuron model. *)
Definition run_parametric_hook (layer_name : string) (spikes_out : Tensor) : M unit :=
  o <~ current_oround ;;
  for_each (search_parametric (oround o) layer_name) (fun f =>
    for_each (sites f) (fun s =>
      modify (fun c => set_model_args (param_record (model_args c) (model f) s spikes_out) c))).

(** Modelled from the spec: [FaultSite.unroll] of fault.py on a weight
    tensor.  One axis of the index: an integer within [-dim, dim) addresses
    [z] or [z + dim]. *)
Definition unroll_axis (dim : Z) (c : coord) : exn + option Z :=
  match c with
  | Int z => if (- dim <=? z) && (z <? dim) then inr (Some (if z <? 0 then z + dim else z))
             else inl (IndexError "index is out of bounds for dimension")
  | Slice => inr None
  | Undefined => inl (IndexError "unsupported index")
  end.

Definition Index : Type := option Z * option Z * option Z * option Z.

Definition unroll (li : LayersInfo) (module : string) (s : FaultSite) : exn + Index :=
  match get_shapes li true module with
  | inl e => inl e
  | inr shape =>
      match unroll_axis (shape_at shape 0) (pos_get (position s) 0),
            unroll_axis (shape_at shape 1) (pos_get (position s) 1),
            unroll_axis (shape_at shape 2) (pos_get (position s) 2),
            unroll_axis (shape_at shape 3) (pos_get (position s) 3) with
      | inr a, inr b, inr c, inr d => inr (a, b, c, d)
      | inl e, _, _, _ | _, inl e, _, _ | _, _, inl e, _ | _, _, _, inl e => inl e
      end
  end.

(** [weight[ind].item()]: the index has to address one element. *)
Definition item_index (ind : Index) : exn + Z * Z * Z * Z :=
  match ind with
  | (Some a, Some b, Some c, Some d) => inr (a, b, c, d)
  | _ => inl (ValueError "only one element tensors can be converted to Python scalars")
  end.

Definition axis_matches (i : option Z) (z : Z) : bool :=
  match i with Some a => a =? z | None => true end.

Definition index_matches (ind : Index) (p : Z * Z * Z * Z) : bool :=
  match ind, p with
  | (a, b, c, d), (x, y, z, t) =>
      axis_matches a x && axis_matches b y && axis_matches c z && axis_matches d t
  end.

(** [weight[ind] = v], on every element the index addresses. *)
Definition weight_assign (w : Weights) (ind : Index) (v : Val) : Weights :=
  fun p => if index_matches ind p then v else w p.

Definition set_weight (n : Network) (module : string) (w : Weights) : Network :=
  fun m => if String.eqb m module then w else n m.

(** Modelled from the spec: [FaultModel.perturb_store] and
    [FaultModel.restore] of fault.py.  A fault model retains, per site, the
    original value it was asked to perturb, and hands it back on restore. *)
Definition perturb_store (m : FaultModel) (v : Val) (s : FaultSite) : M Val :=
  modify (fun c => set_originals ((m, s, v) :: originals c) c) ;;;
  ret (weight_perturb m v s).

Definition saved (os : list (FaultModel * FaultSite * Val)) (m : FaultModel) (s : FaultSite)
  : option Val :=
  snd <$> (snd <$> list_find (fun e => fst e = (m, s)) os).

Definition restore (m : FaultModel) (s : FaultSite) : M Val :=
  c <~ get ;;
  match saved (originals c) m s with
  | Some v => ret v
  | None => raise (TypeError "cannot assign NoneType to a tensor element")
  end.

(** [synaptic_pre_hook]: perturb the weights of the layer in place. *)
Definition run_synaptic_pre_hook (module layer_name : string) : M unit :=
  o <~ current_oround ;;
  for_each (search_synaptic (oround o) layer_name) (fun f =>
    for_each (sites f) (fun s =>
      c <~ get ;;
      net <~ the_faulty ;;
      ind <~ lift (unroll (layers_info c) module s) ;;
      p <~ lift (item_index ind) ;;
      v <~ perturb_store (model f) (net module p) s ;;
      modify (fun c => set_faulty (Some (set_weight net module (weight_assign (net module) ind v)))
                                  (faulty_hooks c) c))).

(** [synaptic_hook]: restore the weights of the layer. *)
Definition run_synaptic_hook (module layer_name : string) : M unit :=
  o <~ current_oround ;;
  for_each (search_synaptic (oround o) layer_name) (fun f =>
    for_each (sites f) (fun s =>
      c <~ get ;;
      net <~ the_faulty ;;
      ind <~ lift (unroll (layers_info c) module s) ;;
      v <~ restore (model f) s ;;
      modify (fun c => set_faulty (Some (set_weight net module (weight_assign (net module) ind v)))
                                  (faulty_hooks c) c))).

(** ** Calling a child of the faulty network: pre-hooks, forward, hooks *)

Definition hooks_on (module : string) (pre : bool) (hs : list HookReg) : list HookFn :=
  hook_fn <$> filter (fun h => on_module h = module ∧ is_pre h = pre) hs.

Definition run_pre_hook (module : string) (spikes : Tensor) (h : HookFn) : M Tensor :=
  match h with
  | neuron_pre_hook n => run_neuron_pre_hook n spikes
  | synaptic_pre_hook n => run_synaptic_pre_hook module n ;;; ret spikes
  | _ => ret spikes
  end.

Definition run_hook (module : string) (spikes_out : Tensor) (h : HookFn) : M unit :=
  match h with
  | parametric_hook n => run_parametric_hook n spikes_out
  | synaptic_hook n => run_synaptic_hook module n
  | _ => ret ()
  end.

(** The input as the pre-hooks leave it (they write in place), and the
    output of the child. *)
Definition faulty_call (module : string) (spikes : Tensor) : M (Tensor * Tensor) :=
  c <~ get ;;
  spikes' <~ for_fold (hooks_on module true (faulty_hooks c)) spikes (run_pre_hook module) ;;
  net <~ the_faulty ;;
  let out := layer_forward module (net module) spikes' in
  c' <~ get ;;
  for_each (hooks_on module false (faulty_hooks c')) (run_hook module out) ;;;
  ret (spikes', out).

(** The golden network carries no hook. *)
Definition golden_call (module : string) (spikes : Tensor) : M (Tensor * Tensor) :=
  c <~ get ;;
  ret (spikes, layer_forward module (golden c module) spikes).

(** ** forward_opt *)

Definition subject_layers (li : LayersInfo) (start_idx end_idx : Z) : list string :=
  omap (fun '(lay_idx, lay_name) =>
          if (start_idx <=? Z.of_nat lay_idx) && (Z.of_nat lay_idx <=? end_idx)
          then Some lay_name else None)
       (imap pair (order li)).

(** The loop over the subject layers.  [spikes_in] is the tensor the caller
    passed: only the pre-hooks of the first child can write into it, the
    later children receive tensors made by the loop. *)
Fixpoint forward_layers (li : LayersInfo) (call : string -> Tensor -> M (Tensor * Tensor))
    (first : bool) (layers : list string) (spikes_in spikes : Tensor) : M (Tensor * Tensor) :=
  match layers with
  | [] => ret (spikes_in, spikes)
  | layer_name :: rest =>
      r <~ call layer_name spikes ;;
      let spikes' := if dropout li layer_name then snd r else spike_psp (snd r) in
      forward_layers li call false rest (if first then fst r else spikes_in) spikes'
  end.

Definition forward_opt (call : string -> Tensor -> M (Tensor * Tensor)) (spikes_in : Tensor)
    (start_layer_idx end_layer_idx : option Z) : M (Tensor * Tensor) :=
  c <~ get ;;
  let li := layers_info c in
  let start_idx := default 0 start_layer_idx in
  let end_idx := default (Z.of_nat (length (order li)) - 1) end_layer_idx in
  forward_layers li call true (subject_layers li start_idx end_idx) spikes_in spikes_in.

(** ** _perturb_net and _pre_run *)

Definition fresh_slots : Slots := replicate 3 (replicate 2 None).

Definition layer_slots (c : Campaign) (layer_name : string) : Slots :=
  default fresh_slots (handles c !! layer_name).

Definition slot_get (sl : Slots) (i j : nat) : option Handle :=
  row ← sl !! i; h ← row !! j; h.

Definition slot_set (sl : Slots) (i j : nat) (h : Handle) : Slots :=
  alter (fun row => <[j := Some h]> row) i sl.

(** [self.handles[layer_name][i][j]] *)
Definition handle_at (layer_name : string) (i j : nat) : M (option Handle) :=
  c <~ get ;; ret (slot_get (layer_slots c layer_name) i j).

(** [register_forward_pre_hook] and [register_forward_hook] on a child of
    the faulty network. *)
Definition register (module : string) (pre : bool) (fn : HookFn) : M Handle :=
  the_faulty ;;;
  c <~ get ;;
  modify (set_faulty (faulty c) (faulty_hooks c ++ [mkHookReg module pre fn])) ;;;
  ret (length (faulty_hooks c)).

(** [self.handles[layer_name][i][j] = handle] *)
Definition store_handle (layer_name : string) (i j : nat) (h : Handle) : M unit :=
  modify (fun c => set_handles (<[layer_name := slot_set (layer_slots c layer_name) i j h]>
                                  (handles c)) c).

Definition ind_neu : nat := get_index TargetZ.
Definition ind_par : nat := get_index TargetP.
Definition ind_syn : nat := get_index TargetW.

(** The body of the loop of [_perturb_net] for one injectable layer. *)
Definition perturb_layer (round : OptimizedFaultRound) (layer_name : string) : M unit :=
  modify (fun c => set_handles (<[layer_name := layer_slots c layer_name]> (handles c)) c) ;;;
  li <~ (c <~ get ;; ret (layers_info c)) ;;
  (if any_neuronal (oround round) layer_name then
     h_neu <~ handle_at layer_name ind_neu 0 ;;
     (if negb (is_output li layer_name) && negb (bool_decide (is_Some h_neu)) then
        match get_following li layer_name with
        | None => raise (TypeError "attribute name must be string, not NoneType")
        | Some following_layer =>
            h <~ register following_layer true (neuron_pre_hook layer_name) ;;
            store_handle layer_name ind_neu 0 h
        end
      else ret ()) ;;;
     (if any_parametric (oround round) layer_name then
        for_each (search_parametric (oround round) layer_name) (fun fault =>
          modify (fun c => set_model_args (param_perturb (model_args c) (model fault)) c)) ;;;
        h_par <~ handle_at layer_name ind_par 1 ;;
        (if negb (bool_decide (is_Some h_par)) then
           h <~ register layer_name false (parametric_hook layer_name) ;;
           store_handle layer_name ind_par 1 h
         else ret ())
      else ret ())
   else ret ()) ;;;
  h_pre <~ handle_at layer_name ind_syn 0 ;;
  h_post <~ handle_at layer_name ind_syn 1 ;;
  (if any_synaptic (oround round) layer_name
      && negb (bool_decide (is_Some h_pre) || bool_decide (is_Some h_post)) then
     h <~ register layer_name true (synaptic_pre_hook layer_name) ;;
     store_handle layer_name ind_syn 0 h ;;;
     h' <~ register layer_name false (synaptic_hook layer_name) ;;
     store_handle layer_name ind_syn 1 h'
   else ret ()).

Definition _perturb_net (round : OptimizedFaultRound) : M unit :=
  c <~ get ;;
  for_each (get_injectables (layers_info c)) (perturb_layer round).

(** [rgroups.setdefault(k, list()); rgroups[k].append(r)] on the
    insertion-ordered dictionary. *)
Fixpoint group_append (gs : list (option string * list nat)) (k : option string) (r : nat)
  : list (option string * list nat) :=
  match gs with
  | [] => [(k, [r])]
  | (k', l) :: rest =>
      if decide (k = k') then (k', l ++ [r]) :: rest
      else (k', l) :: group_append rest k r
  end.

(** The sort key of a group: [-1] for no layer, else the registry index. *)
Definition group_key (li : LayersInfo) (k : option string) : exn + Z :=
  match k with
  | None => inr (-1)
  | Some n =>
      match layer_index li n with
      | Some i => inr (Z.of_nat i)
      | None => inl (ValueError "layer is not in list")
      end
  end.

Fixpoint keyed (li : LayersInfo) (gs : list (option string * list nat))
  : exn + list (Z * (option string * list nat)) :=
  match gs with
  | [] => inr []
  | g :: rest =>
      match group_key li (fst g), keyed li rest with
      | inr k, inr ks => inr ((k, g) :: ks)
      | inl e, _ | _, inl e => inl e
      end
  end.

(** [sorted] is stable: an item goes before the first item whose key is not
    smaller. *)
Fixpoint sorted_insert {A} (x : Z * A) (l : list (Z * A)) : list (Z * A) :=
  match l with
  | [] => [x]
  | y :: rest => if fst x <=? fst y then x :: y :: rest else y :: sorted_insert x rest
  end.

Definition sorted {A} (l : list (Z * A)) : list (Z * A) := foldr sorted_insert [] l.

Definition new_stats : spikeStats Loss := mkStats 0 0 loss_zero.

(** The body of the loop of [_pre_run] over [enumerate(self.rounds)]. *)
Definition prepare_round (r : nat) (round : FaultRound) : M unit :=
  c <~ get ;;
  let o := optimized (layers_info c) round in
  modify (fun c => set_orounds (orounds c ++ [o]) c) ;;;
  modify (fun c => set_rgroups (group_append (rgroups c) (early_name o) r) c) ;;;
  _perturb_net o ;;;
  modify (fun c => set_performance (performance c ++ [new_stats]) c).

Fixpoint prepare_rounds (r : nat) (rs : list FaultRound) : M unit :=
  match rs with
  | [] => ret ()
  | round :: rest => prepare_round r round ;;; prepare_rounds (S r) rest
  end.

Definition _pre_run : M unit :=
  modify (fun c => match rounds c with [] => set_rounds c [ [] ] | _ => c end) ;;;
  modify (set_r_idx 0) ;;;
  modify (set_orounds []) ;;;
  modify (set_rgroups []) ;;;
  modify (set_handles ∅) ;;;
  modify (set_performance []) ;;;
  modify (fun c => set_faulty (Some (golden c)) [] c) ;;;
  c <~ get ;;
  prepare_rounds 0 (rounds c) ;;;
  c' <~ get ;;
  ks <~ lift (keyed (layers_info c') (rgroups c')) ;;
  modify (set_rgroups (snd <$> sorted ks)).

(** ** Evaluation *)

Definition Batch : Type := Tensor * Tensor * Label.   (* input, target, label *)

Definition advance (stats : spikeStats Loss) (output target : Tensor) (label : Label)
    (error : bool) : spikeStats Loss :=
  mkStats (correctSamples stats + correct_samples output label)
          (numSamples stats + num_samples label)
          (if error then loss_add (lossSum stats) (num_spikes output target)
           else lossSum stats).

(** [self._advance_performance(self.performance[self.r_idx], ...)] *)
Definition _advance_performance (output target : Tensor) (label : Label) (error : bool)
  : M unit :=
  c <~ get ;;
  match performance c !! r_idx c with
  | None => raise (IndexError "list index out of range")
  | Some stats =>
      modify (set_performance (<[r_idx c := advance stats output target label error]>
                                 (performance c)))
  end.

Definition golden_forward (spikes_in : Tensor) (start_idx end_idx : option Z)
  : M (Tensor * Tensor) :=
  forward_opt golden_call spikes_in start_idx end_idx.

Definition faulty_forward (spikes_in : Tensor) (start_idx end_idx : option Z)
  : M (Tensor * Tensor) :=
  the_faulty ;;; forward_opt faulty_call spikes_in start_idx end_idx.

(** [self.layers_info.order[-1]] *)
Definition output_layer : M string :=
  c <~ get ;; lift (py_get (order (layers_info c)) (-1)).

Definition as_index (i : option Z) : M Z :=
  match i with
  | Some z => ret z
  | None => raise (TypeError "list indices must be integers or slices, not NoneType")
  end.

Definition _evaluate_single (test_loader : list Batch) (error : bool) : M unit :=
  o <~ current_oround ;;
  out_name <~ output_layer ;;
  for_each test_loader (fun '(input, target, label) =>
    r <~ faulty_forward input None None ;;
    output <~ (if is_out_faulty o then run_neuron_pre_hook out_name (snd r)
               else ret (snd r)) ;;
    _advance_performance output target label error).

(** The golden activations of a batch, stage by stage. *)
Definition store_golden (input : Tensor) : M (list Tensor) :=
  c <~ get ;;
  for_fold (seq 0 (length (order (layers_info c)))) [input] (fun golden_spikes layer_idx =>
    g <~ lift (py_get golden_spikes (Z.of_nat layer_idx)) ;;
    r <~ golden_forward g (Some (Z.of_nat layer_idx)) (Some (Z.of_nat layer_idx)) ;;
    ret (golden_spikes ++ [snd r])).

(** The output of one fault round on one batch.  The cached activations are
    returned as the calls leave them: the faulty network receives the cached
    tensor itself. *)
Definition round_output (out_name : string) (golden_spikes : list Tensor)
  : M (list Tensor * Tensor) :=
  o <~ current_oround ;;
  if round_bool (oround o) then
    e <~ as_index (early_idx o) ;;
    l <~ as_index (late_idx o) ;;
    g <~ lift (py_get golden_spikes e) ;;
    r <~ faulty_forward g (Some e) (Some l) ;;
    let golden_spikes' := <[py_pos golden_spikes e := fst r]> golden_spikes in
    let late_out := snd r in
    if is_out_faulty o then
      output <~ run_neuron_pre_hook out_name late_out ;;
      ret (golden_spikes', output)
    else
      r1 <~ faulty_forward late_out (Some (l + 1)) (Some (l + 1)) ;;
      let late_next_out := snd r1 in
      g2 <~ lift (py_get golden_spikes' (l + 2)) ;;
      if tensor_equal late_next_out g2 then
        output <~ lift (py_get golden_spikes' (-1)) ;;
        ret (golden_spikes', output)
      else
        r2 <~ faulty_forward late_next_out (Some (l + 2)) None ;;
        ret (golden_spikes', snd r2)
  else
    output <~ lift (py_get golden_spikes (-1)) ;;
    ret (golden_spikes, output).

Definition evaluate_round (out_name : string) (target : Tensor) (label : Label)
    (error : bool) (golden_spikes : list Tensor) (r : nat) : M (list Tensor) :=
  modify (set_r_idx r) ;;;
  res <~ round_output out_name golden_spikes ;;
  _advance_performance (snd res) target label error ;;;
  ret (fst res).

Definition evaluate_batch (out_name : string) (error : bool) (b : Batch) : M unit :=
  let '(input, target, label) := b in
  golden_spikes <~ store_golden input ;;
  c <~ get ;;
  for_fold (snd <$> rgroups c) golden_spikes (fun gs round_group =>
    for_fold round_group gs (evaluate_round out_name target label error)) ;;;
  ret ().

Definition _evaluate_optimized (test_loader : list Batch) (error : bool) : M unit :=
  out_name <~ output_layer ;;
  for_each test_loader (evaluate_batch out_name error).

(** [run]; the progress thread only observes and is left out. *)
Definition run (test_loader : list Batch) (error : bool) : M unit :=
  _pre_run ;;;
  c <~ get ;;
  (if (length (rounds c) <=? 1)%nat then _evaluate_single test_loader error
   else _evaluate_optimized test_loader error) ;;;
  modify (fun c => set_performance (stats_update <$> performance c) c).

(** ** run_complete *)

(** Modelled from the spec: the constructor of [Fault] in fault.py, from a
    model and one site. *)
Definition Fault_new (m : FaultModel) (s : FaultSite) : Fault :=
  refresh (mkFault m [] [s]).

(** [self.then_inject(faults)] inside a method, the random source threaded. *)
Definition then_inject_step (g : Rng) (faults : list Fault) : M Rng :=
  fun c => let r := then_inject c g faults in
           (campaign r, on_value (fun _ => rng r) (outcome r)).

Definition b2n (b : bool) : nat := if b then 1%nat else 0%nat.

Definition complete_layer (fault_model : FaultModel) (g : Rng) (lay_name : string) : M Rng :=
  c <~ get ;;
  let is_syn := is_synaptic fault_model in
  lay_shape <~ lift (get_shapes (layers_info c) is_syn lay_name) ;;
  for_fold (range (if is_syn then shape_at lay_shape 0 else 1)) g (fun g k =>
    for_fold (range (shape_at lay_shape (0 + b2n is_syn))) g (fun g l =>
      for_fold (range (shape_at lay_shape (1 + b2n is_syn))) g (fun g m =>
        for_fold (range (shape_at lay_shape (2 + b2n is_syn))) g (fun g n =>
          then_inject_step g
            [Fault_new fault_model
               (mkFaultSite (Some lay_name)
                  (if is_syn then Int k else Slice, Int l, Int m, Int n))])))).

Definition run_complete (g : Rng) (test_loader : list Batch) (fault_model : FaultModel)
    (layer_names : option (list string)) (error : bool) : M unit :=
  c <~ get ;;
  let lay_names_inj :=
    match layer_names with
    | Some (n :: names) =>
        filter (fun lay_name => is_injectable (layers_info c) (Some lay_name) = true)
               (n :: names)
    | _ => get_injectables (layers_info c)
    end in
  modify (fun c => set_rounds c []) ;;;
  for_fold lay_names_inj g (complete_layer fault_model) ;;;
  run test_loader error.

End Campaign.

Notation "x <~ m ;; k" := (bind m (fun x => k))
  (at level 100, m at next level, right associativity).
Notation "m ;;; k" := (bind m (fun _ => k))
  (at level 100, right associativity).

Arguments mkResult {B A}.
Arguments campaign {B A}.
Arguments passed {B A}.
Arguments rng {B A}.
Arguments outcome {B A}.


(** * visual.py: the shape of a heat map *)

(** What the arithmetic of [_shape_square] can raise. *)
Inductive ArithmeticError :=
| MathDomainError        (* ValueError: math domain error *)
| ZeroDivisionError.

(** [int(sqrt(N))].  [sqrt] converts [N] to a double and returns the
    correctly rounded root, which [int] truncates; as long as [N] is below
    [2^52] the result is the integer square root.  A negative [N] is outside
    the domain of [sqrt]. *)
Definition int_sqrt (N : Z) : ArithmeticError + Z :=
  if N <? 0 then inl MathDomainError else inr (Z.sqrt N).

(** [while N % x != 0: x -= 1], entered with [x >= 0]; [N % 0] raises. *)
Fixpoint descend (N : Z) (x : nat) : ArithmeticError + Z :=
  match x with
  | O => inl ZeroDivisionError
  | S x' => if N mod Z.of_nat x =? 0 then inr (Z.of_nat x) else descend N x'
  end.

(** [int(N / x)]: the quotient as a double, truncated towards zero; exact
    as long as [N] is below [2^52]. *)
Definition int_div (N x : Z) : Z := Z.quot N x.

Definition _shape_square (N : Z) : ArithmeticError + Z * Z :=
  match int_sqrt N with
  | inl e => inl e
  | inr x0 =>
      match descend N (Z.to_nat x0) with
      | inl e => inl e
      | inr x => inr (x, int_div N x)
      end
  end.

(** ** heat: the shape of the plot *)

(** What the computation of the plot shape can raise: a layer missing from
    the registry, or the arithmetic of [_shape_square]. *)
Inductive HeatError :=
| Lookup (e : exn)
| Arithmetic (e : ArithmeticError).

(** [prod(shape)] *)
Definition prod (shape : list Z) : Z := foldl Z.mul 1 shape.

(** [sqrt(heat_max)] for [heat_max = max_size**2]: the root of a perfect
    square is exact as long as the square is below [2^52]. *)
Definition sqrt_heat_max (max_size : Z) : Z := Z.abs max_size.

(** The shape [heat] gives to the plot of the [N] rounds of one layer and
    fault model; [None] when the pair is skipped for having too many faults. *)
Definition plot_shape (li : LayersInfo) (lay : string) (is_syn : bool) (N : Z)
    (preserve_dim : bool) (max_size : Z) : option (HeatError + Z * Z) :=
  let heat_max := max_size ^ 2 in
  if heat_max <? N then None
  else
    Some
      match get_shapes li is_syn lay with
      | inl e => inl (Lookup e)
      | inr shape =>
          let plot_shape :=
            if negb (N =? prod shape) then (1, N)
            else if is_syn then
              if (shape_at shape 2 =? 1) && (shape_at shape 3 =? 1)
              then (shape_at shape 0, shape_at shape 1)
              else (shape_at shape 0 * shape_at shape 1, shape_at shape 2 * shape_at shape 3)
            else (shape_at shape 1 * shape_at shape 2, shape_at shape 0) in
          if negb preserve_dim || (sqrt_heat_max max_size <? plot_shape.1)
             || (sqrt_heat_max max_size <? plot_shape.2)
          then match _shape_square N with
               | inl e => inl (Arithmetic e)
               | inr s => inr s
               end
          else inr plot_shape
      end.

(** * Notions used to state the properties *)

Section Statements.
Context {B : Backend}.

(** ** Outcomes *)

Definition failure {A} (r : exn + A) : option exn :=
  match r with inl e => Some e | inr _ => None end.

(** The outcome is no failed assertion. *)
Definition no_assertion {A} (r : exn + A) : Prop :=
  forall msg, failure r <> Some (AssertionError msg).

(** ** The validity of a site, in the words of the specification *)

Definition in_bounds (dim z : Z) : bool := (- dim <=? z) && (z <? dim).

(** The axes of a position that have a size in the registry: all four on a
    weight tensor, the last three on an output tensor. *)
Definition sized_axes (is_syn : bool) : list nat :=
  if is_syn then [0%nat; 1%nat; 2%nat; 3%nat] else [1%nat; 2%nat; 3%nat].

Definition coord_ok (dim : Z) (c : coord) : bool :=
  match c with Int z => in_bounds dim z | _ => true end.

Definition site_ok (li : LayersInfo) (is_syn : bool) (s : FaultSite) : bool :=
  is_injectable li (layer s)
  && match get_shapes li is_syn (default "" (layer s)) with
     | inr shape =>
         forallb (fun i => coord_ok (shape_at shape (shape_axis is_syn i))
                                    (pos_get (position s) i))
                 (sized_axes is_syn)
     | inl _ => false
     end.

Definition kept_sites (c : Campaign) (f : Fault) : list FaultSite :=
  filter (fun s => site_ok (layers_info c) (is_synaptic (model f)) s = true) (sites f).

(** The validation as the claim states it: every Fault is filtered site by
    site, and dropped when no site is left. *)
Definition validate_as_stated (c : Campaign) (faults : list Fault) : list Fault :=
  omap (fun f => match kept_sites c f with
                 | [] => None
                 | ss => Some (mkFault (model f) ss (sites_pending f))
                 end) faults.

(** The validation as amended: a parametric Fault on a parameter the neuron
    model lacks is dropped whole, and left as it is. *)
Definition surviving (c : Campaign) (f : Fault) : option Fault :=
  if unsupported_parametric c f then None
  else match kept_sites c f with
       | [] => None
       | ss => Some (mkFault (model f) ss (sites_pending f))
       end.

Definition validated_in_place (c : Campaign) (f : Fault) : Fault :=
  if unsupported_parametric c f then f
  else mkFault (model f) (kept_sites c f) (sites_pending f).

(** The coordinates on the sized axes are integers. *)
Definition integer_coords (is_syn : bool) (s : FaultSite) : bool :=
  forallb (fun i => match pos_get (position s) i with Int _ => true | _ => false end)
          (sized_axes is_syn).

Definition checkable (c : Campaign) (f : Fault) : bool :=
  unsupported_parametric c f || forallb (integer_coords (is_synaptic (model f))) (sites f).

(** Every injectable layer has its two shapes in the registry. *)
Definition registry_total (li : LayersInfo) : bool :=
  forallb (fun n => bool_decide (is_Some (shapes_syn li !! n))
                    && bool_decide (is_Some (shapes_neu li !! n)))
          (get_injectables li).

(** ** The exhaustive sweep over the neurons of a layer *)

Definition neuron_coords (C H W : Z) : list (Z * Z * Z) :=
  l ← range C; m ← range H; n ← range W; [(l, m, n)].

Definition neuron_fault (fault_model : FaultModel) (lay_name : string) (p : Z * Z * Z)
  : Fault :=
  mkFault fault_model
          [mkFaultSite (Some lay_name) (Slice, Int p.1.1, Int p.1.2, Int p.2)] [].

(** ** What a method leaves alone *)

(** [m] keeps the relation [R] between the campaign it starts from and the
    one it leaves, whether it returns or raises. *)
Definition keeps {A} (R : relation Campaign) (m : M A) : Prop :=
  forall c, R c (m c).1.

(** The hooks, their installation and the forward passes touch the faulty
    network, the registry of handles and the fault models only. *)
Definition hook_frame (c c' : Campaign) : Prop :=
  golden c' = golden c /\ slayer_neuron c' = slayer_neuron c
  /\ layers_info c' = layers_info c /\ r_idx c' = r_idx c /\ rounds c' = rounds c
  /\ orounds c' = orounds c /\ rgroups c' = rgroups c
  /\ performance c' = performance c.

(** A run keeps the rounds it finds, unless there is none. *)
Definition rounds_kept (c c' : Campaign) : Prop :=
  rounds c <> [] -> rounds c' = rounds c.

(** ** The hooks installed during a run *)

#[global] Instance HookFn_eq_dec : EqDecision HookFn.
Proof. solve_decision. Defined.

(** The layer, the fault target and the side (pre-hook or hook) a hook
    function serves. *)
Definition hook_slot (fn : HookFn) : string * FaultTarget * bool :=
  match fn with
  | neuron_pre_hook n => (n, TargetZ, true)
  | parametric_hook n => (n, TargetP, false)
  | synaptic_pre_hook n => (n, TargetW, true)
  | synaptic_hook n => (n, TargetW, false)
  end.

(** How many hooks have been registered on the faulty network for a layer,
    a target and a side. *)
Definition registered (n : string) (t : FaultTarget) (pre : bool) (c : Campaign) : nat :=
  length (filter (fun h => hook_slot (hook_fn h) = (n, t, pre)) (faulty_hooks c)).

Definition slot_index (pre : bool) : nat := if pre then 0%nat else 1%nat.

Definition well_shaped (sl : Slots) : Prop :=
  exists a b c d e f, sl = [[a; b]; [c; d]; [e; f]].

(** The registry tells what has been registered: a slot holds a handle
    exactly when one hook has been registered for it, and none otherwise. *)
Definition hooks_inv (c : Campaign) : Prop :=
  (forall n sl, handles c !! n = Some sl -> well_shaped sl)
  /\ forall n t pre,
       registered n t pre c
       = match slot_get (layer_slots c n) (get_index t) (slot_index pre) with
         | Some _ => 1%nat
         | None => 0%nat
         end.

(** ** The weights of the faulty network *)

(** The weight of a layer of the faulty network at a position. *)
Definition faulty_weight (c : Campaign) (module : string) (p : Z * Z * Z * Z) : option Val :=
  (fun net : Network => net module p) <$> faulty c.

(** ** The golden baseline *)

(** The output of the golden network called on an input, without indices. *)
Definition golden_output (c : Campaign) (input : Tensor) : Tensor :=
  match (golden_forward input None None c).2 with
  | inr r => r.2
  | inl _ => input
  end.

(** The statistics of the golden network evaluated on the batches. *)
Definition golden_stats (c : Campaign) (test_loader : list Batch) (error : bool)
  : spikeStats Loss :=
  foldl (fun stats '(input, target, label) =>
           advance stats (golden_output c input) target label error)
        new_stats test_loader.

(** The stages of the golden network, as a function. *)
Definition golden_layers (c : Campaign) (layers : list string) (x : Tensor) : Tensor :=
  foldl (fun t n => let out := layer_forward n (golden c n) t in
                    if dropout (layers_info c) n then out else spike_psp out)
        x layers.

(** The selection of the subject layers, from the layer of index [k] on. *)
Definition select_from (start_idx end_idx : Z) (k : nat) (l : list string) : list string :=
  omap (fun '(lay_idx, lay_name) =>
          if (start_idx <=? Z.of_nat lay_idx) && (Z.of_nat lay_idx <=? end_idx)
          then Some lay_name else None)
       (imap (fun i n => ((k + i)%nat, n)) l).

(** The activations cached after [k] stages. *)
Definition cached (c : Campaign) (input : Tensor) (k : nat) : list Tensor :=
  (fun j => golden_layers c (take j (order (layers_info c))) input) <$> seq 0 (S k).

(** The earliest layer of every optimized round is a stage of the network. *)
Definition orounds_wf (c : Campaign) : Prop :=
  forall o e, o ∈ orounds c -> early_idx o = Some e ->
              0 <= e < Z.of_nat (length (order (layers_info c))).

(** What the evaluation of the rounds leaves alone. *)
Definition static (c c' : Campaign) : Prop :=
  golden c' = golden c /\ layers_info c' = layers_info c
  /\ orounds c' = orounds c /\ rgroups c' = rgroups c.

(** Registering a hook and storing its handle in a free slot. *)
Definition installed (c : Campaign) (module : string) (pre : bool) (fn : HookFn) : Campaign :=
  let c1 := set_faulty (faulty c) (faulty_hooks c ++ [mkHookReg module pre fn]) c in
  set_handles
    (<[(hook_slot fn).1.1 :=
         slot_set (layer_slots c1 (hook_slot fn).1.1) (get_index (hook_slot fn).1.2)
                  (slot_index (hook_slot fn).2) (length (faulty_hooks c))]> (handles c1))
    c1.

(** The invariant is passed on. *)
Definition inv_kept (c c' : Campaign) : Prop := hooks_inv c -> hooks_inv c'.

End Statements.

(** * Notions used to state the further properties *)

Section MoreStatements.
Context {B : Backend}.

(** What [validate] accepts: a Fault that is no parametric Fault on a
    parameter the neuron model lacks, with at least one site, whose sites
    all pass the check of the loop. *)
Definition accepted (c : Campaign) (f : Fault) : Prop :=
  unsupported_parametric c f = false /\ sites f <> []
  /\ Forall (fun s => site_valid (layers_info c) (is_synaptic (model f)) s = inr true)
            (sites f).

(** [if not self.rounds: self.rounds.append(FaultRound())] *)
Definition at_least_one (rs : list FaultRound) : list FaultRound :=
  match rs with [] => [ [] ] | _ => rs end.

(** Every injectable layer has its two shapes in the registry, and no axis
    of them is empty. *)
Definition positive_shapes (li : LayersInfo) : bool :=
  forallb (fun n =>
             match shapes_syn li !! n with
             | Some (k, l, m, x) => (0 <? k) && (0 <? l) && (0 <? m) && (0 <? x)
             | None => false
             end
             && match shapes_neu li !! n with
                | Some (l, m, x) => (0 <? l) && (0 <? m) && (0 <? x)
                | None => false
                end)
          (get_injectables li).


(** The installation of the hooks leaves the weights of the faulty network
    and the index of the current round alone. *)
Definition net_kept (c c' : Campaign) : Prop :=
  faulty c' = faulty c /\ r_idx c' = r_idx c.

(** ** The groups of rounds *)

(** Every round listed in a group has the key of the group as its earliest
    layer, and no key occurs twice. *)
Definition groups_by_earliest (gs : list (option string * list nat))
    (os : list OptimizedFaultRound) : Prop :=
  NoDup (gs.*1)
  /\ forall k l r, (k, l) ∈ gs -> r ∈ l -> exists o, os !! r = Some o /\ early_name o = k.


(** A list of sort keys in ascending order. *)
Fixpoint ascending (keys : list Z) : Prop :=
  match keys with
  | [] => True
  | k :: rest => Forall (Z.le k) rest /\ ascending rest
  end.

(** ** The hooks a round asks for *)

(** The hook is where [_perturb_net] puts the hooks of its kind, and the
    round has faults of that kind in the layer the hook serves. *)
Definition hook_wanted (li : LayersInfo) (r : FaultRound) (h : HookReg) : Prop :=
  match hook_fn h with
  | neuron_pre_hook n =>
      is_pre h = true /\ get_following li n = Some (on_module h)
      /\ is_output li n = false /\ any_neuronal r n = true
  | parametric_hook n =>
      is_pre h = false /\ on_module h = n /\ any_parametric r n = true
  | synaptic_pre_hook n =>
      is_pre h = true /\ on_module h = n /\ any_synaptic r n = true
  | synaptic_hook n =>
      is_pre h = false /\ on_module h = n /\ any_synaptic r n = true
  end.

(** Every hook registered on the faulty network is wanted by one of the
    rounds [rs]; the registry of layers is [li]. *)
Definition hooks_wanted_by (li : LayersInfo) (rs : list FaultRound) (c : Campaign) : Prop :=
  Forall (fun h => exists r, r ∈ rs /\ hook_wanted li r h) (faulty_hooks c).

Definition placed (li : LayersInfo) (rs : list FaultRound) (c c' : Campaign) : Prop :=
  layers_info c = li ->
  layers_info c' = li /\ (hooks_wanted_by li rs c -> hooks_wanted_by li rs c').

(** ** A campaign with the baseline round only *)

(** The campaign as [_pre_run] leaves it when the only round is empty, up
    to the registry of handles. *)
Definition baseline_ready (c : Campaign) (h : gmap string Slots) : Campaign :=
  mkCampaign (golden c) (Some (golden c)) [] (slayer_neuron c) (layers_info c) 0 [ [] ]
    [mkORound [] None None None false] [(None, [0%nat])] h [new_stats]
    (originals c) (model_args c).

(** ** Counting the samples *)

Definition samples_from (n : Z) (test_loader : list Batch) : Z :=
  foldl (fun n '(_, _, label) => n + num_samples label) n test_loader.

Definition total_samples (test_loader : list Batch) : Z := samples_from 0 test_loader.

(** The number of samples each round has been evaluated on. *)
Definition counts (c : Campaign) : list Z := numSamples <$> performance c.

(** ** The exhaustive sweep over the sites of the layers *)

Definition synapse_coords (K C H W : Z) : list (Z * Z * Z * Z) :=
  k ← range K; l ← range C; m ← range H; n ← range W; [(k, l, m, n)].

Definition synapse_fault (fault_model : FaultModel) (lay_name : string)
    (p : Z * Z * Z * Z) : Fault :=
  mkFault fault_model
          [mkFaultSite (Some lay_name) (Int p.1.1.1, Int p.1.1.2, Int p.1.2, Int p.2)] [].

(** The rounds the sweep makes of one layer: a round per synapse of the
    weight tensor, or per neuron of the output tensor, each with one Fault
    that has that one site. *)
Definition layer_sweep (li : LayersInfo) (fault_model : FaultModel) (lay_name : string)
  : list FaultRound :=
  if is_synaptic fault_model then
    match shapes_syn li !! lay_name with
    | Some (K, C, H, W) =>
        (fun p => [synapse_fault fault_model lay_name p]) <$> synapse_coords K C H W
    | None => []
    end
  else
    match shapes_neu li !! lay_name with
    | Some (C, H, W) =>
        (fun p => [neuron_fault fault_model lay_name p]) <$> neuron_coords C H W
    | None => []
    end.

(** The number of sites of a layer: the product of its shape. *)
Definition layer_sites (li : LayersInfo) (is_syn : bool) (lay_name : string) : Z :=
  if is_syn then
    match shapes_syn li !! lay_name with
    | Some (K, C, H, W) => K * C * H * W
    | None => 0
    end
  else
    match shapes_neu li !! lay_name with
    | Some (C, H, W) => C * H * W
    | None => 0
    end.

(** The layers that are swept: the injectable ones among the given names,
    in the order given, or all the injectable layers when no name is given. *)
Definition swept_layers (li : LayersInfo) (layer_names : option (list string)) : list string :=
  match layer_names with
  | None | Some [] => get_injectables li
  | Some names => filter (fun n => n ∈ get_injectables li) names
  end.

(** ** Hooks that have nothing to do *)

(** The faults of a round a hook goes through, by the kind of the hook. *)
Definition hook_faults (r : FaultRound) (h : HookFn) : list Fault :=
  match h with
  | neuron_pre_hook n => search_neuronal r n
  | parametric_hook n => search_parametric r n
  | synaptic_pre_hook n => search_synaptic r n
  | synaptic_hook n => search_synaptic r n
  end.

(** No hook on one of the [layers] finds a fault in the round [r]. *)
Definition idle_on (layers : list string) (r : FaultRound) (c : Campaign) : Prop :=
  forall h, h ∈ faulty_hooks c -> on_module h ∈ layers -> hook_faults r (hook_fn h) = [].

End MoreStatements.
(** ** A small concrete engine and network for the examples *)

(** Tensors and weights are single integers; fault method [0] sticks a
    value at zero, method [k] adds [k]. *)
Definition toy_backend : Backend := {|
  Tensor := Z; Val := Z; Loss := Z; Label := Z; ModelArgs := unit;
  tensor_equal := Z.eqb;
  layer_forward := fun _ w t => t + w (0, 0, 0, 0);
  spike_psp := fun t => t;
  weight_perturb := fun m v _ => match method m with O => 0 | S k => v + Z.of_nat (S k) end;
  neuron_perturb := fun _ m _ t => match method m with O => 0 | S k => t + Z.of_nat (S k) end;
  param_perturb := fun a _ => a;
  param_record := fun a _ _ _ => a;
  correct_samples := fun out label => if out =? label then 1 else 0;
  num_samples := fun _ => 1;
  num_spikes := fun out tgt => Z.abs (out - tgt);
  loss_zero := 0;
  loss_add := Z.add;
  stats_update := fun s => s
|}.

(** Three fully connected layers, all injectable, one neuron each. *)
Definition toy_layers : LayersInfo := {|
  order := ["SF1"; "SF2"; "SF3"];
  injectable := fun _ => true;
  dropout := fun _ => false;
  shapes_syn := list_to_map [("SF1", (1, 1, 1, 1)); ("SF2", (1, 1, 1, 1)); ("SF3", (1, 1, 1, 1))];
  shapes_neu := list_to_map [("SF1", (1, 1, 2)); ("SF2", (1, 1, 1)); ("SF3", (1, 1, 1))]
|}.

Definition toy_net : @Network toy_backend := fun _ _ => 5.

Definition toy_campaign : @Campaign toy_backend :=
  Campaign_init toy_net toy_layers ["theta"] ().

Definition dead_synapse : FaultModel := mkFaultModel TargetW 0 "".
Definition bias_synapse : FaultModel := mkFaultModel TargetW 7 "".
Definition dead_neuron : FaultModel := mkFaultModel TargetZ 0 "".
Definition theta_scaled : FaultModel := mkFaultModel TargetP 1 "theta".
Definition gamma_scaled : FaultModel := mkFaultModel TargetP 1 "gamma".

Definition site (name : string) (p : Position) : FaultSite := mkFaultSite (Some name) p.

Definition origin : Position := (Int 0, Int 0, Int 0, Int 0).
Definition neuron0 : Position := (Slice, Int 0, Int 0, Int 0).

Definition with_rounds (rs : list FaultRound) : @Campaign toy_backend :=
  set_rounds toy_campaign rs.

Definition f_dead : Fault := Fault_new dead_synapse (site "SF1" origin).
Definition f_bias : Fault := Fault_new bias_synapse (site "SF1" origin).
Definition f_neuron : Fault := Fault_new dead_neuron (site "SF1" neuron0).
Definition f_gamma : Fault := Fault_new gamma_scaled (site "SF1" neuron0).
Definition f_wild : Fault := Fault_new dead_neuron (site "SF1" (Slice, Slice, Int 0, Int 0)).

(** Faults on the last axis of "SF1", of size 2: [-1] and [-2] are inside,
    [2] and [-3] are outside. *)
Definition f_edges : list Fault :=
  [Fault_new dead_neuron (site "SF1" (Slice, Int 0, Int 0, Int (-1)));
   Fault_new dead_neuron (site "SF1" (Slice, Int 0, Int 0, Int 2));
   Fault_new dead_neuron (site "SF1" (Slice, Int 0, Int 0, Int (-3)));
   mkFault dead_neuron [site "SF1" (Slice, Int 0, Int 0, Int (-2));
                        site "SF1" (Slice, Int 0, Int 0, Int 5);
                        site "DROP" neuron0] []].

Definition toy_batches : list (@Batch toy_backend) := [(1, 16, 16); (-5, 10, 10)].

(** A campaign ready to evaluate its second round, a dead neuron in "SF1". *)
Definition toy_ready : @Campaign toy_backend :=
  set_r_idx 1 (_pre_run (with_rounds [ [] ; [f_neuron] ])).1.

Definition toy_oround : OptimizedFaultRound :=
  optimized toy_layers [f_neuron].

(** The campaign after the faulty sub-range, and after the next stage, on
    the input [-5]. *)
Definition toy_c1 : @Campaign toy_backend :=
  (faulty_forward (B:=toy_backend) (-5) (Some 0) (Some 0) toy_ready).1.

Definition toy_c2 : @Campaign toy_backend :=
  (faulty_forward (B:=toy_backend) (-5, 0).2 (Some (0 + 1)) (Some (0 + 1)) toy_c1).1.

(** A campaign prepared for a round and evaluated on the batches. *)
Definition toy_pre : @Campaign toy_backend :=
  (_pre_run (with_rounds [ [] ; [f_neuron] ])).1.

Definition toy_done : @Campaign toy_backend :=
  (_evaluate_optimized toy_batches true toy_pre).1.

(** Campaigns prepared for one round with one synaptic fault, and with two
    synaptic faults on the same weight. *)
Definition toy_one : @Campaign toy_backend := (_pre_run (with_rounds [ [f_dead] ])).1.

Definition toy_two : @Campaign toy_backend := (_pre_run (with_rounds [ [f_dead; f_bias] ])).1.

(** The Faults of [f_gamma :: f_edges] as [validate] leaves them, and the
    ones it returns. *)
Definition f_inside : Fault := Fault_new dead_neuron (site "SF1" (Slice, Int 0, Int 0, Int (-1))).

Definition toy_validated : list Fault := (validate toy_campaign (f_gamma :: f_edges)).1.

Definition toy_valid : list Fault :=
  [f_inside; mkFault dead_neuron [site "SF1" (Slice, Int 0, Int 0, Int (-2))] []].

(** The campaign with an empty round and a dead neuron, after a run. *)
Definition toy_ran : @Campaign toy_backend :=
  (run (B:=toy_backend) toy_batches true (with_rounds [ [] ; [f_neuron] ])).1.

(** * Properties of the campaign operations *)

Section Operations.
Context {B : Backend}.

(** ** No operation on faults fails an assertion *)

Lemma no_assertion_value {A} (a : A) : no_assertion (inr a).
Proof. intros msg; discriminate. Qed.

Lemma randrange_no_assertion g n : no_assertion (randrange g n).2.
Proof. unfold randrange, no_assertion. intros msg. repeat case_match; simpl; discriminate. Qed.

Lemma choice_no_assertion {A} g (l : list A) : no_assertion (choice g l).2.
Proof. unfold choice, no_assertion. intros msg. repeat case_match; simpl; discriminate. Qed.

Lemma get_shapes_no_assertion li b n : no_assertion (get_shapes li b n).
Proof. unfold get_shapes, no_assertion. intros msg. repeat case_match; simpl; discriminate. Qed.

Lemma define_axis_no_assertion is_syn shape i st :
  no_assertion st.2 -> no_assertion (define_axis is_syn shape i st).2.
Proof.
  destruct st as [[g pos] [e|[]]]; simpl; intros Hst; [exact Hst|].
  destruct (pos_get pos i); simpl; try apply no_assertion_value.
  pose proof (randrange_no_assertion g (shape_at shape (shape_axis is_syn i))) as H.
  destruct (randrange g _) as [g' [e|z]]; simpl in *; [exact H|apply no_assertion_value].
Qed.

Lemma foldl_define_axis_no_assertion is_syn shape l st :
  no_assertion st.2 ->
  no_assertion (foldl (fun st i => define_axis is_syn shape i st) st l).2.
Proof.
  revert st; induction l as [|i l IH]; intros st Hst; simpl; [exact Hst|].
  by apply IH, define_axis_no_assertion.
Qed.

Lemma define_site_no_assertion li is_syn g s : no_assertion (define_site li is_syn g s).2.
Proof.
  unfold define_site.
  set (st1 := if layer_truthy (layer s) then _ else _).
  assert (H1 : no_assertion st1.2).
  { subst st1. destruct (layer_truthy (layer s)); simpl; [apply no_assertion_value|].
    pose proof (choice_no_assertion g (get_injectables li)) as H.
    destruct (choice g _) as [g' [e|n]]; simpl in *; [exact H|apply no_assertion_value]. }
  destruct st1 as [[g1 s1] [e|[]]]; [exact H1|]. cbv beta iota.
  pose proof (get_shapes_no_assertion li is_syn (default "" (layer s1))) as H2.
  destruct (get_shapes li is_syn _) as [e|shape]; [exact H2|]. cbv beta iota zeta.
  set (st2 := match pos_get (position s1) 0 with Undefined => _ | _ => _ end).
  assert (H3 : no_assertion st2.2).
  { subst st2. destruct (pos_get (position s1) 0); simpl; try apply no_assertion_value.
    destruct is_syn; simpl; [|apply no_assertion_value].
    pose proof (randrange_no_assertion g1 (shape_at shape 0)) as H.
    destruct (randrange g1 _) as [g' [e|z]]; simpl in *; [exact H|apply no_assertion_value]. }
  destruct st2 as [[g2 pos2] r2]. cbv beta iota.
  pose proof (foldl_define_axis_no_assertion is_syn shape [1%nat; 2%nat; 3%nat] _ H3) as H4.
  destruct (foldl _ _ _) as [[g3 pos3] [e|[]]]; [exact H4|apply no_assertion_value].
Qed.

Lemma define_sites_no_assertion li is_syn g ss : no_assertion (define_sites li is_syn g ss).2.
Proof.
  revert g; induction ss as [|s ss IH]; intros g; simpl; [apply no_assertion_value|].
  pose proof (define_site_no_assertion li is_syn g s) as H.
  destruct (define_site li is_syn g s) as [[g' s'] [e|[]]]; simpl in *; [exact H|].
  specialize (IH g'). destruct (define_sites li is_syn g' ss) as [[g'' rest'] r]. exact IH.
Qed.

Lemma on_value_no_assertion {A C} (f : A -> C) r : no_assertion r -> no_assertion (on_value f r).
Proof. destruct r; simpl; intros H; [exact H|apply no_assertion_value]. Qed.

Lemma define_random_no_assertion li g faults : no_assertion (define_random li g faults).2.
Proof.
  revert g; induction faults as [|f fs IH]; intros g; simpl; [apply no_assertion_value|].
  pose proof (define_sites_no_assertion li (is_synaptic (model f)) g (sites_pending f)) as H.
  destruct (define_sites _ _ g _) as [[g' p'] [e|[]]]; simpl in *; [exact H|].
  specialize (IH g'). destruct (define_random li g' fs) as [[g'' rest'] r]; simpl in *.
  by apply on_value_no_assertion.
Qed.

Lemma coord_in_range_no_assertion dim c : no_assertion (coord_in_range dim c).
Proof. destruct c; simpl; intros msg; discriminate. Qed.

Lemma check_axis_no_assertion is_syn shape s i v :
  no_assertion v -> no_assertion (check_axis is_syn shape s i v).
Proof.
  destruct v as [e|b]; simpl; intros Hv; [exact Hv|].
  pose proof (coord_in_range_no_assertion (shape_at shape (shape_axis is_syn i)) (pos_get (position s) i)) as H.
  destruct (coord_in_range _ _); [exact H|apply no_assertion_value].
Qed.

Lemma site_valid_no_assertion li is_syn s : no_assertion (site_valid li is_syn s).
Proof.
  unfold site_valid. destruct (is_injectable li (layer s)); [|apply no_assertion_value].
  pose proof (get_shapes_no_assertion li is_syn (default "" (layer s))) as H.
  destruct (get_shapes _ _ _) as [e|shape]; [exact H|]. simpl.
  repeat apply check_axis_no_assertion.
  destruct is_syn; [apply coord_in_range_no_assertion|apply no_assertion_value].
Qed.

Lemma sites_to_remove_no_assertion li is_syn ss : no_assertion (sites_to_remove li is_syn ss).
Proof.
  induction ss as [|s ss IH]; simpl; [apply no_assertion_value|].
  pose proof (site_valid_no_assertion li is_syn s) as H.
  destruct (site_valid li is_syn s) as [e|v]; [exact H|].
  destruct (sites_to_remove li is_syn ss); [exact IH|apply no_assertion_value].
Qed.

Lemma validate_no_assertion c faults : no_assertion (validate c faults).2.
Proof.
  induction faults as [|f fs IH]; simpl; [apply no_assertion_value|].
  destruct (unsupported_parametric c f).
  { destruct (validate c fs) as [rest' r]; exact IH. }
  pose proof (sites_to_remove_no_assertion (layers_info c) (is_synaptic (model f)) (sites f)) as H.
  destruct (sites_to_remove _ _ _) as [e|rm]; simpl; [exact H|].
  destruct (validate c fs) as [rest' r]; simpl in *. by apply on_value_no_assertion.
Qed.

(** *** insert_many *)

Lemma insert_many_mono r faults f : f ∈ r -> f ∈ insert_many r faults.
Proof.
  unfold insert_many. revert r; induction faults as [|x xs IH]; intros r Hf; simpl; [done|].
  apply IH. case_bool_decide; [done|]. apply elem_of_app; by left.
Qed.

Lemma insert_many_elem r faults f : f ∈ faults -> f ∈ insert_many r faults.
Proof.
  unfold insert_many. revert r; induction faults as [|x xs IH]; intros r Hf; simpl.
  { by apply elem_of_nil in Hf. }
  apply elem_of_cons in Hf as [->|Hf]; [|by apply IH].
  apply (insert_many_mono _ xs). case_bool_decide; [done|].
  apply elem_of_app; right. by apply list_elem_of_singleton.
Qed.

Lemma py_in_range_lookup {A} (l : list A) i :
  py_in_range l i = true -> is_Some (l !! py_pos l i).
Proof.
  unfold py_in_range, py_pos. intros H. apply andb_true_iff in H as [H1 H2].
  apply Z.leb_le in H1. apply Z.ltb_lt in H2. apply lookup_lt_is_Some.
  destruct (i <? 0) eqn:E; [apply Z.ltb_lt in E|apply Z.ltb_ge in E]; lia.
Qed.

(** C9: [inject] with a round index outside [-len(rounds), len(rounds))
    fails with the range error before anything is mutated: the campaign, the
    passed faults and the random source are as they were.  With an index
    inside the range no assertion fails, and when the call returns, the
    faults that survived randomization and validation have been inserted
    into the round at that index, counted from the end when negative. *)
Theorem inject_round_index c g faults round_idx :
  let r := inject c g faults round_idx in
  (py_in_range (rounds c) round_idx = false /\
   outcome r = inl (invalid_round_index round_idx) /\
   campaign r = c /\ passed r = faults /\ rng r = g)
  \/
  (py_in_range (rounds c) round_idx = true /\
   no_assertion (outcome r) /\
   length (rounds (campaign r)) = length (rounds c) /\
   exists old, rounds c !! py_pos (rounds c) round_idx = Some old /\
     forall inj_faults, outcome r = inr inj_faults ->
       (exists g1 faults1 dup,
          define_random (layers_info c) g faults = (g1, faults1, inr dup) /\
          validate c faults1 = (passed r, inr inj_faults)) /\
       rounds (campaign r)
         = <[py_pos (rounds c) round_idx := insert_many old inj_faults]> (rounds c) /\
       forall f, f ∈ inj_faults -> f ∈ insert_many old inj_faults).
Proof.
  intros r. subst r. unfold inject.
  destruct (py_in_range (rounds c) round_idx) eqn:Hrange; simpl; [right|left; done].
  split; [done|].
  destruct (py_in_range_lookup _ _ Hrange) as [old Hold].
  pose proof (define_random_no_assertion (layers_info c) g faults) as Hd.
  destruct (define_random (layers_info c) g faults) as [[g1 faults1] [e|dup]]; simpl in *.
  { split; [exact Hd|]. split; [done|]. exists old; split; [done|]. intros inj [=]. }
  pose proof (validate_no_assertion c faults1) as Hv.
  destruct (validate c faults1) as [faults2 [e|inj]] eqn:Hval; simpl in *.
  { split; [exact Hv|]. split; [done|]. exists old; split; [done|]. intros inj [=]. }
  split; [apply no_assertion_value|]. split; [by rewrite length_insert|].
  exists old; split; [done|]. intros inj' [= <-].
  unfold FaultRound in *. rewrite Hold; simpl.
  split; [by exists g1, faults1, dup|]. split; [done|]. intros f. apply insert_many_elem.
Qed.

(** C10: a new Campaign holds exactly one Fault Round, which is empty.  The
    first [inject] with the default index [-1] inserts into that round and
    creates no round; [then_inject] leaves the baseline round empty and
    inserts into a second round. *)
Theorem new_campaign_baseline_round net li neuron args g faults :
  let c := Campaign_init net li neuron args in
  rounds c = [ [] ] /\
  (let r := inject c g faults (-1) in
   no_assertion (outcome r) /\
   length (rounds (campaign r)) = 1%nat /\
   forall inj_faults, outcome r = inr inj_faults ->
     rounds (campaign r) = [insert_many [] inj_faults]) /\
  (let r := then_inject c g faults in
   no_assertion (outcome r) /\
   length (rounds (campaign r)) = 2%nat /\
   rounds (campaign r) !! 0%nat = Some [] /\
   forall inj_faults, outcome r = inr inj_faults ->
     rounds (campaign r) = [ [] ; insert_many [] inj_faults]).
Proof.
  intros c. split; [done|]. split.
  - destruct (inject_round_index c g faults (-1)) as [(Hr & _)|(_ & Hna & Hlen & old & Hold & H)].
    { discriminate Hr. }
    simpl. split; [exact Hna|]. split; [exact Hlen|].
    intros inj Hinj. destruct (H inj Hinj) as (_ & -> & _).
    simpl in Hold. injection Hold as <-. done.
  - unfold then_inject.
    set (c1 := set_rounds c (rounds c ++ [ [] ])).
    destruct (inject_round_index c1 g faults (-1)) as [(Hr & _)|(_ & Hna & Hlen & old & Hold & H)].
    { discriminate Hr. }
    simpl. split; [exact Hna|]. split; [exact Hlen|].
    simpl in Hold. injection Hold as <-.
    split.
    + unfold inject. simpl.
      destruct (define_random li g faults) as [[g1 faults1] [e|dup]]; [done|].
      destruct (validate c1 faults1) as [faults2 [e|inj]]; done.
    + intros inj Hinj. by destruct (H inj Hinj) as (_ & -> & _).
Qed.

(** C8: [eject] with [round_idx = 0] is [eject] with no [round_idx]: the
    index is tested for truth, so the branch for all rounds is taken. *)
Theorem eject_round_zero_is_no_round c faults :
  eject c faults (Some 0) = eject c faults None.
Proof. reflexivity. Qed.

(** *** eject from all rounds *)

Lemma eject_from_all_raises seen todo faults r :
  r ∈ todo -> extract_many r faults = [] ->
  exists rs msg, eject_from_all seen todo faults = (rs, inl (TypeError msg)).
Proof.
  revert seen; induction todo as [|x xs IH]; intros seen Hr Hempty.
  { by apply elem_of_nil in Hr. }
  simpl. destruct (round_bool (extract_many x faults)) eqn:Hx; [|by eauto].
  apply elem_of_cons in Hr as [->|Hr]; [by rewrite Hempty in Hx|].
  by apply IH.
Qed.

Lemma eject_from_all_ok seen todo faults :
  Forall (fun r => extract_many r faults <> []) todo ->
  eject_from_all seen todo faults = (seen ++ ((fun r => extract_many r faults) <$> todo), inr ()).
Proof.
  revert seen; induction todo as [|x xs IH]; intros seen Hall; simpl.
  { by rewrite app_nil_r. }
  apply Forall_cons in Hall as [Hx Hxs].
  destruct (extract_many x faults) eqn:E; [done|]. simpl.
  rewrite IH by done. by rewrite <- app_assoc.
Qed.

(** C7: [eject] with a non-empty collection of Faults and no [round_idx]
    raises [TypeError] as soon as a round is left empty by the extraction:
    the round itself is passed to [list.pop]. *)
Theorem eject_faults_raises_on_emptied_round c faults r :
  faults <> [] -> r ∈ rounds c -> extract_many r faults = [] ->
  exists rs msg, eject c (Some faults) None = (set_rounds c rs, inl (TypeError msg)).
Proof.
  intros Hne Hr Hempty. unfold eject. simpl.
  destruct faults as [|f fs]; [done|]. simpl.
  destruct (eject_from_all_raises [] (rounds c) (f :: fs) r Hr Hempty) as (rs & msg & ->).
  by exists rs, msg.
Qed.


(** ** validate *)

Lemma get_shapes_total li is_syn n :
  registry_total li = true -> n ∈ get_injectables li ->
  exists shape, get_shapes li is_syn n = inr shape.
Proof.
  unfold registry_total. rewrite forallb_forall. intros H Hn.
  apply list_elem_of_In in Hn. apply H in Hn.
  apply andb_true_iff in Hn as [H1 H2].
  apply bool_decide_eq_true in H1 as [[[[k l] m] x] H1].
  apply bool_decide_eq_true in H2 as [[[l' m'] x'] H2].
  unfold get_shapes. destruct is_syn; [rewrite H1|rewrite H2]; eauto.
Qed.

Lemma coord_in_range_int dim c :
  (match c with Int _ => true | _ => false end) = true ->
  coord_in_range dim c = inr (coord_ok dim c).
Proof. by destruct c. Qed.

Lemma site_valid_ok li is_syn s :
  registry_total li = true -> integer_coords is_syn s = true ->
  site_valid li is_syn s = inr (site_ok li is_syn s).
Proof.
  intros Hreg Hint. unfold site_valid, site_ok.
  destruct (is_injectable li (layer s)) eqn:Hinj; [|done].
  destruct (layer s) as [n|] eqn:Hl; [|done]. simpl in Hinj.
  apply bool_decide_eq_true in Hinj.
  destruct (get_shapes_total li is_syn n Hreg Hinj) as [shape Hshape].
  simpl. rewrite Hshape. simpl.
  unfold integer_coords in Hint. unfold check_axis.
  destruct is_syn; simpl in *.
  - repeat (apply andb_true_iff in Hint as [? Hint]).
    rewrite !coord_in_range_int by done. simpl.
    by rewrite andb_true_r, !andb_assoc.
  - repeat (apply andb_true_iff in Hint as [? Hint]).
    rewrite !coord_in_range_int by done. simpl.
    by rewrite andb_true_r, !andb_assoc.
Qed.

Lemma sites_to_remove_spec li is_syn ss :
  registry_total li = true -> forallb (integer_coords is_syn) ss = true ->
  sites_to_remove li is_syn ss
    = inr (filter (fun s => site_ok li is_syn s = false) ss).
Proof.
  intros Hreg. induction ss as [|s ss IH]; simpl; [done|].
  intros H. apply andb_true_iff in H as [Hs Hss].
  rewrite site_valid_ok, IH by done.
  rewrite filter_cons. by destruct (site_ok li is_syn s); case_decide.
Qed.

Lemma list_difference_filter {A} `{EqDecision A} (P : A -> bool) (l k : list A) :
  (forall x, x ∈ l -> (x ∈ k <-> P x = false)) ->
  list_difference l k = filter (fun x => P x = true) l.
Proof.
  induction l as [|x l IH]; intros H; simpl; [done|].
  rewrite filter_cons.
  assert (Hl : forall y, y ∈ l -> (y ∈ k <-> P y = false)).
  { intros y Hy. apply H. by right. }
  specialize (H x (list_elem_of_here _ _)).
  destruct (decide_rel elem_of x k) as [Hin|Hnin].
  - apply H in Hin. rewrite decide_False by congruence. by apply IH.
  - rewrite decide_True, IH; [done|done|].
    destruct (P x); [done|]. exfalso. apply Hnin. by apply H.
Qed.

Lemma validate_fault_sites c f :
  registry_total (layers_info c) = true ->
  forallb (integer_coords (is_synaptic (model f))) (sites f) = true ->
  sites_to_remove (layers_info c) (is_synaptic (model f)) (sites f)
    = inr (filter (fun s => site_ok (layers_info c) (is_synaptic (model f)) s = false) (sites f))
  /\ list_difference (sites f)
       (filter (fun s => site_ok (layers_info c) (is_synaptic (model f)) s = false) (sites f))
     = kept_sites c f.
Proof.
  intros Hreg Hint. split; [by apply sites_to_remove_spec|].
  apply list_difference_filter. intros s Hs.
  rewrite list_elem_of_filter. split; [by intros [? _]|by intros ?].
Qed.

(** C4, as amended: on Faults whose sites have integer coordinates on the
    sized axes, [validate] returns, in order, every Fault that is no
    parametric Fault on an unsupported parameter, restricted to the sites
    whose layer is injectable and whose coordinates lie within [-dim, dim),
    and drops a Fault left without site; [-1] lies within the bounds of an
    axis of size [N], [N] and [-N-1] do not. *)
Theorem validate_keeps_sites_in_bounds c faults :
  registry_total (layers_info c) = true ->
  forallb (checkable c) faults = true ->
  validate c faults = (validated_in_place c <$> faults, inr (omap (surviving c) faults))
  /\ (forall N, 0 < N ->
        in_bounds N (-1) = true /\ in_bounds N N = false /\ in_bounds N (- N - 1) = false).
Proof.
  intros Hreg Hall. split.
  - induction faults as [|f fs IH]; simpl; [done|].
    simpl in Hall. apply andb_true_iff in Hall as [Hf Hfs].
    specialize (IH Hfs). unfold surviving at 1, validated_in_place at 1.
    destruct (unsupported_parametric c f) eqn:Hu.
    { by rewrite IH. }
    unfold checkable in Hf. rewrite Hu in Hf. simpl in Hf.
    destruct (validate_fault_sites c f Hreg Hf) as [-> ->].
    rewrite IH. simpl. unfold fault_bool. simpl.
    by destruct (kept_sites c f).
  - intros N HN. unfold in_bounds. repeat split.
    + apply andb_true_iff; split; [apply Z.leb_le|apply Z.ltb_lt]; lia.
    + apply andb_false_iff; right. apply Z.ltb_ge; lia.
    + apply andb_false_iff; left. apply Z.leb_gt; lia.
Qed.

End Operations.

(** * Further properties of the campaign operations *)

Section MoreOperations.
Context {B : Backend}.

(** ** then_inject *)

Lemma py_in_range_last {A} (l : list A) (x : A) : py_in_range (l ++ [x]) (-1) = true.
Proof.
  unfold py_in_range. rewrite length_app. simpl.
  apply andb_true_iff. split; [apply Z.leb_le|apply Z.ltb_lt]; lia.
Qed.

Lemma py_pos_last {A} (l : list A) (x : A) : py_pos (l ++ [x]) (-1) = length l.
Proof. unfold py_pos. rewrite length_app. simpl. lia. Qed.

Lemma insert_last {A} (l : list A) (x y : A) : <[length l := y]> (l ++ [x]) = l ++ [y].
Proof. rewrite insert_app_r_alt by lia. by rewrite Nat.sub_diag. Qed.

(** X1: [then_inject] never fails the assertion on the round index.  When it
    returns, the rounds are the rounds it found, untouched, followed by one
    new round that holds the faults it returns; when [define_random] or
    [validate] raise, the new round has already been appended and stays
    behind, empty. *)
Theorem then_inject_appends_one_round c g faults :
  let r := then_inject c g faults in
  no_assertion (outcome r)
  /\ (forall inj_faults, outcome r = inr inj_faults ->
        rounds (campaign r) = rounds c ++ [insert_many [] inj_faults])
  /\ (forall e, outcome r = inl e -> rounds (campaign r) = rounds c ++ [ [] ]).
Proof.
  intros r. subst r. unfold then_inject, inject.
  replace (rounds (set_rounds c (rounds c ++ [ [] ]))) with (rounds c ++ [ [] ]) by done.
  rewrite py_in_range_last, py_pos_last. cbn [negb].
  replace (layers_info (set_rounds c (rounds c ++ [ [] ]))) with (layers_info c) by done.
  pose proof (define_random_no_assertion (layers_info c) g faults) as Hd.
  destruct (define_random (layers_info c) g faults) as [[g1 faults1] [e|dup]]; simpl in *.
  { split; [exact Hd|]. split; [by intros ? [=]|done]. }
  pose proof (validate_no_assertion (set_rounds c (rounds c ++ [ [] ])) faults1) as Hv.
  destruct (validate _ faults1) as [faults2 [e|inj]]; simpl in *.
  { split; [exact Hv|]. split; [by intros ? [=]|done]. }
  split; [apply no_assertion_value|]. split; [|by intros ? [=]].
  intros inj' [= <-]. unfold FaultRound in *.
  rewrite list_lookup_middle by done. simpl. by rewrite insert_last.
Qed.

(** ** validate *)

Lemma sites_to_remove_sound li is_syn ss rm :
  sites_to_remove li is_syn ss = inr rm ->
  forall s, s ∈ ss -> s ∉ rm -> site_valid li is_syn s = inr true.
Proof.
  revert rm. induction ss as [|x ss IH]; intros rm H s Hs Hrm.
  { by apply elem_of_nil in Hs. }
  simpl in H. destruct (site_valid li is_syn x) as [e|v] eqn:Hx; [done|].
  destruct (sites_to_remove li is_syn ss) as [e|rm'] eqn:Hss; [done|].
  injection H as <-. apply elem_of_cons in Hs as [->|Hs].
  - destruct v; [done|]. exfalso. apply Hrm. by left.
  - apply (IH rm' eq_refl s Hs). intros Hin. apply Hrm.
    destruct v; [done|by right].
Qed.

Lemma sites_to_remove_all_valid li is_syn ss :
  Forall (fun s => site_valid li is_syn s = inr true) ss ->
  sites_to_remove li is_syn ss = inr [].
Proof.
  induction 1 as [|s ss Hs _ IH]; simpl; [done|]. by rewrite Hs, IH.
Qed.

Lemma list_difference_nil_r {A} `{EqDecision A} (l : list A) : list_difference l [] = l.
Proof.
  induction l as [|x l IH]; simpl; [done|].
  destruct (decide_rel elem_of x []) as [H|_]; [by apply elem_of_nil in H|].
  by rewrite IH.
Qed.

Lemma site_valid_injectable li is_syn s :
  site_valid li is_syn s = inr true -> is_injectable li (layer s) = true.
Proof. unfold site_valid. by destruct (is_injectable li (layer s)). Qed.

Lemma validate_accepted c faults faults' valid_faults :
  validate c faults = (faults', inr valid_faults) -> Forall (accepted c) valid_faults.
Proof.
  revert faults' valid_faults.
  induction faults as [|f fs IH]; intros faults' vs H; simpl in H.
  { injection H as <- <-. constructor. }
  destruct (unsupported_parametric c f) eqn:Hu.
  { destruct (validate c fs) as [rest' r] eqn:Hrest. injection H as <- ->. by eapply IH. }
  destruct (sites_to_remove _ _ (sites f)) as [e|rm] eqn:Hrm; [done|].
  destruct (validate c fs) as [rest' [e|vs']] eqn:Hrest; simpl in H; [done|].
  injection H as <- <-. specialize (IH _ _ eq_refl).
  unfold fault_bool. simpl.
  destruct (list_difference (sites f) rm) as [|s0 ss0] eqn:Hdiff; [exact IH|].
  constructor; [|exact IH]. split; [exact Hu|]. split; [done|]. simpl.
  rewrite <- Hdiff. apply Forall_forall. intros s Hs.
  apply list_elem_of_difference in Hs as [Hs Hnot].
  by eapply sites_to_remove_sound.
Qed.

Lemma validate_of_accepted c faults :
  Forall (accepted c) faults -> validate c faults = (faults, inr faults).
Proof.
  induction 1 as [|f fs (Hu & Hne & Hall) _ IH]; simpl; [done|].
  rewrite Hu, (sites_to_remove_all_valid _ _ _ Hall), list_difference_nil_r, IH. simpl.
  unfold fault_bool. simpl. destruct f as [m ss p]; simpl in *. by destruct ss.
Qed.

(** X2: whatever [validate] returns without raising is valid: no returned
    Fault is void, none is a parametric Fault on a parameter the neuron model
    lacks, and every site of a returned Fault is on an injectable layer and
    passes the bounds check. *)
Theorem validate_returns_only_valid_faults c faults faults' valid_faults f :
  validate c faults = (faults', inr valid_faults) -> f ∈ valid_faults ->
  fault_bool f = true /\ unsupported_parametric c f = false
  /\ forall s, s ∈ sites f ->
       is_injectable (layers_info c) (layer s) = true
       /\ site_valid (layers_info c) (is_synaptic (model f)) s = inr true.
Proof.
  intros H Hf. apply validate_accepted in H.
  rewrite Forall_forall in H. destruct (H f Hf) as (Hu & Hne & Hall).
  split; [unfold fault_bool; by destruct (sites f)|]. split; [exact Hu|].
  intros s Hs. rewrite Forall_forall in Hall. specialize (Hall s Hs).
  split; [by eapply site_valid_injectable|exact Hall].
Qed.

(** X3: [validate] is idempotent: validating the Faults it returned returns
    them again, in the same order, and leaves each of them as it is. *)
Theorem validate_idempotent c faults faults' valid_faults :
  validate c faults = (faults', inr valid_faults) ->
  validate c valid_faults = (valid_faults, inr valid_faults).
Proof. intros H. by eapply validate_of_accepted, validate_accepted. Qed.

(** ** eject from one round *)

Lemma set_rounds_id c : set_rounds c (rounds c) = c.
Proof. by destruct c. Qed.

Lemma py_in_range_insert {A} (l : list A) j x i :
  py_in_range (<[j := x]> l) i = py_in_range l i.
Proof. unfold py_in_range. by rewrite length_insert. Qed.

Lemma py_pos_insert {A} (l : list A) j x i : py_pos (<[j := x]> l) i = py_pos l i.
Proof. unfold py_pos. by rewrite length_insert. Qed.

Lemma delete_insert_same {A} (l : list A) i x : delete i (<[i := x]> l) = delete i l.
Proof.
  revert i. induction l as [|y l IH]; intros [|i]; simpl; [done|done|done|].
  f_equal. apply IH.
Qed.

(** X4: [eject] with a round index other than [0].  Out of
    [-len(rounds), len(rounds))] it raises [IndexError] and changes nothing.
    Within, only the round at that index is concerned, counted from the end
    when negative: without Faults the round is removed; with Faults, they are
    extracted from the round, which is removed if nothing is left in it.  If
    no round is left, an empty one is put in place. *)
Theorem eject_from_one_round c faults round_idx :
  round_idx <> 0 ->
  (py_in_range (rounds c) round_idx = false ->
     exists msg, eject c faults (Some round_idx) = (c, inl (IndexError msg)))
  /\ (forall old, py_in_range (rounds c) round_idx = true ->
        rounds c !! py_pos (rounds c) round_idx = Some old ->
        let i := py_pos (rounds c) round_idx in
        eject c faults (Some round_idx)
        = (set_rounds c
             (at_least_one
                (if faults_truthy faults
                 then match extract_many old (default [] faults) with
                      | [] => delete i (rounds c)
                      | rest => <[i := rest]> (rounds c)
                      end
                 else delete i (rounds c))),
           inr ())).
Proof.
  intros Hidx. unfold eject, idx_truthy.
  replace (round_idx =? 0) with false by (symmetry; by apply Z.eqb_neq).
  change (default 0 (Some round_idx)) with round_idx.
  cbn [negb]. unfold eject_from_round, pop_at. split.
  - intros Hout. unfold py_get. rewrite Hout.
    destruct (faults_truthy faults); rewrite ?Hout, set_rounds_id; eauto.
  - intros old Hin Hold. unfold py_get.
    destruct (faults_truthy faults); [|by rewrite Hin].
    rewrite Hin. unfold FaultRound in *. rewrite Hold.
    rewrite py_in_range_insert, py_pos_insert, Hin.
    rewrite list_lookup_insert_eq by (by eapply lookup_lt_Some).
    destruct (extract_many old (default [] faults)) as [|f rest] eqn:Hleft; simpl.
    + by rewrite delete_insert_same.
    + done.
Qed.

(** ** eject never leaves a campaign without round *)

Lemma eject_from_all_nonempty seen todo faults :
  seen ++ todo <> [] -> (eject_from_all seen todo faults).1 <> [] \/
                        (eject_from_all seen todo faults).2 = inr ().
Proof.
  revert seen. induction todo as [|r todo IH]; intros seen Hne; simpl; [by right|].
  destruct (round_bool (extract_many r faults)).
  - apply IH. intros H. by apply app_eq_nil in H as [[? ?]%app_eq_nil _].
  - left. simpl. intros H. by apply app_eq_nil in H as [_ ?].
Qed.

Lemma eject_from_round_nonempty rs faults i :
  rs <> [] -> (eject_from_round rs faults i).1 <> [] \/
              (eject_from_round rs faults i).2 = inr ().
Proof.
  intros Hne. unfold eject_from_round.
  assert (Hins : forall j (x : FaultRound), <[j := x]> rs <> []).
  { intros j x H. apply (f_equal length) in H. rewrite length_insert in H.
    by destruct rs. }
  destruct (faults_truthy faults).
  - destruct (py_get rs i) as [e|r]; [by left|].
    destruct (py_get _ i) as [e|r']; [left; apply Hins|].
    destruct (negb (round_bool r')); [|by right].
    destruct (pop_at _ i); [left; apply Hins|by right].
  - destruct (pop_at rs i); [by left|by right].
Qed.

(** X6: [eject] touches nothing but the rounds, and a campaign is never
    left without round: not when [eject] returns, whatever the arguments,
    and not when it raises on a campaign that had a round.  Without Faults
    and without index (or with the index [0]), all the rounds go and one
    empty round is put in place. *)
Theorem eject_keeps_a_round c faults round_idx :
  (exists rs, (eject c faults round_idx).1 = set_rounds c rs)
  /\ ((eject c faults round_idx).2 = inr () \/ rounds c <> [] ->
      rounds (eject c faults round_idx).1 <> [])
  /\ (faults_truthy faults = false -> idx_truthy round_idx = false ->
      eject c faults round_idx = (set_rounds c [ [] ], inr ())).
Proof.
  unfold eject.
  set (res := if idx_truthy round_idx then _ else _).
  assert (Hres : (res.2 = inr () \/ rounds c <> []) -> res.1 <> [] \/ res.2 = inr ()).
  { intros [H|H]; [by right|]. subst res. destruct (idx_truthy round_idx).
    - by apply eject_from_round_nonempty.
    - destruct (faults_truthy faults); [|by right].
      apply eject_from_all_nonempty. by rewrite app_nil_l. }
  assert (Hclear : faults_truthy faults = false -> idx_truthy round_idx = false ->
                   res = ([], inr ())).
  { intros Hf Hi. subst res. by rewrite Hi, Hf. }
  clearbody res. destruct res as [rs [e|[]]]; simpl in *.
  - split; [by eexists|]. split.
    + intros H. destruct (Hres H) as [H'|H']; [|done]. by destruct c.
    + intros Hf Hi. by specialize (Hclear Hf Hi).
  - split; [by eexists|]. split.
    + intros _. destruct c; simpl. by destruct rs.
    + intros Hf Hi. specialize (Hclear Hf Hi). by injection Hclear as ->.
Qed.

(** ** define_random and validate *)



Lemma positive_shapes_syn li n :
  positive_shapes li = true -> n ∈ get_injectables li ->
  exists k l m x, shapes_syn li !! n = Some (k, l, m, x)
                  /\ 0 < k /\ 0 < l /\ 0 < m /\ 0 < x.
Proof.
  unfold positive_shapes. rewrite forallb_forall. intros H Hn.
  apply list_elem_of_In in Hn. apply H in Hn. apply andb_true_iff in Hn as [Hn _].
  destruct (shapes_syn li !! n) as [[[[k l] m] x]|]; [|done].
  repeat (apply andb_true_iff in Hn as [Hn ?]).
  exists k, l, m, x. repeat split; by apply Z.ltb_lt.
Qed.

Lemma positive_shapes_neu li n :
  positive_shapes li = true -> n ∈ get_injectables li ->
  exists l m x, shapes_neu li !! n = Some (l, m, x) /\ 0 < l /\ 0 < m /\ 0 < x.
Proof.
  unfold positive_shapes. rewrite forallb_forall. intros H Hn.
  apply list_elem_of_In in Hn. apply H in Hn. apply andb_true_iff in Hn as [_ Hn].
  destruct (shapes_neu li !! n) as [[[l m] x]|]; [|done].
  repeat (apply andb_true_iff in Hn as [Hn ?]).
  exists l, m, x. repeat split; by apply Z.ltb_lt.
Qed.




(** ** eject from all the rounds *)

Lemma eject_from_all_result seen todo faults :
  (eject_from_all seen todo faults).2 = inr ()
  <-> Forall (fun r => extract_many r faults <> []) todo.
Proof.
  revert seen. induction todo as [|x xs IH]; intros seen; simpl.
  { split; [by constructor|done]. }
  destruct (extract_many x faults) as [|f r'] eqn:E; simpl.
  - split; [done|]. intros H. apply Forall_cons in H as [H _]. by rewrite E in H.
  - rewrite IH. split.
    + intros H. constructor; [by rewrite E|done].
    + intros H. by apply Forall_cons in H as [_ H].
Qed.

(** X19: [eject] with Faults and without round index (or with the index
    [0]) returns exactly when the extraction leaves no round empty.  It has
    then extracted the Faults from every round, and the rounds are as many
    as before, in the same order. *)
Theorem eject_extracts_from_every_round c faults round_idx :
  faults <> [] -> idx_truthy round_idx = false ->
  ((eject c (Some faults) round_idx).2 = inr ()
   <-> Forall (fun r => extract_many r faults <> []) (rounds c))
  /\ (Forall (fun r => extract_many r faults <> []) (rounds c) ->
      eject c (Some faults) round_idx
      = (set_rounds c (at_least_one ((fun r => extract_many r faults) <$> rounds c)),
         inr ())).
Proof.
  intros Hne Hidx. unfold eject. rewrite Hidx.
  destruct faults as [|f fs]; [done|]. cbn [faults_truthy default from_option].
  change (id (f :: fs)) with (f :: fs).
  pose proof (eject_from_all_result [] (rounds c) (f :: fs)) as Hres.
  split.
  - rewrite <- Hres. by destruct (eject_from_all [] (rounds c) (f :: fs)) as [rs [e|[]]].
  - intros Hall. by rewrite (eject_from_all_ok [] (rounds c) (f :: fs) Hall).
Qed.

End MoreOperations.

(** * Frame properties of the methods *)

Section Frames.
Context {B : Backend}.

Section Keeps.
Context (R : relation Campaign) `{!Reflexive R, !Transitive R}.

Lemma keeps_ret {A} (a : A) : keeps R (ret a).
Proof. intros c. simpl. reflexivity. Qed.
Lemma keeps_raise {A} e : keeps R (raise (A:=A) e).
Proof. intros c. simpl. reflexivity. Qed.
Lemma keeps_get : keeps R get.
Proof. intros c. simpl. reflexivity. Qed.
Lemma keeps_lift {A} (r : exn + A) : keeps R (lift r).
Proof. intros c. simpl. reflexivity. Qed.
Lemma keeps_modify f : (forall c, R c (f c)) -> keeps R (modify f).
Proof. intros H c. apply H. Qed.
Lemma keeps_bind {A C} (m : M A) (k : A -> M C) :
  keeps R m -> (forall a, keeps R (k a)) -> keeps R (bind m k).
Proof.
  intros Hm Hk c. unfold bind. specialize (Hm c).
  destruct (m c) as [c' [e|a]]; simpl in *; [done|].
  etrans; [exact Hm|apply Hk].
Qed.
Lemma keeps_for_each {A} (l : list A) body :
  (forall x, keeps R (body x)) -> keeps R (for_each l body).
Proof.
  intros H. induction l as [|x l IH]; simpl; [apply keeps_ret|].
  apply keeps_bind; [apply H|intros _; apply IH].
Qed.
Lemma keeps_for_fold {A S} (l : list A) (s : S) body :
  (forall s x, keeps R (body s x)) -> keeps R (for_fold l s body).
Proof.
  intros H. revert s. induction l as [|x l IH]; intros s; simpl; [apply keeps_ret|].
  apply keeps_bind; [apply H|intros s'; apply IH].
Qed.
Lemma keeps_current_oround : keeps R current_oround.
Proof. intros c. unfold current_oround. case_match; simpl; reflexivity. Qed.
Lemma keeps_the_faulty : keeps R the_faulty.
Proof. intros c. unfold the_faulty. case_match; simpl; reflexivity. Qed.
Lemma keeps_as_index i : keeps R (as_index i).
Proof. destruct i; [apply keeps_ret|apply keeps_raise]. Qed.
End Keeps.

(** Step through a method built from the combinators. *)
Ltac keeps_step :=
  lazymatch goal with
  | |- Reflexive _ => apply _
  | |- Transitive _ => apply _
  | |- forall _, _ => intro
  | |- keeps _ (ret _) => apply keeps_ret
  | |- keeps _ (raise _) => apply keeps_raise
  | |- keeps _ get => apply keeps_get
  | |- keeps _ (lift _) => apply keeps_lift
  | |- keeps _ current_oround => apply keeps_current_oround
  | |- keeps _ the_faulty => apply keeps_the_faulty
  | |- keeps _ (as_index _) => apply keeps_as_index
  | |- keeps _ (bind _ _) => apply keeps_bind
  | |- keeps _ (for_each _ _) => apply keeps_for_each
  | |- keeps _ (for_fold _ _ _) => apply keeps_for_fold
  | |- keeps _ (match ?x with _ => _ end) => destruct x
  end.

#[local] Instance hook_frame_refl : Reflexive hook_frame.
Proof. by intros c. Qed.
#[local] Instance hook_frame_trans : Transitive hook_frame.
Proof. unfold hook_frame. intros c1 c2 c3 H1 H2. intuition congruence. Qed.

Lemma hook_frame_set_faulty n hs c : hook_frame c (set_faulty n hs c).
Proof. by destruct c. Qed.
Lemma hook_frame_set_originals o c : hook_frame c (set_originals o c).
Proof. by destruct c. Qed.
Lemma hook_frame_set_model_args a c : hook_frame c (set_model_args a c).
Proof. by destruct c. Qed.
Lemma hook_frame_set_handles h c : hook_frame c (set_handles h c).
Proof. by destruct c. Qed.

Ltac hook_frame_step :=
  lazymatch goal with
  | |- keeps hook_frame (modify _) =>
      apply keeps_modify; intros ?;
      first [ apply hook_frame_set_faulty | apply hook_frame_set_originals
            | apply hook_frame_set_model_args | apply hook_frame_set_handles ]
  | |- _ => keeps_step
  end.

Lemma run_neuron_pre_hook_frame n t : keeps hook_frame (run_neuron_pre_hook n t).
Proof. unfold run_neuron_pre_hook. repeat hook_frame_step. Qed.
Lemma run_parametric_hook_frame n t : keeps hook_frame (run_parametric_hook n t).
Proof. unfold run_parametric_hook. repeat hook_frame_step. Qed.
Lemma perturb_store_frame m v s : keeps hook_frame (perturb_store m v s).
Proof. unfold perturb_store. repeat hook_frame_step. Qed.
Lemma restore_frame m s : keeps hook_frame (restore m s).
Proof. unfold restore. repeat hook_frame_step. Qed.
Lemma run_synaptic_pre_hook_frame m n : keeps hook_frame (run_synaptic_pre_hook m n).
Proof.
  unfold run_synaptic_pre_hook.
  repeat first [apply perturb_store_frame | hook_frame_step].
Qed.
Lemma run_synaptic_hook_frame m n : keeps hook_frame (run_synaptic_hook m n).
Proof.
  unfold run_synaptic_hook.
  repeat first [apply restore_frame | hook_frame_step].
Qed.
Lemma run_pre_hook_frame m t h : keeps hook_frame (run_pre_hook m t h).
Proof.
  destruct h; simpl;
    repeat first [apply run_neuron_pre_hook_frame | apply run_synaptic_pre_hook_frame
                 | hook_frame_step].
Qed.
Lemma run_hook_frame m t h : keeps hook_frame (run_hook m t h).
Proof.
  destruct h; simpl;
    repeat first [apply run_parametric_hook_frame | apply run_synaptic_hook_frame
                 | hook_frame_step].
Qed.
Lemma faulty_call_frame m t : keeps hook_frame (faulty_call m t).
Proof.
  unfold faulty_call.
  repeat first [apply run_pre_hook_frame | apply run_hook_frame | hook_frame_step].
Qed.
Lemma golden_call_frame m t : keeps hook_frame (golden_call m t).
Proof. unfold golden_call. repeat hook_frame_step. Qed.

Lemma forward_layers_frame li call first layers x y :
  (forall m t, keeps hook_frame (call m t)) ->
  keeps hook_frame (forward_layers li call first layers x y).
Proof.
  intros H. revert first x y. induction layers as [|n ns IH]; intros first x y; simpl.
  - repeat keeps_step.
  - apply keeps_bind; [apply _|apply H|intros r; apply IH].
Qed.
Lemma forward_opt_frame call x s e :
  (forall m t, keeps hook_frame (call m t)) -> keeps hook_frame (forward_opt call x s e).
Proof.
  intros H. unfold forward_opt.
  apply keeps_bind; [apply _|repeat keeps_step|intros c].
  by apply forward_layers_frame.
Qed.
Lemma faulty_forward_frame x s e : keeps hook_frame (faulty_forward x s e).
Proof.
  unfold faulty_forward. apply keeps_bind; [apply _|repeat keeps_step|intros _].
  apply forward_opt_frame, faulty_call_frame.
Qed.
Lemma golden_forward_frame x s e : keeps hook_frame (golden_forward x s e).
Proof. apply forward_opt_frame, golden_call_frame. Qed.


Lemma perturb_layer_frame o n : keeps hook_frame (perturb_layer o n).
Proof.
  unfold perturb_layer, handle_at, store_handle, register.
  repeat hook_frame_step.
Qed.
Lemma _perturb_net_frame o : keeps hook_frame (_perturb_net o).
Proof.
  unfold _perturb_net. repeat first [apply perturb_layer_frame | hook_frame_step].
Qed.

(** ** run keeps the rounds *)

#[local] Instance rounds_kept_refl : Reflexive rounds_kept.
Proof. by intros c. Qed.
#[local] Instance rounds_kept_trans : Transitive rounds_kept.
Proof.
  unfold rounds_kept. intros c1 c2 c3 H1 H2 Hne.
  rewrite <- (H1 Hne). apply H2. by rewrite (H1 Hne).
Qed.

Lemma keeps_weaken {A} (R1 R2 : relation Campaign) (m : M A) :
  (forall c c', R1 c c' -> R2 c c') -> keeps R1 m -> keeps R2 m.
Proof. intros H Hm c. apply H, Hm. Qed.

Lemma hook_frame_rounds_kept c c' : hook_frame c c' -> rounds_kept c c'.
Proof. intros H _. apply H. Qed.

(** A field update that leaves the rounds alone. *)
Ltac rounds_kept_step :=
  lazymatch goal with
  | |- keeps rounds_kept (modify _) =>
      apply keeps_modify;
      let c := fresh "c" in
      intros c; unfold rounds_kept; destruct c; simpl; done
  | |- keeps rounds_kept (faulty_forward _ _ _) =>
      apply (keeps_weaken hook_frame rounds_kept _ hook_frame_rounds_kept),
        faulty_forward_frame
  | |- keeps rounds_kept (golden_forward _ _ _) =>
      apply (keeps_weaken hook_frame rounds_kept _ hook_frame_rounds_kept),
        golden_forward_frame
  | |- keeps rounds_kept (run_neuron_pre_hook _ _) =>
      apply (keeps_weaken hook_frame rounds_kept _ hook_frame_rounds_kept),
        run_neuron_pre_hook_frame
  | |- _ => keeps_step
  end.

Lemma register_rounds_kept m p fn : keeps rounds_kept (register m p fn).
Proof. unfold register. repeat rounds_kept_step. Qed.

Lemma perturb_layer_rounds_kept o n : keeps rounds_kept (perturb_layer o n).
Proof.
  unfold perturb_layer, handle_at, store_handle.
  repeat first [apply register_rounds_kept | rounds_kept_step].
Qed.

Lemma _pre_run_rounds_kept : keeps rounds_kept _pre_run.
Proof.
  assert (Hprep : forall rs r, keeps rounds_kept (prepare_rounds r rs)).
  { induction rs as [|x rs IH]; intros r; simpl; [repeat rounds_kept_step|].
    apply keeps_bind; [apply _| |intros _; apply IH].
    unfold prepare_round, _perturb_net.
    repeat first [apply perturb_layer_rounds_kept | rounds_kept_step]. }
  unfold _pre_run.
  apply keeps_bind; [apply _| |intros _].
  { apply keeps_modify. intros c Hne. by destruct (rounds c) eqn:E. }
  repeat first [apply Hprep | rounds_kept_step].
Qed.

Lemma _advance_performance_rounds_kept o t l e :
  keeps rounds_kept (_advance_performance o t l e).
Proof. unfold _advance_performance. repeat rounds_kept_step. Qed.

Lemma _evaluate_single_rounds_kept bs e : keeps rounds_kept (_evaluate_single bs e).
Proof.
  unfold _evaluate_single, output_layer.
  repeat first [apply _advance_performance_rounds_kept | rounds_kept_step].
Qed.

Lemma _evaluate_optimized_rounds_kept bs e : keeps rounds_kept (_evaluate_optimized bs e).
Proof.
  unfold _evaluate_optimized, output_layer, evaluate_batch, store_golden, evaluate_round,
    round_output.
  repeat first [apply _advance_performance_rounds_kept | rounds_kept_step].
Qed.

Lemma run_rounds_kept bs e : keeps rounds_kept (run bs e).
Proof.
  unfold run.
  repeat first [apply _pre_run_rounds_kept | apply _evaluate_single_rounds_kept
               | apply _evaluate_optimized_rounds_kept | rounds_kept_step].
Qed.

(** ** run_complete *)

Lemma set_rounds_twice (c : Campaign) a b : set_rounds (set_rounds c a) b = set_rounds c b.
Proof. by destruct c. Qed.

Lemma set_rounds_same (c : Campaign) : set_rounds c (rounds c) = c.
Proof. by destruct c. Qed.

Lemma unsupported_parametric_model c c' f f' :
  slayer_neuron c' = slayer_neuron c -> model f' = model f ->
  unsupported_parametric c' f' = unsupported_parametric c f.
Proof. unfold unsupported_parametric. by intros -> ->. Qed.

Lemma py_last_append {A} (l : list A) x :
  py_in_range (l ++ [x]) (-1) = true /\ py_pos (l ++ [x]) (-1) = length l.
Proof.
  unfold py_in_range, py_pos. rewrite length_app. simpl. split.
  - apply andb_true_iff; split; [apply Z.leb_le|apply Z.ltb_lt]; lia.
  - lia.
Qed.

(** One step of the sweep appends a round that holds the fault of one neuron. *)
Lemma then_inject_step_neuron c g fm lay C H W p rs :
  is_synaptic fm = false ->
  unsupported_parametric c (neuron_fault fm lay p) = false ->
  lay ∈ get_injectables (layers_info c) ->
  shapes_neu (layers_info c) !! lay = Some (C, H, W) ->
  0 <= p.1.1 < C -> 0 <= p.1.2 < H -> 0 <= p.2 < W ->
  then_inject_step g
    [Fault_new fm (mkFaultSite (Some lay) (Slice, Int p.1.1, Int p.1.2, Int p.2))]
    (set_rounds c rs)
  = (set_rounds c (rs ++ [[neuron_fault fm lay p]]), inr g).
Proof.
  intros Hsyn Hsup Hinj Hshape Hl Hm Hn.
  destruct p as [[l m] n]; simpl in *.
  change (Fault_new fm (mkFaultSite (Some lay) (Slice, Int l, Int m, Int n)))
    with (neuron_fault fm lay (l, m, n)).
  set (f := neuron_fault fm lay (l, m, n)) in *.
  assert (Hval : forall rs', validate (set_rounds c rs') [f] = ([f], inr [f])).
  { intros rs'. simpl.
    rewrite (unsupported_parametric_model c _ f f) by (by destruct c).
    rewrite Hsup. replace (layers_info (set_rounds c rs')) with (layers_info c)
      by (by destruct c).
    simpl. rewrite Hsyn.
    unfold site_valid. simpl.
    rewrite bool_decide_eq_true_2 by done.
    unfold get_shapes. rewrite Hshape. simpl. unfold check_axis. simpl.
    unfold shape_at. simpl.
    assert (Hin : forall d z, 0 <= z < d -> (- d <=? z) && (z <? d) = true).
    { intros d z Hz. apply andb_true_iff; split; [apply Z.leb_le|apply Z.ltb_lt]; lia. }
    by rewrite !Hin by done. }
  unfold then_inject_step, then_inject, inject.
  rewrite set_rounds_twice.
  replace (rounds (set_rounds c rs)) with rs by (by destruct c).
  replace (rounds (set_rounds c (rs ++ [[]]))) with (rs ++ [[]]) by (by destruct c).
  replace (layers_info (set_rounds c (rs ++ [[]]))) with (layers_info c) by (by destruct c).
  unfold FaultRound in *.
  destruct (py_last_append (A:=list Fault) rs []) as [-> ->]. simpl negb. cbv iota.
  assert (Hdr : define_random (layers_info c) g [f] = (g, [f], inr false)) by done.
  rewrite Hdr, Hval. simpl.
  rewrite set_rounds_twice. f_equal. f_equal.
  rewrite list_lookup_middle by done. simpl.
  replace (length rs) with (length rs + 0)%nat by lia.
  by rewrite insert_app_r.
Qed.

(** A loop whose steps append rounds appends them all, in order. *)
Lemma for_fold_appends {A} (l : list A) (Fs : A -> list FaultRound)
    (step : Rng -> A -> M Rng) (c : Campaign) g :
  (forall x rs, x ∈ l -> step g x (set_rounds c rs) = (set_rounds c (rs ++ Fs x), inr g)) ->
  forall rs, for_fold l g step (set_rounds c rs) = (set_rounds c (rs ++ (l ≫= Fs)), inr g).
Proof.
  induction l as [|x l IH]; intros Hstep rs; simpl.
  { by rewrite app_nil_r. }
  unfold bind. rewrite Hstep by apply list_elem_of_here.
  rewrite IH; [by rewrite <- app_assoc|].
  intros y rs' Hy. apply Hstep. by right.
Qed.

Lemma fmap_over_bind {A C D} (f : C -> D) (g : A -> list C) (l : list A) :
  f <$> (l ≫= g) = l ≫= (fun x => f <$> g x).
Proof.
  induction l as [|x l IH]; [done|].
  by rewrite !bind_cons, fmap_app, IH.
Qed.

Lemma complete_layer_neurons c g fm lay C H W rs :
  is_synaptic fm = false ->
  unsupported_parametric c (mkFault fm [] []) = false ->
  lay ∈ get_injectables (layers_info c) ->
  shapes_neu (layers_info c) !! lay = Some (C, H, W) ->
  complete_layer fm g lay (set_rounds c rs)
  = (set_rounds c (rs ++ ((fun p => [neuron_fault fm lay p]) <$> neuron_coords C H W)),
     inr g).
Proof.
  intros Hsyn Hsup Hinj Hshape. unfold complete_layer.
  unfold bind at 1. simpl.
  rewrite Hsyn. unfold get_shapes. rewrite Hshape.
  unfold bind at 1. simpl. unfold shape_at, range. simpl.
  unfold bind at 1.
  rewrite (for_fold_appends (seqZ 0 C)
             (fun l => (fun p => [neuron_fault fm lay p])
                         <$> (m ← seqZ 0 H; n ← seqZ 0 W; [(l, m, n)]))).
  { unfold neuron_coords, range. by rewrite fmap_over_bind. }
  intros l rs2 Hl.
  rewrite fmap_over_bind.
  apply for_fold_appends. intros m rs3 Hm.
  rewrite fmap_over_bind.
  apply for_fold_appends. intros n rs4 Hn.
  apply elem_of_seqZ in Hl, Hm, Hn.
  apply (then_inject_step_neuron c g fm lay C H W (l, m, n)); simpl; try done; try lia.
Qed.

Lemma length_bind_const {A C} (f : A -> list C) (l : list A) k :
  (forall x, length (f x) = k) -> length (l ≫= f) = (length l * k)%nat.
Proof.
  intros Hf. induction l as [|x l IH]; [done|].
  rewrite bind_cons, length_app, IH, Hf. simpl. lia.
Qed.

Lemma neuron_coords_length C H W :
  0 <= C -> 0 <= H -> 0 <= W ->
  length (neuron_coords C H W) = Z.to_nat (C * H * W).
Proof.
  intros HC HH HW. unfold neuron_coords, range.
  rewrite (length_bind_const _ _ (Z.to_nat H * Z.to_nat W)).
  - rewrite length_seqZ, !Z2Nat.inj_mul by lia. lia.
  - intros l. rewrite (length_bind_const _ _ (Z.to_nat W)).
    + by rewrite length_seqZ.
    + intros m. rewrite (length_bind_const _ _ 1%nat); [|done].
      rewrite length_seqZ. lia.
Qed.

Lemma neuron_coords_elem C H W l m n :
  (l, m, n) ∈ neuron_coords C H W <-> 0 <= l < C /\ 0 <= m < H /\ 0 <= n < W.
Proof.
  unfold neuron_coords, range. rewrite list_elem_of_bind. split.
  - intros (l' & Hin & Hl). apply list_elem_of_bind in Hin as (m' & Hin & Hm).
    apply list_elem_of_bind in Hin as (n' & Hin & Hn).
    apply list_elem_of_singleton in Hin. injection Hin as -> -> ->.
    apply elem_of_seqZ in Hl, Hm, Hn. lia.
  - intros (Hl & Hm & Hn). exists l. split; [|apply elem_of_seqZ; lia].
    apply list_elem_of_bind. exists m. split; [|apply elem_of_seqZ; lia].
    apply list_elem_of_bind. exists n. split; [|apply elem_of_seqZ; lia].
    by apply list_elem_of_singleton.
Qed.

Lemma neuron_coords_NoDup C H W : NoDup (neuron_coords C H W).
Proof.
  unfold neuron_coords, range. apply NoDup_bind; [| |apply NoDup_seqZ].
  - intros l1 l2 p _ _ H1 H2.
    apply list_elem_of_bind in H1 as (m1 & H1 & _), H2 as (m2 & H2 & _).
    apply list_elem_of_bind in H1 as (n1 & H1 & _), H2 as (n2 & H2 & _).
    apply list_elem_of_singleton in H1, H2. congruence.
  - intros l _. apply NoDup_bind; [| |apply NoDup_seqZ].
    + intros m1 m2 p _ _ H1 H2.
      apply list_elem_of_bind in H1 as (n1 & H1 & _), H2 as (n2 & H2 & _).
      apply list_elem_of_singleton in H1, H2. congruence.
    + intros m _. apply NoDup_bind; [| |apply NoDup_seqZ].
      * intros n1 n2 p _ _ H1 H2.
        apply list_elem_of_singleton in H1, H2. congruence.
      * intros n _. apply NoDup_singleton.
Qed.

(** C5, as amended: [run_complete] on one injectable layer of neuronal shape
    [(C, H, W)], all three positive, with a fault model that is neither
    synaptic nor parametric on an unsupported parameter, leaves exactly
    [C*H*W] rounds whatever rounds there were, one per coordinate in the
    order of the sweep: each holds one Fault with the single site
    [(slice, l, m, n)], and every coordinate of the shape occurs once. *)
Theorem run_complete_one_round_per_neuron c g test_loader fault_model lay_name C H W error :
  is_synaptic fault_model = false ->
  unsupported_parametric c (mkFault fault_model [] []) = false ->
  lay_name ∈ get_injectables (layers_info c) ->
  shapes_neu (layers_info c) !! lay_name = Some (C, H, W) ->
  0 < C -> 0 < H -> 0 < W ->
  let c' := (run_complete g test_loader fault_model (Some [lay_name]) error c).1 in
  rounds c' = (fun p => [neuron_fault fault_model lay_name p]) <$> neuron_coords C H W
  /\ length (rounds c') = Z.to_nat (C * H * W)
  /\ NoDup (neuron_coords C H W)
  /\ forall l m n,
       (l, m, n) ∈ neuron_coords C H W <-> 0 <= l < C /\ 0 <= m < H /\ 0 <= n < W.
Proof.
  intros Hsyn Hsup Hinj Hshape HC HH HW c'.
  assert (Hrounds : rounds c'
            = (fun p => [neuron_fault fault_model lay_name p]) <$> neuron_coords C H W).
  { subst c'. unfold run_complete.
    unfold bind at 1. simpl.
    rewrite filter_cons, decide_True by (by apply bool_decide_eq_true_2).
    rewrite filter_nil.
    unfold bind at 1, modify. cbv iota beta. cbn [for_fold].
    unfold bind at 1. unfold bind at 1.
    rewrite (complete_layer_neurons c g fault_model lay_name C H W []) by done.
    simpl.
    set (rs := (fun p => [neuron_fault fault_model lay_name p]) <$> neuron_coords C H W).
    pose proof (run_rounds_kept test_loader error (set_rounds c rs)) as Hkept.
    unfold rounds_kept in Hkept.
    replace (rounds (set_rounds c rs)) with rs in Hkept by (by destruct c).
    apply Hkept. subst rs. intros Hnil. apply fmap_nil_inv in Hnil.
    assert (Hin : (0, 0, 0) ∈ neuron_coords C H W) by (apply neuron_coords_elem; lia).
    rewrite Hnil in Hin. by apply elem_of_nil in Hin. }
  split; [exact Hrounds|]. split.
  - rewrite Hrounds, length_fmap. apply neuron_coords_length; lia.
  - split; [apply neuron_coords_NoDup|]. intros l m n. apply neuron_coords_elem.
Qed.

(** ** Installation of the hooks *)

Lemma well_shaped_fresh : well_shaped fresh_slots.
Proof. by exists None, None, None, None, None, None. Qed.

Lemma layer_slots_well_shaped c n :
  (forall n sl, handles c !! n = Some sl -> well_shaped sl) -> well_shaped (layer_slots c n).
Proof.
  intros H. unfold layer_slots. destruct (handles c !! n) eqn:E; simpl; [by eapply H|].
  apply well_shaped_fresh.
Qed.

Lemma slot_set_well_shaped sl i j h : well_shaped sl -> well_shaped (slot_set sl i j h).
Proof.
  intros (a & b & x & d & e & f & ->).
  destruct i as [|[|[|i]]], j as [|[|j]]; simpl; unfold well_shaped; eauto 10.
Qed.

Lemma slot_get_set sl t pre t' pre' h :
  well_shaped sl ->
  slot_get (slot_set sl (get_index t) (slot_index pre) h) (get_index t') (slot_index pre')
  = if decide ((t, pre) = (t', pre')) then Some h
    else slot_get sl (get_index t') (slot_index pre').
Proof.
  intros (a & b & x & d & e & f & ->).
  destruct t, pre, t', pre'; simpl; try done.
Qed.

Lemma for_each_param_perturb (l : list Fault) (c : Campaign) :
  for_each l (fun fault =>
    modify (fun c => set_model_args (param_perturb (model_args c) (model fault)) c)) c
  = (set_model_args (foldl (fun a f => param_perturb a (model f)) (model_args c) l) c,
     inr ()).
Proof.
  revert c. induction l as [|f l IH]; intros c; simpl.
  { by destruct c. }
  unfold bind, modify. rewrite IH. by destruct c.
Qed.

Lemma hooks_inv_set_model_args a c : hooks_inv c -> hooks_inv (set_model_args a c).
Proof. by destruct c. Qed.

Lemma layer_slots_setdefault c n n' :
  layer_slots (set_handles (<[n := layer_slots c n]> (handles c)) c) n' = layer_slots c n'.
Proof.
  destruct c; unfold layer_slots; simpl.
  rewrite lookup_insert. by case_decide; [subst|].
Qed.

Lemma hooks_inv_setdefault c n :
  hooks_inv c -> hooks_inv (set_handles (<[n := layer_slots c n]> (handles c)) c).
Proof.
  intros [Hshape Hcount]. split.
  - intros n' sl Hsl.
    assert (Hsl' : (<[n := layer_slots c n]> (handles c)) !! n' = Some sl)
      by (by destruct c).
    rewrite lookup_insert in Hsl'. case_decide; [|by eapply Hshape].
    injection Hsl' as <-. by apply layer_slots_well_shaped.
  - intros n' t pre. rewrite layer_slots_setdefault, <- Hcount. by destruct c.
Qed.


Lemma layer_slots_installed c module pre fn n t pre' :
  hooks_inv c ->
  slot_get (layer_slots (installed c module pre fn) n) (get_index t) (slot_index pre')
  = if decide (hook_slot fn = (n, t, pre')) then Some (length (faulty_hooks c))
    else slot_get (layer_slots c n) (get_index t) (slot_index pre').
Proof.
  intros [Hshape _]. destruct (hook_slot fn) as [[n0 t0] p0] eqn:Hfn.
  unfold installed. rewrite Hfn. simpl.
  assert (Hls : forall x, layer_slots
      (set_handles
         (<[n0 := x]> (handles (set_faulty (faulty c) (faulty_hooks c ++ [mkHookReg module pre fn]) c)))
         (set_faulty (faulty c) (faulty_hooks c ++ [mkHookReg module pre fn]) c)) n
      = if decide (n0 = n) then x else layer_slots c n).
  { intros x. destruct c; unfold layer_slots; simpl.
    rewrite lookup_insert. by case_decide. }
  rewrite Hls.
  replace (layer_slots (set_faulty (faulty c) (faulty_hooks c ++ [mkHookReg module pre fn]) c) n0)
    with (layer_slots c n0) by (by destruct c).
  destruct (decide (n0 = n)) as [->|Hn].
  - rewrite slot_get_set by (by apply layer_slots_well_shaped).
    repeat case_decide; first [done | congruence].
  - rewrite decide_False by congruence. done.
Qed.

Lemma registered_installed c module pre fn n t pre' :
  registered n t pre' (installed c module pre fn)
  = (registered n t pre' c + if decide (hook_slot fn = (n, t, pre')) then 1 else 0)%nat.
Proof.
  unfold registered, installed.
  replace (faulty_hooks _) with (faulty_hooks c ++ [mkHookReg module pre fn]) by (by destruct c).
  rewrite filter_app, length_app. f_equal.
  rewrite filter_cons, filter_nil. simpl. by case_decide.
Qed.

Lemma hooks_inv_installed c module pre fn :
  hooks_inv c ->
  slot_get (layer_slots c (hook_slot fn).1.1) (get_index (hook_slot fn).1.2)
           (slot_index (hook_slot fn).2) = None ->
  hooks_inv (installed c module pre fn).
Proof.
  intros Hinv Hfree. split.
  - destruct Hinv as [Hshape _]. intros n sl Hsl.
    assert (Hsl' : (<[(hook_slot fn).1.1 :=
               slot_set (layer_slots c (hook_slot fn).1.1) (get_index (hook_slot fn).1.2)
                 (slot_index (hook_slot fn).2) (length (faulty_hooks c))]> (handles c)) !! n
             = Some sl) by (by destruct c).
    rewrite lookup_insert in Hsl'. case_decide; [|by eapply Hshape].
    injection Hsl' as <-. by apply slot_set_well_shaped, layer_slots_well_shaped.
  - intros n t pre'. rewrite registered_installed, layer_slots_installed by done.
    destruct Hinv as [_ Hcount]. rewrite Hcount.
    case_decide as Hslot; [|lia].
    rewrite Hslot in Hfree. simpl in Hfree. by rewrite Hfree.
Qed.

#[local] Instance inv_kept_refl : Reflexive inv_kept.
Proof. intros c H. exact H. Qed.
#[local] Instance inv_kept_trans : Transitive inv_kept.
Proof. unfold inv_kept. intros c1 c2 c3 H1 H2 H. auto. Qed.

(** The pair "register, then store the handle" as one step. *)
Lemma register_store c module pre fn :
  bind (register module pre fn)
       (fun h => store_handle (hook_slot fn).1.1 (get_index (hook_slot fn).1.2)
                              (slot_index (hook_slot fn).2) h) c
  = match faulty c with
    | Some _ => (installed c module pre fn, inr ())
    | None => (c, inl (AttributeError "NoneType object has no such attribute"))
    end.
Proof.
  unfold register, store_handle, bind, the_faulty, get, modify, ret, installed.
  destruct (faulty c) eqn:E; [|done]. destruct c; simpl in *. by subst.
Qed.

Ltac step_install c m pre fn :=
  match goal with
  | |- context [bind (register m pre fn) ?k c] =>
      replace (bind (register m pre fn) k c)
        with (match faulty c with
              | Some _ => (installed c m pre fn, inr ())
              | None => (c, inl (AttributeError "NoneType object has no such attribute"))
              end)
        by (symmetry; apply register_store)
  end.

Lemma install_if_free c module pre fn (guard : bool) :
  hooks_inv c ->
  (guard = true ->
   slot_get (layer_slots c (hook_slot fn).1.1) (get_index (hook_slot fn).1.2)
            (slot_index (hook_slot fn).2) = None) ->
  hooks_inv
    ((if guard then
        bind (register module pre fn)
             (fun h => store_handle (hook_slot fn).1.1 (get_index (hook_slot fn).1.2)
                                    (slot_index (hook_slot fn).2) h)
      else ret ()) c).1.
Proof.
  intros Hinv Hfree. destruct guard; [|done].
  rewrite register_store. destruct (faulty c); [|done].
  by apply hooks_inv_installed; [|apply Hfree].
Qed.

Lemma bind_assoc {A C D} (m : M A) (k : A -> M C) (f : C -> M D) c :
  bind m (fun a => bind (k a) f) c = bind (bind m k) f c.
Proof. unfold bind. by destruct (m c) as [c' [e|a]]. Qed.

Lemma keeps_assoc {A C D} R (m : M A) (k : A -> M C) (f : C -> M D) :
  keeps R (bind (bind m k) f) -> keeps R (bind m (fun a => bind (k a) f)).
Proof. intros H c. rewrite bind_assoc. apply H. Qed.

Lemma is_Some_false {A} (o : option A) : negb (bool_decide (is_Some o)) = true -> o = None.
Proof.
  destruct o; [|done]. rewrite bool_decide_eq_true_2 by eauto. done.
Qed.

Lemma neuronal_block_inv li n :
  keeps inv_kept
    (h_neu <~ handle_at n ind_neu 0 ;;
     (if negb (is_output li n) && negb (bool_decide (is_Some h_neu)) then
        match get_following li n with
        | None => raise (TypeError "attribute name must be string, not NoneType")
        | Some following_layer =>
            h <~ register following_layer true (neuron_pre_hook n) ;;
            store_handle n ind_neu 0 h
        end
      else ret ())).
Proof.
  intros c Hinv. unfold bind at 1, handle_at. simpl.
  destruct (get_following li n) as [fl|].
  - apply (install_if_free c fl true (neuron_pre_hook n)); [done|].
    intros [_ H]%andb_true_iff. by apply is_Some_false.
  - by destruct (_ && _).
Qed.

Lemma parametric_block_inv n :
  keeps inv_kept
    (h_par <~ handle_at n ind_par 1 ;;
     (if negb (bool_decide (is_Some h_par)) then
        h <~ register n false (parametric_hook n) ;;
        store_handle n ind_par 1 h
      else ret ())).
Proof.
  intros c Hinv. unfold bind at 1, handle_at. simpl.
  apply (install_if_free c n false (parametric_hook n)); [done|].
  apply is_Some_false.
Qed.

Lemma synaptic_block_inv (cond : bool) n :
  keeps inv_kept
    (h_pre <~ handle_at n ind_syn 0 ;;
     h_post <~ handle_at n ind_syn 1 ;;
     (if cond && negb (bool_decide (is_Some h_pre) || bool_decide (is_Some h_post)) then
        h <~ register n true (synaptic_pre_hook n) ;;
        store_handle n ind_syn 0 h ;;;
        h' <~ register n false (synaptic_hook n) ;;
        store_handle n ind_syn 1 h'
      else ret ())).
Proof.
  intros c Hinv. unfold bind at 1, handle_at. simpl.
  unfold bind at 1. simpl.
  destruct (cond && _) eqn:Hg; [|done].
  apply andb_true_iff in Hg as [_ Hg]. apply negb_true_iff, orb_false_iff in Hg as [H0 H1].
  assert (Hpre : slot_get (layer_slots c n) ind_syn 0 = None)
    by (apply is_Some_false; by rewrite H0).
  assert (Hpost : slot_get (layer_slots c n) ind_syn 1 = None)
    by (apply is_Some_false; by rewrite H1).
  rewrite bind_assoc. unfold bind at 1.
  step_install c n true (synaptic_pre_hook n).
  destruct (faulty c) eqn:Hf; [|done].
  assert (Hinv1 : hooks_inv (installed c n true (synaptic_pre_hook n)))
    by (by apply hooks_inv_installed).
  set (c1 := installed c n true (synaptic_pre_hook n)) in *.
  step_install c1 n false (synaptic_hook n).
  destruct (faulty c1); [|done]. cbn [fst].
  apply hooks_inv_installed; [done|].
  change (slot_get (layer_slots c1 n) (get_index TargetW) (slot_index false) = None).
  subst c1. rewrite layer_slots_installed by done.
  rewrite decide_False by (simpl; congruence). exact Hpost.
Qed.

Ltac inv_kept_step :=
  lazymatch goal with
  | |- keeps inv_kept (modify _) =>
      apply keeps_modify;
      let c := fresh "c" in
      let H := fresh "H" in
      intros c H; destruct c; exact H
  | |- _ => keeps_step
  end.

Lemma perturb_layer_inv o n : keeps inv_kept (perturb_layer o n).
Proof.
  unfold perturb_layer.
  apply keeps_bind; [apply _| |intros _].
  { apply keeps_modify. intros c Hinv. by apply hooks_inv_setdefault. }
  apply keeps_bind; [apply _|repeat inv_kept_step|intros li].
  apply keeps_bind; [apply _| |intros _; apply synaptic_block_inv].
  destruct (any_neuronal (oround o) n); [|repeat inv_kept_step].
  apply keeps_assoc.
  apply keeps_bind; [apply _|apply neuronal_block_inv|intros _].
  destruct (any_parametric (oround o) n); [|repeat inv_kept_step].
  apply keeps_bind; [apply _| |intros _; apply parametric_block_inv].
  intros c Hinv. rewrite for_each_param_perturb. by apply hooks_inv_set_model_args.
Qed.

Lemma prepare_rounds_inv rs r : keeps inv_kept (prepare_rounds r rs).
Proof.
  revert r. induction rs as [|x rs IH]; intros r; simpl; [repeat inv_kept_step|].
  apply keeps_bind; [apply _| |intros _; apply IH].
  unfold prepare_round, _perturb_net.
  repeat first [apply perturb_layer_inv | inv_kept_step].
Qed.

Lemma hooks_inv_fresh (c : Campaign) :
  handles c = ∅ -> faulty_hooks c = [] -> hooks_inv c.
Proof.
  intros Hh Hf. split.
  - intros n sl. by rewrite Hh, lookup_empty.
  - intros n t pre. unfold registered, layer_slots. rewrite Hh, Hf, lookup_empty.
    by destruct t, pre.
Qed.

Lemma _pre_run_inv c : hooks_inv (_pre_run c).1.
Proof.
  unfold _pre_run.
  do 7 (unfold bind at 1; unfold modify at 1; cbv beta iota).
  match goal with
  | |- hooks_inv (bind get ?k ?c0).1 =>
      assert (Hrest : keeps inv_kept (bind get k));
      [|apply Hrest, hooks_inv_fresh; by destruct c]
  end.
  repeat first [apply prepare_rounds_inv | inv_kept_step].
Qed.

(** C6: after the installation of the hooks of a run, whatever the rounds
    and however many of them touch the same layer, at most one hook has been
    registered on the faulty network for any layer, fault target and side
    (pre-hook or hook), and the slot of the registry holds a handle exactly
    when there is one. *)
Theorem _pre_run_installs_at_most_one_hook c layer_name fault_target pre :
  let c' := (_pre_run c).1 in
  (registered layer_name fault_target pre c' <= 1)%nat
  /\ (registered layer_name fault_target pre c' = 1%nat
      <-> is_Some (slot_get (layer_slots c' layer_name) (get_index fault_target)
                            (slot_index pre))).
Proof.
  intros c'. destruct (_pre_run_inv c) as [_ Hcount]. fold c' in Hcount.
  rewrite (Hcount layer_name fault_target pre).
  destruct (slot_get _ _ _); split; try lia; split; intros H; eauto; try lia.
  by destruct H.
Qed.

(** ** One fault round on one batch *)

Lemma py_get_in_range {A} (l : list A) i x : py_get l i = inr x -> py_in_range l i = true.
Proof. unfold py_get. by destruct (py_in_range l i). Qed.

Lemma py_get_lookup {A} (l : list A) i x : py_get l i = inr x -> l !! py_pos l i = Some x.
Proof.
  unfold py_get. destruct (py_in_range l i); [|done].
  destruct (l !! py_pos l i); [|done]. by intros [= ->].
Qed.

Lemma py_get_last {A} (l : list A) x : py_get l (-1) = inr x <-> last l = Some x.
Proof.
  unfold py_get, py_in_range, py_pos.
  destruct l as [|y l _] using rev_ind.
  { by split. }
  rewrite last_snoc, length_app. simpl.
  replace (- Z.of_nat (length l + 1) <=? -1) with true by (symmetry; apply Z.leb_le; lia).
  replace (-1 <? Z.of_nat (length l + 1)) with true by (symmetry; apply Z.ltb_lt; lia).
  simpl. replace (Z.to_nat (-1 + Z.of_nat (length l + 1))) with (length l) by lia.
  rewrite list_lookup_middle by done. split; congruence.
Qed.

Lemma last_insert_before {A} (l : list A) i x :
  (S i < length l)%nat -> last (<[i := x]> l) = last l.
Proof.
  intros Hi. rewrite !last_lookup, length_insert.
  apply list_lookup_insert_ne. lia.
Qed.

Lemma bind_ret {A C} (a : A) (k : A -> M C) c : bind (ret a) k c = k a c.
Proof. done. Qed.

Lemma bind_lift_value {A C} (a : A) (k : A -> M C) c : bind (lift (inr a)) k c = k a c.
Proof. done. Qed.

(** C1: in the multi-round path, for a non-empty round that does not touch
    the output stage, when the faulty network has returned from the
    sub-range [early_idx..late_idx] and from the stage [late_idx + 1]: if the
    output of that stage equals the cached golden activation
    [golden_spikes[late_idx + 2]], the output of the round is the cached final
    golden activation and the faulty network is not called again; otherwise
    the output is what the faulty network computes from stage [late_idx + 2]
    to the end. *)
Theorem early_stop_reports_golden_output c o out_name golden_spikes e l g c1 r c2 r1 g2 :
  orounds c !! r_idx c = Some o ->
  round_bool (oround o) = true ->
  is_out_faulty o = false ->
  early_idx o = Some e -> late_idx o = Some l -> 0 <= e <= l ->
  py_get golden_spikes e = inr g ->
  faulty_forward g (Some e) (Some l) c = (c1, inr r) ->
  faulty_forward r.2 (Some (l + 1)) (Some (l + 1)) c1 = (c2, inr r1) ->
  py_get (<[py_pos golden_spikes e := r.1]> golden_spikes) (l + 2) = inr g2 ->
  (tensor_equal r1.2 g2 = true ->
   exists final,
     last golden_spikes = Some final
     /\ round_output out_name golden_spikes c
        = (c2, inr (<[py_pos golden_spikes e := r.1]> golden_spikes, final)))
  /\ (tensor_equal r1.2 g2 = false ->
      round_output out_name golden_spikes c
      = (let '(c3, res) := faulty_forward r1.2 (Some (l + 2)) None c2 in
         (c3, on_value (fun r2 => (<[py_pos golden_spikes e := r.1]> golden_spikes, r2.2))
                       res))).
Proof.
  intros Ho Hne Hout He Hl Hel Hg Hsub Hnext Hg2.
  assert (Hstart : round_output out_name golden_spikes c
    = (g2' <~ lift (py_get (<[py_pos golden_spikes e := r.1]> golden_spikes) (l + 2)) ;;
       if tensor_equal r1.2 g2' then
         output <~ lift (py_get (<[py_pos golden_spikes e := r.1]> golden_spikes) (-1)) ;;
         ret (<[py_pos golden_spikes e := r.1]> golden_spikes, output)
       else
         r2 <~ faulty_forward r1.2 (Some (l + 2)) None ;;
         ret (<[py_pos golden_spikes e := r.1]> golden_spikes, r2.2)) c2).
  { unfold round_output. unfold bind at 1. unfold current_oround. rewrite Ho.
    cbv beta iota. rewrite Hne, He, Hl. simpl as_index.
    rewrite !bind_ret, Hg, bind_lift_value.
    unfold bind at 1. rewrite Hsub. cbv beta iota zeta. rewrite Hout.
    unfold bind at 1. rewrite Hnext. done. }
  rewrite Hstart, Hg2, bind_lift_value.
  split; intros Heq; rewrite Heq.
  - set (gs' := <[py_pos golden_spikes e := r.1]> golden_spikes) in *.
    assert (Hlen : (S (py_pos golden_spikes e) < length golden_spikes)%nat).
    { apply py_get_in_range in Hg2. unfold py_in_range in Hg2.
      apply andb_true_iff in Hg2 as [_ H2]. apply Z.ltb_lt in H2.
      subst gs'. rewrite length_insert in H2.
      unfold py_pos. replace (e <? 0) with false by (symmetry; apply Z.ltb_ge; lia). lia. }
    destruct (last golden_spikes) as [final|] eqn:Hlast.
    + exists final. split; [done|].
      assert (Hfinal : py_get gs' (-1) = inr final).
      { apply py_get_last. subst gs'. by rewrite last_insert_before. }
      unfold bind, lift. by rewrite Hfinal.
    + apply last_None in Hlast. rewrite Hlast in Hlen. simpl in Hlen. lia.
  - unfold bind. by destruct (faulty_forward _ _ _ c2) as [c3 [err|r2]].
Qed.

(** ** The golden network is a function *)

Lemma forward_layers_golden c first layers x y :
  exists x', forward_layers (layers_info c) golden_call first layers x y c
             = (c, inr (x', golden_layers c layers y)).
Proof.
  revert first x y. induction layers as [|n ns IH]; intros first x y; simpl.
  { by exists x. }
  unfold bind at 1, golden_call at 1. simpl. apply IH.
Qed.

Lemma golden_forward_eq c x s e :
  exists x',
    golden_forward x s e c
    = (c, inr (x', golden_layers c
                     (subject_layers (layers_info c) (default 0 s)
                        (default (Z.of_nat (length (order (layers_info c))) - 1) e)) x)).
Proof. unfold golden_forward, forward_opt. unfold bind, get. apply forward_layers_golden. Qed.


Lemma select_from_cons a b k n l :
  select_from a b k (n :: l)
  = (if (a <=? Z.of_nat k) && (Z.of_nat k <=? b) then [n] else []) ++ select_from a b (S k) l.
Proof.
  unfold select_from. simpl. rewrite Nat.add_0_r.
  replace (imap ((fun i n0 => ((k + i)%nat, n0)) ∘ S) l)
    with (imap (fun i n0 => ((S k + i)%nat, n0)) l).
  - by destruct (_ && _).
  - apply imap_ext. intros i x _. simpl. f_equal. lia.
Qed.

Lemma subject_layers_select li a b : subject_layers li a b = select_from a b 0 (order li).
Proof. done. Qed.

Lemma select_from_none a b k l : b < Z.of_nat k -> select_from a b k l = [].
Proof.
  revert k. induction l as [|n l IH]; intros k Hk; [done|].
  rewrite select_from_cons, IH by lia.
  replace (Z.of_nat k <=? b) with false by (symmetry; apply Z.leb_gt; lia).
  by rewrite andb_false_r.
Qed.

Lemma select_from_all a b k l :
  a <= Z.of_nat k -> Z.of_nat (k + length l) - 1 <= b -> select_from a b k l = l.
Proof.
  revert k. induction l as [|n l IH]; intros k Ha Hb; [done|].
  simpl in Hb. rewrite select_from_cons, IH by lia.
  replace (a <=? Z.of_nat k) with true by (symmetry; apply Z.leb_le; lia).
  replace (Z.of_nat k <=? b) with true by (symmetry; apply Z.leb_le; lia).
  done.
Qed.

Lemma select_from_single k j l n :
  l !! j = Some n ->
  select_from (Z.of_nat (k + j)) (Z.of_nat (k + j)) k l = [n].
Proof.
  revert k j. induction l as [|x l IH]; intros k j Hj; [done|].
  rewrite select_from_cons. destruct j as [|j]; simpl in Hj.
  - injection Hj as ->. rewrite Nat.add_0_r.
    rewrite Z.leb_refl. simpl. by rewrite select_from_none by lia.
  - replace (Z.of_nat (k + S j) <=? Z.of_nat k) with false by (symmetry; apply Z.leb_gt; lia).
    simpl. replace (k + S j)%nat with (S k + j)%nat by lia. by apply IH.
Qed.

Lemma golden_output_layers c input :
  golden_output c input = golden_layers c (order (layers_info c)) input.
Proof.
  unfold golden_output. destruct (golden_forward_eq c input None None) as [x' ->].
  simpl. rewrite subject_layers_select, select_from_all; [done|lia|simpl; lia].
Qed.

Lemma golden_layers_snoc c layers n x :
  golden_layers c (layers ++ [n]) x = golden_layers c [n] (golden_layers c layers x).
Proof. unfold golden_layers. by rewrite foldl_app. Qed.


Lemma cached_lookup c input k j :
  (j <= k)%nat ->
  cached c input k !! j = Some (golden_layers c (take j (order (layers_info c))) input).
Proof.
  intros Hj. unfold cached. rewrite list_lookup_fmap, lookup_seq_lt by lia. done.
Qed.

Lemma cached_length c input k : length (cached c input k) = S k.
Proof. unfold cached. by rewrite length_fmap, length_seq. Qed.

Lemma store_golden_loop c input k m :
  (k + m <= length (order (layers_info c)))%nat ->
  for_fold (seq k m) (cached c input k) (fun golden_spikes layer_idx =>
    g <~ lift (py_get golden_spikes (Z.of_nat layer_idx)) ;;
    r <~ golden_forward g (Some (Z.of_nat layer_idx)) (Some (Z.of_nat layer_idx)) ;;
    ret (golden_spikes ++ [r.2])) c
  = (c, inr (cached c input (k + m))).
Proof.
  revert k. induction m as [|m IH]; intros k Hk; cbn [for_fold seq].
  { by rewrite Nat.add_0_r. }
  assert (Hget : py_get (cached c input k) (Z.of_nat k)
                 = inr (golden_layers c (take k (order (layers_info c))) input)).
  { unfold py_get, py_in_range, py_pos. rewrite cached_length.
    replace (- Z.of_nat (S k) <=? Z.of_nat k) with true by (symmetry; apply Z.leb_le; lia).
    replace (Z.of_nat k <? Z.of_nat (S k)) with true by (symmetry; apply Z.ltb_lt; lia).
    replace (Z.of_nat k <? 0) with false by (symmetry; apply Z.ltb_ge; lia).
    simpl. by rewrite Nat2Z.id, cached_lookup. }
  unfold bind at 1. unfold bind at 1. rewrite Hget. unfold lift at 1. cbv beta iota.
  unfold bind at 1.
  destruct (golden_forward_eq c (golden_layers c (take k (order (layers_info c))) input)
              (Some (Z.of_nat k)) (Some (Z.of_nat k))) as [x' ->].
  cbv beta iota. unfold ret at 1. cbv beta iota. cbn [default from_option id snd].
  destruct (lookup_lt_is_Some_2 (order (layers_info c)) k ltac:(lia)) as [n Hn].
  rewrite subject_layers_select.
  pose proof (select_from_single 0 k _ n Hn) as Hsel. simpl in Hsel. rewrite Hsel.
  rewrite <- golden_layers_snoc, <- (take_S_r _ _ _ Hn).
  replace (cached c input k ++ [golden_layers c (take (S k) (order (layers_info c))) input])
    with (cached c input (S k)).
  - rewrite IH by lia. do 3 f_equal. lia.
  - unfold cached. rewrite (seq_S (S k)), fmap_app. done.
Qed.

Lemma store_golden_eq c input :
  store_golden input c = (c, inr (cached c input (length (order (layers_info c))))).
Proof.
  unfold store_golden. unfold bind at 1, get. cbv beta iota.
  change [input] with (cached c input 0).
  by rewrite (store_golden_loop c input 0).
Qed.

Lemma cached_last c input :
  last (cached c input (length (order (layers_info c)))) = Some (golden_output c input).
Proof.
  rewrite last_lookup, cached_length. simpl.
  rewrite cached_lookup by lia. by rewrite golden_output_layers, firstn_all.
Qed.

(** ** The rounds of a batch *)

Lemma bind_ok_inv {A C} (m : M A) (k : A -> M C) c c' v :
  bind m k c = (c', inr v) -> exists c1 a, m c = (c1, inr a) /\ k a c1 = (c', inr v).
Proof.
  unfold bind. destruct (m c) as [c1 [e|a]]; [done|]. intros H. by exists c1, a.
Qed.

Lemma lift_ok_inv {A} (r : exn + A) c c' v : lift r c = (c', inr v) -> c' = c /\ r = inr v.
Proof. unfold lift. by intros [= -> ->]. Qed.

Lemma ret_ok_inv {A} (a : A) c c' v : ret a c = (c', inr v) -> c' = c /\ v = a.
Proof. unfold ret. by intros [= -> ->]. Qed.

Lemma as_index_ok_inv i c c' v : as_index i c = (c', inr v) -> c' = c /\ i = Some v.
Proof. destruct i; simpl; [by intros [= -> ->]|done]. Qed.

Lemma current_oround_ok_inv c c' o :
  current_oround c = (c', inr o) -> c' = c /\ orounds c !! r_idx c = Some o.
Proof.
  unfold current_oround. destruct (orounds c !! r_idx c); [|done]. by intros [= -> ->].
Qed.

Ltac bind_inv H :=
  let c := fresh "c" in
  let a := fresh "a" in
  let H1 := fresh "Hstep" in
  apply bind_ok_inv in H as (c & a & H1 & H).

Lemma round_output_frame out gs : keeps hook_frame (round_output out gs).
Proof.
  unfold round_output.
  repeat first [apply faulty_forward_frame | apply run_neuron_pre_hook_frame
               | hook_frame_step].
Qed.

(** An empty round: the cached final activation, and nothing else happens. *)
Lemma round_output_empty out gs c o x :
  orounds c !! r_idx c = Some o -> round_bool (oround o) = false -> last gs = Some x ->
  round_output out gs c = (c, inr (gs, x)).
Proof.
  intros Ho Hempty Hlast. unfold round_output.
  unfold bind at 1, current_oround. rewrite Ho. cbv beta iota. rewrite Hempty.
  apply py_get_last in Hlast. by rewrite Hlast.
Qed.

(** Whatever the round, the cache keeps its length and its last entry. *)
Lemma round_output_cache out gs c c' gs' output :
  round_output out gs c = (c', inr (gs', output)) ->
  (forall o e, o ∈ orounds c -> early_idx o = Some e ->
               0 <= e /\ e + 1 < Z.of_nat (length gs)) ->
  length gs' = length gs /\ last gs' = last gs.
Proof.
  intros H Hwf. unfold round_output in H.
  apply bind_ok_inv in H as (c0 & o & Ho & H).
  apply current_oround_ok_inv in Ho as [-> Ho].
  assert (Hins : forall e x, early_idx o = Some e ->
             length (<[py_pos gs e := x]> gs) = length gs
             /\ last (<[py_pos gs e := x]> gs) = last gs).
  { intros e x He.
    destruct (Hwf o e (list_elem_of_lookup_2 _ _ _ Ho) He) as [H0 H1].
    split; [apply length_insert|].
    apply last_insert_before. unfold py_pos.
    replace (e <? 0) with false by (symmetry; apply Z.ltb_ge; lia). lia. }
  destruct (round_bool (oround o)).
  - apply bind_ok_inv in H as (c1 & e & He & H). apply as_index_ok_inv in He as [-> He].
    apply bind_ok_inv in H as (c2 & l & Hl & H). apply as_index_ok_inv in Hl as [-> Hl].
    apply bind_ok_inv in H as (c3 & g & Hg & H). apply lift_ok_inv in Hg as [-> Hg].
    apply bind_ok_inv in H as (c4 & r & Hr & H). destruct (is_out_faulty o).
    + apply bind_ok_inv in H as (c5 & y & Hy & H).
      apply ret_ok_inv in H as [_ [= -> _]]. by apply Hins.
    + apply bind_ok_inv in H as (c5 & r1 & Hr1 & H).
      apply bind_ok_inv in H as (c6 & g2 & Hg2 & H).
      destruct (tensor_equal _ _).
      * apply bind_ok_inv in H as (c7 & y & Hy & H).
        apply ret_ok_inv in H as [_ [= -> _]]. by apply Hins.
      * apply bind_ok_inv in H as (c7 & y & Hy & H).
        apply ret_ok_inv in H as [_ [= -> _]]. by apply Hins.
  - apply bind_ok_inv in H as (c1 & y & Hy & H).
    by apply ret_ok_inv in H as [_ [= -> _]].
Qed.

#[local] Instance static_refl : Reflexive static.
Proof. by intros c. Qed.
#[local] Instance static_trans : Transitive static.
Proof. unfold static. intros c1 c2 c3 H1 H2. intuition congruence. Qed.

Lemma hook_frame_static c c' : hook_frame c c' -> static c c'.
Proof. unfold hook_frame, static. intuition. Qed.

(** One round: its statistics advance by the output of the round. *)
Lemma evaluate_round_ok out target label error gs r c c' gs' :
  evaluate_round out target label error gs r c = (c', inr gs') ->
  exists stats output c1,
    performance c !! r = Some stats
    /\ round_output out gs (set_r_idx r c) = (c1, inr (gs', output))
    /\ performance c' = <[r := advance stats output target label error]> (performance c)
    /\ static c c'.
Proof.
  intros H. unfold evaluate_round in H.
  apply bind_ok_inv in H as (c0 & [] & Hset & H).
  unfold modify in Hset. injection Hset as <-.
  apply bind_ok_inv in H as (c1 & [gs1 output] & Hout & H).
  apply bind_ok_inv in H as (c2 & [] & Hadv & H).
  apply ret_ok_inv in H as [-> ->]. simpl in *.
  pose proof (round_output_frame out gs (set_r_idx r c)) as Hframe.
  rewrite Hout in Hframe. simpl in Hframe.
  destruct Hframe as (Hg & _ & Hli & Hr & _ & Ho & Hrg & Hp).
  unfold _advance_performance in Hadv. unfold bind at 1, get in Hadv.
  cbv beta iota in Hadv. rewrite Hr, Hp in Hadv.
  replace (r_idx (set_r_idx r c)) with r in Hadv by (by destruct c).
  replace (performance (set_r_idx r c)) with (performance c) in Hadv by (by destruct c).
  destruct (performance c !! r) as [stats|] eqn:Hstats; [|done].
  unfold modify in Hadv. injection Hadv as <-.
  exists stats, output, c1. split; [done|]. split; [done|]. split.
  - destruct c1, c; simpl in *. by subst.
  - unfold static. destruct c1, c; simpl in *. by subst.
Qed.

Lemma lookup_insert_advance {A} (l : list A) r r' (f : A -> A) x y :
  l !! r' = Some x -> (r' = r -> y = f x) ->
  <[r' := y]> l !! r = if decide (r' = r) then f <$> l !! r else l !! r.
Proof.
  intros Hx Hy. case_decide as Hr.
  - subst. rewrite list_lookup_insert_eq by (by eapply lookup_lt_Some).
    by rewrite Hx, Hy.
  - by apply list_lookup_insert_ne.
Qed.

(** The rounds of a batch, in the order of the groups: the statistics of an
    empty round advance once, by the cached final activation, if the round is
    among them. *)
Lemma evaluate_rounds_ok out target label error x r o_r rs :
  NoDup rs -> round_bool (oround o_r) = false ->
  forall gs c c' gs',
    (forall o e, o ∈ orounds c -> early_idx o = Some e ->
                 0 <= e /\ e + 1 < Z.of_nat (length gs)) ->
    orounds c !! r = Some o_r ->
    last gs = Some x ->
    for_fold rs gs (evaluate_round out target label error) c = (c', inr gs') ->
    static c c'
    /\ performance c' !! r
       = if bool_decide (r ∈ rs)
         then (fun st => advance st x target label error) <$> performance c !! r
         else performance c !! r.
Proof.
  intros Hnd Hempty.
  induction Hnd as [|r' rs Hnotin Hnd IH]; intros gs c c' gs' Hwf Hr Hlast H.
  { apply ret_ok_inv in H as [-> _]. split; [done|].
    by rewrite bool_decide_eq_false_2 by (by intros ?%elem_of_nil). }
  cbn [for_fold] in H. apply bind_ok_inv in H as (c1 & gs1 & Hround & H).
  apply evaluate_round_ok in Hround
    as (stats & output & c0 & Hstats & Hout & Hperf & Hstatic).
  assert (Horounds : orounds (set_r_idx r' c) = orounds c) by (by destruct c).
  destruct (round_output_cache _ _ _ _ _ _ Hout) as [Hlen Hlast1].
  { by rewrite Horounds. }
  assert (Hwf1 : forall o e, o ∈ orounds c1 -> early_idx o = Some e ->
                             0 <= e /\ e + 1 < Z.of_nat (length gs1)).
  { destruct Hstatic as (_ & _ & -> & _). by rewrite Hlen. }
  assert (Hr1 : orounds c1 !! r = Some o_r) by (by destruct Hstatic as (_ & _ & -> & _)).
  rewrite Hlast in Hlast1.
  destruct (IH gs1 c1 c' gs' Hwf1 Hr1 Hlast1 H) as [Hst Hp].
  split; [by etrans|]. rewrite Hp, Hperf.
  rewrite (lookup_insert_advance (performance c) r r'
             (fun st => advance st x target label error) stats
             (advance stats output target label error) Hstats).
  - destruct (decide (r' = r)) as [->|Hne].
    + rewrite bool_decide_eq_false_2 by done.
      by rewrite bool_decide_eq_true_2 by apply list_elem_of_here.
    + destruct (bool_decide (r ∈ rs)) eqn:Hin.
      * apply bool_decide_eq_true in Hin.
        by rewrite bool_decide_eq_true_2 by (by right).
      * apply bool_decide_eq_false in Hin.
        rewrite bool_decide_eq_false_2; [done|].
        intros [?|?]%elem_of_cons; congruence.
  - intros ->.
    assert (Hcur : orounds (set_r_idx r c) !! r_idx (set_r_idx r c) = Some o_r)
      by (by destruct c).
    rewrite (round_output_empty out gs _ o_r x Hcur Hempty Hlast) in Hout.
    by injection Hout as _ _ <-.
Qed.

(** ** The batches *)

Lemma bind_ext {A C} (m : M A) (k k' : A -> M C) c :
  (forall a c1, k a c1 = k' a c1) -> bind m k c = bind m k' c.
Proof. intros H. unfold bind. destruct (m c) as [c1 [e|a]]; [done|apply H]. Qed.

Lemma for_fold_app {A S} (l1 l2 : list A) (s : S) body c :
  for_fold (l1 ++ l2) s body c
  = bind (for_fold l1 s body) (fun s' => for_fold l2 s' body) c.
Proof.
  revert s c. induction l1 as [|x l1 IH]; intros s c; simpl; [done|].
  rewrite <- bind_assoc. apply bind_ext. intros s' c1. apply IH.
Qed.

(** The loop over the groups and, inside, over the rounds of a group visits
    the rounds of the groups one after the other. *)
Lemma for_fold_concat {A S} (groups : list (list A)) (s : S) body c :
  for_fold groups s (fun s g => for_fold g s body) c = for_fold (concat groups) s body c.
Proof.
  revert s c. induction groups as [|g groups IH]; intros s c; simpl; [done|].
  rewrite for_fold_app. apply bind_ext. intros s' c1. apply IH.
Qed.

Lemma foldl_pointwise {A S} (f g : S -> A -> S) (l : list A) (s : S) :
  (forall s x, f s x = g s x) -> foldl f s l = foldl g s l.
Proof.
  intros H. revert s. induction l as [|x l IH]; intros s; simpl; [done|].
  by rewrite H, IH.
Qed.

Lemma golden_output_static c c' input :
  static c c' -> golden_output c' input = golden_output c input.
Proof.
  intros (Hg & Hli & _). rewrite !golden_output_layers. unfold golden_layers.
  by rewrite Hg, Hli.
Qed.

(** One batch: the statistics of an empty round advance by the output of the
    golden network on the input of the batch. *)
Lemma evaluate_batch_ok out error input target label r o_r c c' :
  evaluate_batch out error (input, target, label) c = (c', inr ()) ->
  NoDup (concat ((rgroups c).*2)) ->
  orounds_wf c ->
  orounds c !! r = Some o_r -> round_bool (oround o_r) = false ->
  static c c'
  /\ performance c' !! r
     = if bool_decide (r ∈ concat ((rgroups c).*2))
       then (fun st => advance st (golden_output c input) target label error)
              <$> performance c !! r
       else performance c !! r.
Proof.
  intros H Hnd Hwf Hr Hempty. unfold evaluate_batch in H.
  apply bind_ok_inv in H as (c0 & gs & Hgs & H).
  rewrite store_golden_eq in Hgs. injection Hgs as <- <-.
  apply bind_ok_inv in H as (c1 & c2 & Hget & H).
  unfold get in Hget. injection Hget as <- <-.
  apply bind_ok_inv in H as (c1 & gs' & Hloop & H).
  apply ret_ok_inv in H as [-> _].
  rewrite for_fold_concat in Hloop.
  eapply evaluate_rounds_ok; [done|done| |done|apply cached_last|exact Hloop].
  intros o e Ho He. rewrite cached_length.
  destruct (Hwf o e Ho He). lia.
Qed.

(** All the batches: the statistics of an empty round are those of the
    golden network on the batches. *)
Lemma evaluate_batches_ok out error r o_r test_loader :
  round_bool (oround o_r) = false ->
  forall c c' stats,
    for_each test_loader (evaluate_batch out error) c = (c', inr ()) ->
    NoDup (concat ((rgroups c).*2)) ->
    r ∈ concat ((rgroups c).*2) ->
    orounds_wf c ->
    orounds c !! r = Some o_r ->
    performance c !! r = Some stats ->
    static c c'
    /\ performance c' !! r
       = Some (foldl (fun st '(input, target, label) =>
                        advance st (golden_output c input) target label error)
                     stats test_loader).
Proof.
  intros Hempty.
  induction test_loader as [|[[input target] label] bs IH];
    intros c c' stats H Hnd Hin Hwf Hr Hstats.
  { apply ret_ok_inv in H as [-> _]. by split. }
  cbn [for_each] in H. apply bind_ok_inv in H as (c1 & [] & Hbatch & H).
  destruct (evaluate_batch_ok _ _ _ _ _ r o_r _ _ Hbatch Hnd Hwf Hr Hempty) as [Hst Hp].
  rewrite bool_decide_eq_true_2, Hstats in Hp by done. simpl in Hp.
  pose proof Hst as (Hg & Hli & Hor & Hrg).
  assert (Hnd1 : NoDup (concat ((rgroups c1).*2))) by (by rewrite Hrg).
  assert (Hin1 : r ∈ concat ((rgroups c1).*2)) by (by rewrite Hrg).
  assert (Hwf1 : orounds_wf c1) by (unfold orounds_wf; rewrite Hor, Hli; exact Hwf).
  assert (Hr1 : orounds c1 !! r = Some o_r) by (by rewrite Hor).
  destruct (IH c1 c' _ H Hnd1 Hin1 Hwf1 Hr1 Hp) as [Hst' Hp'].
  split; [by etrans|]. rewrite Hp'. simpl. f_equal.
  apply foldl_pointwise. intros st [[i t] l]. by rewrite (golden_output_static c c1).
Qed.

(** ** What _pre_run prepares *)

Lemma layer_index_lt li n i : layer_index li n = Some i -> (i < length (order li))%nat.
Proof.
  unfold layer_index. destruct (list_find _ (order li)) as [[j x]|] eqn:Hfind; [|done].
  simpl. intros [= <-]. apply list_find_Some in Hfind as (Hj & _).
  by eapply lookup_lt_Some.
Qed.

Lemma elem_of_option_list_inv {A} (o : option A) x : x ∈ option_list o -> o = Some x.
Proof.
  destruct o as [y|]; simpl; [|by intros ?%elem_of_nil].
  by intros ->%list_elem_of_singleton.
Qed.

Lemma touched_lt li r i : i ∈ touched li r -> (i < length (order li))%nat.
Proof.
  unfold touched. intros H.
  apply list_elem_of_bind in H as (f & H & _).
  apply list_elem_of_bind in H as (s & H & _).
  apply list_elem_of_bind in H as (n & H & _).
  apply elem_of_option_list_inv in H. by eapply layer_index_lt.
Qed.

Lemma foldr_min_le i more : (foldr Nat.min i more <= i)%nat.
Proof. induction more as [|x more IH]; simpl; lia. Qed.

Lemma oround_optimized li r : oround (optimized li r) = r.
Proof. unfold optimized. by destruct (touched li r). Qed.

Lemma optimized_early li r e :
  early_idx (optimized li r) = Some e -> 0 <= e < Z.of_nat (length (order li)).
Proof.
  unfold optimized. destruct (touched li r) as [|i more] eqn:Ht; [done|].
  simpl. intros [= <-].
  assert (Hi : (i < length (order li))%nat) by (apply (touched_lt li r); rewrite Ht; by left).
  pose proof (foldr_min_le i more). lia.
Qed.

Lemma group_append_concat gs k r :
  concat ((group_append gs k r).*2) ≡ₚ concat (gs.*2) ++ [r].
Proof.
  induction gs as [|[k' l] gs IH]; simpl; [done|].
  case_decide; simpl.
  - rewrite <- !app_assoc. f_equiv. apply Permutation_app_comm.
  - rewrite IH. by rewrite app_assoc.
Qed.

Lemma keyed_snd li gs ks : keyed li gs = inr ks -> ks.*2 = gs.
Proof.
  revert ks. induction gs as [|g gs IH]; intros ks; simpl; [by intros [= <-]|].
  destruct (group_key li g.1) as [e|k]; [by destruct (keyed li gs)|].
  destruct (keyed li gs) as [e|ks']; [done|]. intros [= <-]. simpl.
  f_equal. by apply IH.
Qed.

Lemma sorted_insert_perm {A} (x : Z * A) l : sorted_insert x l ≡ₚ x :: l.
Proof.
  induction l as [|y l IH]; simpl; [done|].
  destruct (x.1 <=? y.1); [done|]. rewrite IH. apply Permutation_swap.
Qed.

Lemma sorted_perm {A} (l : list (Z * A)) : sorted l ≡ₚ l.
Proof.
  unfold sorted. induction l as [|x l IH]; simpl; [done|].
  by rewrite sorted_insert_perm, IH.
Qed.

Lemma concat_fmap_bind {A C} (f : A -> list C) (l : list A) : concat (f <$> l) = l ≫= f.
Proof. induction l as [|x l IH]; [done|]. simpl. f_equal. exact IH. Qed.

Lemma concat_snd_perm (l1 l2 : list (option string * list nat)) :
  l1 ≡ₚ l2 -> concat (l1.*2) ≡ₚ concat (l2.*2).
Proof. intros H. rewrite !concat_fmap_bind. by rewrite H. Qed.

Lemma prepare_round_ok r round c c' :
  prepare_round r round c = (c', inr ()) ->
  golden c' = golden c /\ layers_info c' = layers_info c
  /\ orounds c' = orounds c ++ [optimized (layers_info c) round]
  /\ rgroups c'
     = group_append (rgroups c) (early_name (optimized (layers_info c) round)) r
  /\ performance c' = performance c ++ [new_stats].
Proof.
  intros H. unfold prepare_round in H.
  apply bind_ok_inv in H as (c0 & c1 & Hget & H).
  unfold get in Hget. injection Hget as <- <-.
  apply bind_ok_inv in H as (c1 & [] & Hmod1 & H).
  unfold modify in Hmod1. injection Hmod1 as <-.
  apply bind_ok_inv in H as (c2 & [] & Hmod2 & H).
  unfold modify in Hmod2. injection Hmod2 as <-.
  apply bind_ok_inv in H as (c3 & [] & Hnet & H).
  unfold modify in H. injection H as <-.
  match type of Hnet with
  | _perturb_net ?o ?cc = _ => pose proof (_perturb_net_frame o cc) as Hframe
  end.
  rewrite Hnet in Hframe. simpl in Hframe.
  destruct Hframe as (Hg & _ & Hli & _ & _ & Ho & Hrg & Hp).
  destruct c3, c; simpl in *. by subst.
Qed.

Lemma prepare_rounds_ok rs : forall r c c',
  prepare_rounds r rs c = (c', inr ()) ->
  golden c' = golden c /\ layers_info c' = layers_info c
  /\ orounds c' = orounds c ++ (optimized (layers_info c) <$> rs)
  /\ performance c' = performance c ++ replicate (length rs) new_stats
  /\ concat ((rgroups c').*2) ≡ₚ concat ((rgroups c).*2) ++ seq r (length rs).
Proof.
  induction rs as [|round rs IH]; intros r c c' H.
  { apply ret_ok_inv in H as [-> _]. by rewrite !app_nil_r. }
  cbn [prepare_rounds] in H. apply bind_ok_inv in H as (c1 & [] & Hround & H).
  apply prepare_round_ok in Hround as (Hg & Hli & Ho & Hrg & Hp).
  apply IH in H as (Hg' & Hli' & Ho' & Hp' & Hrg').
  split; [congruence|]. split; [congruence|]. split; [|split].
  - rewrite Ho', Ho, Hli. by rewrite <- app_assoc.
  - rewrite Hp', Hp. by rewrite <- app_assoc.
  - rewrite Hrg', Hrg, group_append_concat. by rewrite <- app_assoc.
Qed.

Lemma _pre_run_ok c c1 :
  _pre_run c = (c1, inr ()) ->
  let rs := match rounds c with [] => [ [] ] | _ => rounds c end in
  golden c1 = golden c /\ layers_info c1 = layers_info c
  /\ orounds c1 = optimized (layers_info c) <$> rs
  /\ performance c1 = replicate (length rs) new_stats
  /\ concat ((rgroups c1).*2) ≡ₚ seq 0 (length rs).
Proof.
  intros H rs. unfold _pre_run in H.
  do 7 (unfold bind at 1 in H; unfold modify at 1 in H; cbv beta iota in H).
  set (c0 := match rounds c with [] => set_rounds c [ [] ] | _ => c end) in H.
  assert (Hc0 : golden c0 = golden c /\ layers_info c0 = layers_info c /\ rounds c0 = rs).
  { subst c0 rs. destruct (rounds c) eqn:E; [by destruct c|by rewrite E]. }
  clearbody c0. destruct Hc0 as (Hg0 & Hli0 & Hrs0).
  apply bind_ok_inv in H as (cA & cB & Hget & H).
  unfold get in Hget. injection Hget as <- <-.
  apply bind_ok_inv in H as (c2 & [] & Hprep & H).
  apply bind_ok_inv in H as (c3 & c4 & Hget & H).
  unfold get in Hget. injection Hget as <- <-.
  apply bind_ok_inv in H as (c3 & ks & Hkeyed & H).
  apply lift_ok_inv in Hkeyed as [-> Hkeyed].
  unfold modify in H. injection H as <-.
  apply prepare_rounds_ok in Hprep as (Hg & Hli & Ho & Hp & Hrg).
  assert (Hfinal : golden (set_rgroups (sorted ks).*2 c2) = golden c2
                   /\ layers_info (set_rgroups (sorted ks).*2 c2) = layers_info c2
                   /\ orounds (set_rgroups (sorted ks).*2 c2) = orounds c2
                   /\ performance (set_rgroups (sorted ks).*2 c2) = performance c2
                   /\ rgroups (set_rgroups (sorted ks).*2 c2) = (sorted ks).*2)
    by (by destruct c2).
  destruct Hfinal as (-> & -> & -> & -> & ->).
  rewrite Hg, Hli, Ho, Hp.
  rewrite (concat_snd_perm ((sorted ks).*2) (rgroups c2))
    by (rewrite <- (keyed_snd _ _ _ Hkeyed); by rewrite sorted_perm).
  rewrite Hrg. destruct c0; simpl in *. subst. by rewrite Hli0.
Qed.

(** ** An empty round *)

Lemma output_layer_ok_inv c c' n : output_layer c = (c', inr n) -> c' = c.
Proof.
  unfold output_layer. intros H. apply bind_ok_inv in H as (c0 & c1 & Hget & H).
  unfold get in Hget. injection Hget as <- <-. by apply lift_ok_inv in H as [-> _].
Qed.

Lemma golden_output_same c c' input :
  golden c' = golden c -> layers_info c' = layers_info c ->
  golden_output c' input = golden_output c input.
Proof.
  intros Hg Hli. rewrite !golden_output_layers. unfold golden_layers. by rewrite Hg, Hli.
Qed.

Lemma golden_stats_same c c' test_loader error :
  golden c' = golden c -> layers_info c' = layers_info c ->
  foldl (fun st '(input, target, label) =>
           advance st (golden_output c' input) target label error) new_stats test_loader
  = golden_stats c test_loader error.
Proof.
  intros Hg Hli. unfold golden_stats. apply foldl_pointwise.
  intros st [[i t] l]. by rewrite (golden_output_same c c').
Qed.

(** C3: in the evaluation of several rounds ([_pre_run] followed by
    [_evaluate_optimized]), a round without faults takes, on every batch, the
    last of the golden activations stored for the batch as its output, and
    leaves the campaign, hence the faulty network, as it finds it; when the
    evaluation returns, the statistics of the round are those of the golden
    network evaluated on the same batches. *)
Theorem empty_round_statistics_are_golden c c1 c2 test_loader error r :
  rounds c !! r = Some [] ->
  _pre_run c = (c1, inr ()) ->
  _evaluate_optimized test_loader error c1 = (c2, inr ()) ->
  (forall out_name input, exists golden_spikes,
      store_golden input c1 = (c1, inr golden_spikes)
      /\ last golden_spikes = Some (golden_output c input)
      /\ forall c', orounds c' = orounds c1 -> r_idx c' = r ->
           round_output out_name golden_spikes c'
           = (c', inr (golden_spikes, golden_output c input)))
  /\ performance c2 !! r = Some (golden_stats c test_loader error).
Proof.
  intros Hr Hpre Heval.
  apply _pre_run_ok in Hpre as (Hg & Hli & Ho & Hp & Hrg).
  assert (Hrs : match rounds c with [] => [ [] ] | _ => rounds c end = rounds c).
  { destruct (rounds c); [by rewrite lookup_nil in Hr|done]. }
  rewrite Hrs in Ho, Hp, Hrg.
  assert (Hlt : (r < length (rounds c))%nat) by (by eapply lookup_lt_Some).
  assert (Hor : orounds c1 !! r = Some (optimized (layers_info c) [])).
  { rewrite Ho, list_lookup_fmap. unfold FaultRound in *. by rewrite Hr. }
  assert (Hempty : round_bool (oround (optimized (layers_info c) [])) = false).
  { by rewrite oround_optimized. }
  split.
  - intros out_name input. eexists. split; [apply store_golden_eq|].
    assert (Hlast : last (cached c1 input (length (order (layers_info c1))))
                    = Some (golden_output c input)).
    { rewrite cached_last. f_equal. by apply golden_output_same. }
    split; [done|]. intros c' Ho' Hr'.
    apply (round_output_empty _ _ _ (optimized (layers_info c) [])); [|done|done].
    by rewrite Ho', Hr'.
  - unfold _evaluate_optimized in Heval.
    apply bind_ok_inv in Heval as (c0 & out_name & Hout & Heval).
    apply output_layer_ok_inv in Hout as ->.
    assert (Hnd : NoDup (concat ((rgroups c1).*2))).
    { rewrite Hrg. apply NoDup_seq. }
    assert (Hin : r ∈ concat ((rgroups c1).*2)).
    { rewrite Hrg. apply elem_of_seq. split; [lia|exact Hlt]. }
    assert (Hwf : orounds_wf c1).
    { intros o e Hin' He. rewrite Ho in Hin'.
      apply list_elem_of_fmap in Hin' as (round & -> & _).
      rewrite Hli. by eapply optimized_early. }
    assert (Hstats : performance c1 !! r = Some new_stats).
    { rewrite Hp. by apply lookup_replicate_2. }
    destruct (evaluate_batches_ok out_name error r _ test_loader Hempty c1 c2 new_stats
                Heval Hnd Hin Hwf Hor Hstats) as [_ ->].
    f_equal. by apply golden_stats_same.
Qed.

(** ** run and the rounds *)

Lemma bind_modify {A} (f : Campaign -> Campaign) (k : unit -> M A) c :
  bind (modify f) k c = k () (f c).
Proof. done. Qed.

Lemma _pre_run_without_round c :
  rounds c = [] -> _pre_run c = _pre_run (set_rounds c [ [] ]).
Proof.
  intros H. unfold _pre_run.
  rewrite (bind_modify _ _ c), (bind_modify _ _ (set_rounds c [ [] ])).
  rewrite H. by replace (rounds (set_rounds c [ [] ])) with [ [] : FaultRound ]
    by (by destruct c).
Qed.

(** X10: [run] does not touch the rounds, whether it returns or raises;
    only a campaign without round gets the empty baseline round. *)
Theorem run_leaves_the_rounds test_loader error c :
  rounds (run test_loader error c).1 = at_least_one (rounds c).
Proof.
  destruct (rounds c) as [|r rs] eqn:Hr.
  - replace (run test_loader error c) with (run test_loader error (set_rounds c [ [] ])).
    + pose proof (run_rounds_kept test_loader error (set_rounds c [ [] ])) as H.
      unfold rounds_kept in H. rewrite H by (by destruct c). by destruct c.
    + unfold run. unfold bind at 1 3. by rewrite <- _pre_run_without_round.
  - pose proof (run_rounds_kept test_loader error c) as H.
    unfold rounds_kept in H. rewrite H by (by rewrite Hr). by rewrite Hr.
Qed.

(** ** What _pre_run derives from the rounds *)

#[local] Instance net_kept_refl : Reflexive net_kept.
Proof. by intros c. Qed.
#[local] Instance net_kept_trans : Transitive net_kept.
Proof. unfold net_kept. intros c1 c2 c3 [H1 H2] [H3 H4]. split; congruence. Qed.

Lemma register_net_kept m p fn : keeps net_kept (register m p fn).
Proof.
  intros c. unfold register, bind, the_faulty, get, modify, ret.
  destruct (faulty c) eqn:Hf; simpl; [|done]. by destruct c.
Qed.

Ltac net_kept_step :=
  lazymatch goal with
  | |- keeps net_kept (register _ _ _) => apply register_net_kept
  | |- keeps net_kept (modify _) =>
      apply keeps_modify;
      let c := fresh "c" in
      intros c; unfold net_kept; destruct c; simpl; done
  | |- _ => keeps_step
  end.

Lemma perturb_layer_net_kept o n : keeps net_kept (perturb_layer o n).
Proof. unfold perturb_layer, handle_at, store_handle. repeat net_kept_step. Qed.

Lemma prepare_rounds_net_kept rs r : keeps net_kept (prepare_rounds r rs).
Proof.
  revert r. induction rs as [|x rs IH]; intros r; simpl; [repeat net_kept_step|].
  apply keeps_bind; [apply _| |intros _; apply IH].
  unfold prepare_round, _perturb_net.
  repeat first [apply perturb_layer_net_kept | net_kept_step].
Qed.

Lemma _pre_run_net c :
  faulty (_pre_run c).1 = Some (golden c) /\ r_idx (_pre_run c).1 = 0%nat.
Proof.
  unfold _pre_run.
  do 7 (unfold bind at 1; unfold modify at 1; cbv beta iota).
  match goal with
  | |- faulty (bind get ?k ?c0).1 = _ /\ _ =>
      assert (Hrest : keeps net_kept (bind get k));
      [|destruct (Hrest c0) as [H1 H2];
        split; [etrans; [exact H1|]|etrans; [exact H2|]]; by destruct c as [? ? ? ? ? ? [|? ?] ? ? ? ? ? ?]]
  end.
  repeat first [apply prepare_rounds_net_kept | net_kept_step].
Qed.

Lemma _pre_run_rounds c : rounds (_pre_run c).1 = at_least_one (rounds c).
Proof.
  destruct (rounds c) as [|r rs] eqn:Hr.
  - rewrite _pre_run_without_round by done.
    pose proof (_pre_run_rounds_kept (set_rounds c [ [] ])) as H.
    unfold rounds_kept in H. rewrite H by (by destruct c). by destruct c.
  - pose proof (_pre_run_rounds_kept c) as H.
    unfold rounds_kept in H. rewrite H by (by rewrite Hr). by rewrite Hr.
Qed.

(** X11: when [_pre_run] returns, the state of the run has been derived
    from the rounds, of which there is at least one: the current round is the
    first, there is one optimized round and one fresh statistics object per
    round, in the order of the rounds, and the faulty network has the weights
    of the golden network, which the installation of the hooks does not
    touch. *)
Theorem _pre_run_derives_the_round_state c c1 :
  _pre_run c = (c1, inr ()) ->
  let rs := at_least_one (rounds c) in
  rounds c1 = rs /\ r_idx c1 = 0%nat
  /\ golden c1 = golden c /\ faulty c1 = Some (golden c)
  /\ orounds c1 = optimized (layers_info c) <$> rs
  /\ performance c1 = replicate (length rs) new_stats.
Proof.
  intros H rs.
  pose proof (_pre_run_rounds c) as Hrounds. pose proof (_pre_run_net c) as [Hf Hr].
  rewrite H in Hrounds, Hf, Hr. simpl in *.
  apply _pre_run_ok in H as (Hg & _ & Ho & Hp & _).
  by repeat split.
Qed.

(** ** The groups of rounds *)

Lemma group_append_keys gs k r :
  (group_append gs k r).*1 = if bool_decide (k ∈ gs.*1) then gs.*1 else gs.*1 ++ [k].
Proof.
  induction gs as [|[k' l] gs IH]; [done|].
  cbn [group_append]. destruct (decide (k = k')) as [->|Hk].
  - rewrite !fmap_cons. cbn [fst].
    by rewrite bool_decide_eq_true_2 by apply list_elem_of_here.
  - rewrite !fmap_cons, IH. cbn [fst]. destruct (bool_decide (k ∈ gs.*1)) eqn:Hin.
    + apply bool_decide_eq_true in Hin.
      by rewrite bool_decide_eq_true_2 by (by right).
    + apply bool_decide_eq_false in Hin.
      rewrite bool_decide_eq_false_2; [done|].
      intros [?|?]%elem_of_cons; congruence.
Qed.

Lemma group_append_NoDup gs k r : NoDup (gs.*1) -> NoDup ((group_append gs k r).*1).
Proof.
  intros H. rewrite group_append_keys. case_bool_decide as Hin; [done|].
  apply NoDup_app. split; [done|]. split; [|apply NoDup_singleton].
  intros x Hx Hx'. apply list_elem_of_singleton in Hx'. by subst.
Qed.

Lemma group_append_elem gs k r k' l' r' :
  (k', l') ∈ group_append gs k r -> r' ∈ l' ->
  (exists l, (k', l) ∈ gs /\ r' ∈ l) \/ (k' = k /\ r' = r).
Proof.
  induction gs as [|[k0 l0] gs IH]; simpl; intros Hin Hr.
  { apply list_elem_of_singleton in Hin. injection Hin as -> ->.
    apply list_elem_of_singleton in Hr. by right. }
  destruct (decide (k = k0)) as [->|Hk].
  - apply elem_of_cons in Hin as [Hin|Hin].
    + injection Hin as -> ->. apply elem_of_app in Hr as [Hr|Hr].
      * left. exists l0. split; [by left|done].
      * apply list_elem_of_singleton in Hr. by right.
    + left. exists l'. split; [by right|done].
  - apply elem_of_cons in Hin as [Hin|Hin].
    + injection Hin as -> ->. left. exists l0. split; [by left|done].
    + destruct (IH Hin Hr) as [(l & Hl & Hr')|?]; [|by right].
      left. exists l. split; [by right|done].
Qed.

Lemma groups_by_earliest_append gs os o :
  groups_by_earliest gs os ->
  groups_by_earliest (group_append gs (early_name o) (length os)) (os ++ [o]).
Proof.
  intros [Hnd Hin]. split; [by apply group_append_NoDup|].
  intros k l r Hkl Hr.
  destruct (group_append_elem _ _ _ _ _ _ Hkl Hr) as [(l0 & Hl0 & Hr0)|[-> ->]].
  - destruct (Hin k l0 r Hl0 Hr0) as (o' & Ho' & Hk). exists o'. split; [|done].
    by apply lookup_app_l_Some.
  - exists o. split; [|done]. by rewrite list_lookup_middle.
Qed.

Lemma prepare_rounds_groups rs : forall r c c',
  prepare_rounds r rs c = (c', inr ()) ->
  length (orounds c) = r -> groups_by_earliest (rgroups c) (orounds c) ->
  groups_by_earliest (rgroups c') (orounds c').
Proof.
  induction rs as [|round rs IH]; intros r c c' H Hlen Hinv.
  { by apply ret_ok_inv in H as [-> _]. }
  cbn [prepare_rounds] in H. apply bind_ok_inv in H as (c1 & [] & Hround & H).
  apply prepare_round_ok in Hround as (_ & _ & Ho & Hrg & _).
  apply (IH (S r) c1 c' H).
  - rewrite Ho, length_app. simpl. lia.
  - rewrite Ho, Hrg, <- Hlen. by apply groups_by_earliest_append.
Qed.

Lemma keyed_keys li gs ks :
  keyed li gs = inr ks -> Forall (fun x => group_key li x.2.1 = inr x.1) ks.
Proof.
  revert ks. induction gs as [|g gs IH]; intros ks; simpl; [by intros [= <-]|].
  destruct (group_key li g.1) as [e|k] eqn:Hk; [by destruct (keyed li gs)|].
  destruct (keyed li gs) as [e|ks']; [done|]. intros [= <-].
  constructor; [done|by apply IH].
Qed.

Lemma sorted_insert_ascending {A} (x : Z * A) l :
  ascending (l.*1) -> ascending ((sorted_insert x l).*1).
Proof.
  induction l as [|y l IH]; [done|]. intros [Hy Hl]. cbn [sorted_insert].
  destruct (x.1 <=? y.1) eqn:Hxy.
  - apply Z.leb_le in Hxy. rewrite !fmap_cons. split; [|by split].
    constructor; [done|]. eapply Forall_impl; [exact Hy|]. intros z Hz. simpl in *. lia.
  - apply Z.leb_gt in Hxy. rewrite fmap_cons. split; [|by apply IH].
    rewrite (sorted_insert_perm x l), fmap_cons. constructor; [lia|done].
Qed.

Lemma sorted_ascending {A} (l : list (Z * A)) : ascending ((sorted l).*1).
Proof.
  unfold sorted. induction l as [|x l IH]; [done|]. by apply sorted_insert_ascending.
Qed.

(** The stages of [_pre_run]. *)
Lemma _pre_run_stages c c1 :
  _pre_run c = (c1, inr ()) ->
  exists c0 c2 ks,
    orounds c0 = [] /\ rgroups c0 = []
    /\ prepare_rounds 0 (rounds c0) c0 = (c2, inr ())
    /\ keyed (layers_info c2) (rgroups c2) = inr ks
    /\ c1 = set_rgroups (sorted ks).*2 c2.
Proof.
  intros H. unfold _pre_run in H.
  do 7 (unfold bind at 1 in H; unfold modify at 1 in H; cbv beta iota in H).
  apply bind_ok_inv in H as (cA & cB & Hget & H).
  unfold get in Hget. injection Hget as <- <-.
  apply bind_ok_inv in H as (c2 & [] & Hprep & H).
  apply bind_ok_inv in H as (c3 & c4 & Hget & H).
  unfold get in Hget. injection Hget as <- <-.
  apply bind_ok_inv in H as (c3 & ks & Hkeyed & H).
  apply lift_ok_inv in Hkeyed as [-> Hkeyed].
  unfold modify in H. injection H as <-.
  eexists _, c2, ks. split; [|split; [|split; [exact Hprep|split; [exact Hkeyed|done]]]].
  - by destruct c as [? ? ? ? ? ? [|? ?] ? ? ? ? ? ?].
  - by destruct c as [? ? ? ? ? ? [|? ?] ? ? ? ? ? ?].
Qed.

Lemma Forall_Forall2_pairs {A C} (P : C -> A -> Prop) (l : list (A * C)) :
  Forall (fun x => P x.2 x.1) l -> Forall2 P (l.*2) (l.*1).
Proof. induction 1; constructor; done. Qed.

(** X12: when [_pre_run] returns, the groups partition the rounds by their
    earliest layer: every round index occurs once, in one group; every round
    listed under a key has that key as the name of its earliest layer ([None]
    for a round that touches no layer); no key occurs twice; and the groups
    are in ascending order of the index of their layer in the network, the
    group of the rounds that touch no layer first. *)
Theorem _pre_run_groups_rounds_by_earliest_layer c c1 :
  _pre_run c = (c1, inr ()) ->
  NoDup ((rgroups c1).*1)
  /\ concat ((rgroups c1).*2) ≡ₚ seq 0 (length (rounds c1))
  /\ (forall k l r, (k, l) ∈ rgroups c1 -> r ∈ l ->
        exists o, orounds c1 !! r = Some o /\ early_name o = k)
  /\ exists keys,
       Forall2 (fun g key => group_key (layers_info c1) g.1 = inr key) (rgroups c1) keys
       /\ ascending keys.
Proof.
  intros H.
  pose proof (_pre_run_rounds c) as Hrounds. rewrite H in Hrounds. simpl in Hrounds.
  pose proof (_pre_run_ok c c1 H) as (_ & _ & _ & _ & Hperm).
  destruct (_pre_run_stages c c1 H) as (c0 & c2 & ks & Ho0 & Hg0 & Hprep & Hkeyed & ->).
  assert (Hinv : groups_by_earliest (rgroups c2) (orounds c2)).
  { apply (prepare_rounds_groups _ _ _ _ Hprep); [by rewrite Ho0|].
    rewrite Hg0, Ho0. split; [constructor|]. by intros k l r ?%elem_of_nil. }
  destruct Hinv as [Hnd Hin].
  assert (Hfields : rgroups (set_rgroups (sorted ks).*2 c2) = (sorted ks).*2
                    /\ orounds (set_rgroups (sorted ks).*2 c2) = orounds c2
                    /\ layers_info (set_rgroups (sorted ks).*2 c2) = layers_info c2)
    by (by destruct c2).
  destruct Hfields as (Hrg & Hor & Hli).
  assert (Hp : (sorted ks).*2 ≡ₚ rgroups c2).
  { rewrite <- (keyed_snd _ _ _ Hkeyed). by rewrite sorted_perm. }
  assert (Hseq : concat ((rgroups (set_rgroups (sorted ks).*2 c2)).*2)
                 ≡ₚ seq 0 (length (rounds (set_rgroups (sorted ks).*2 c2)))).
  { unfold FaultRound in *. rewrite Hrounds. exact Hperm. }
  split; [rewrite Hrg; by rewrite Hp|]. split; [exact Hseq|].
  rewrite Hrg, Hor, Hli. split.
  { intros k l r Hkl Hr. rewrite Hp in Hkl. by eapply Hin. }
  exists ((sorted ks).*1). split; [|apply sorted_ascending].
  apply (Forall_Forall2_pairs (fun g key => group_key (layers_info c2) g.1 = inr key)).
  rewrite sorted_perm. by apply (keyed_keys _ (rgroups c2)).
Qed.

(** ** The hooks are where the rounds want them *)

Section Placed.
Context (li : LayersInfo) (rs : list FaultRound).

#[local] Instance placed_refl : Reflexive (placed li rs).
Proof. by intros c Hli. Qed.
#[local] Instance placed_trans : Transitive (placed li rs).
Proof.
  intros c1 c2 c3 H1 H2 Hli. destruct (H1 Hli) as [Hli2 Hw2].
  destruct (H2 Hli2) as [Hli3 Hw3]. split; [done|auto].
Qed.

Lemma register_placed m p fn :
  (exists r, r ∈ rs /\ hook_wanted li r (mkHookReg m p fn)) ->
  keeps (placed li rs) (register m p fn).
Proof.
  intros Hw c Hli. unfold register, bind, the_faulty, get, modify, ret.
  destruct (faulty c) eqn:Hf; simpl; [|done].
  split; [by destruct c|]. intros H. unfold hooks_wanted_by.
  replace (faulty_hooks (set_faulty (Some n) (faulty_hooks c ++ [mkHookReg m p fn]) c))
    with (faulty_hooks c ++ [mkHookReg m p fn]) by (by destruct c).
  apply Forall_app. split; [exact H|]. by constructor.
Qed.

Lemma keeps_placed_li {A} (k : LayersInfo -> M A) :
  keeps (placed li rs) (k li) ->
  keeps (placed li rs) (bind (bind get (fun c => ret (layers_info c))) k).
Proof. intros H c Hli. unfold bind, get, ret. simpl. rewrite Hli. by apply H. Qed.

End Placed.

Ltac placed_step :=
  lazymatch goal with
  | |- keeps (placed _ _) (modify _) =>
      apply keeps_modify;
      let c := fresh "c" in
      let H := fresh "H" in
      intros c H; unfold hooks_wanted_by; destruct c; simpl in *; by split
  | |- _ => keeps_step
  end.

#[local] Existing Instance placed_refl.
#[local] Existing Instance placed_trans.

Lemma perturb_layer_placed li rs o n :
  oround o ∈ rs -> keeps (placed li rs) (perturb_layer o n).
Proof.
  intros Ho. unfold perturb_layer, handle_at, store_handle.
  apply keeps_bind; [apply _|placed_step|intros _].
  apply keeps_placed_li.
  apply keeps_bind; [apply _| |intros _].
  - destruct (any_neuronal (oround o) n) eqn:Hneu; [|repeat placed_step].
    apply keeps_bind; [apply _|repeat placed_step|intros h_neu].
    apply keeps_bind; [apply _| |intros _].
    + destruct (is_output li n) eqn:Hout; cbn [negb andb]; [repeat placed_step|].
      destruct (negb (bool_decide (is_Some h_neu))); [|repeat placed_step].
      destruct (get_following li n) as [fl|] eqn:Hfl; [|repeat placed_step].
      apply keeps_bind; [apply _| |intros h; placed_step].
      apply register_placed. exists (oround o). split; [done|].
      unfold hook_wanted. simpl. by rewrite Hfl.
    + destruct (any_parametric (oround o) n) eqn:Hpar; [|repeat placed_step].
      apply keeps_bind; [apply _|repeat placed_step|intros _].
      apply keeps_bind; [apply _|repeat placed_step|intros h_par].
      destruct (negb (bool_decide (is_Some h_par))); [|repeat placed_step].
      apply keeps_bind; [apply _| |intros h; placed_step].
      apply register_placed. exists (oround o). by split.
  - apply keeps_bind; [apply _|repeat placed_step|intros h_pre].
    apply keeps_bind; [apply _|repeat placed_step|intros h_post].
    destruct (any_synaptic (oround o) n) eqn:Hsyn; cbn [andb]; [|repeat placed_step].
    destruct (negb _); [|repeat placed_step].
    apply keeps_bind; [apply _| |intros h].
    { apply register_placed. exists (oround o). by split. }
    apply keeps_bind; [apply _|placed_step|intros _].
    apply keeps_bind; [apply _| |intros h'; placed_step].
    apply register_placed. exists (oround o). by split.
Qed.

Lemma prepare_rounds_placed li rs rs' : forall r,
  (forall x, x ∈ rs' -> x ∈ rs) -> keeps (placed li rs) (prepare_rounds r rs').
Proof.
  induction rs' as [|round rs' IH]; intros r Hsub; simpl; [repeat placed_step|].
  apply keeps_bind; [apply _| |intros _; apply IH; intros x Hx; apply Hsub; by right].
  unfold prepare_round, _perturb_net.
  apply keeps_bind; [apply _|repeat placed_step|intros c0]. cbv zeta.
  apply keeps_bind; [apply _|placed_step|intros _].
  apply keeps_bind; [apply _|placed_step|intros _].
  apply keeps_bind; [apply _| |intros _; placed_step].
  apply keeps_bind; [apply _|repeat placed_step|intros c1].
  apply keeps_for_each; [apply _|apply _|]. intros n. apply perturb_layer_placed.
  rewrite oround_optimized. apply Hsub. by left.
Qed.

Lemma _pre_run_placed c : hooks_wanted_by (layers_info c) (at_least_one (rounds c)) (_pre_run c).1.
Proof.
  unfold _pre_run.
  do 7 (unfold bind at 1; unfold modify at 1; cbv beta iota).
  unfold bind at 1, get at 1. cbv beta iota.
  match goal with
  | |- hooks_wanted_by _ _ (bind (prepare_rounds 0 (rounds ?c0)) ?k ?c0).1 =>
      assert (Hrounds : rounds c0 = at_least_one (rounds c))
        by (by destruct c as [? ? ? ? ? ? [|? ?] ? ? ? ? ? ?]);
      assert (Hli : layers_info c0 = layers_info c)
        by (by destruct c as [? ? ? ? ? ? [|? ?] ? ? ? ? ? ?]);
      assert (Hnone : faulty_hooks c0 = [])
        by (by destruct c as [? ? ? ? ? ? [|? ?] ? ? ? ? ? ?]);
      assert (Hrest : keeps (placed (layers_info c) (at_least_one (rounds c)))
                        (bind (prepare_rounds 0 (rounds c0)) k));
      [|apply (Hrest c0 Hli); unfold hooks_wanted_by; rewrite Hnone; constructor]
  end.
  apply keeps_bind; [apply _| |intros _; repeat placed_step].
  apply prepare_rounds_placed. intros x Hx. by rewrite <- Hrounds.
Qed.

(** X13: no hook is installed that no round asks for, and every hook is on
    the module its kind belongs to.  Whatever the outcome of [_pre_run], for
    every hook registered on the faulty network there is a round with faults
    of that kind in the layer the hook serves: a neuronal pre-hook sits on
    the layer that follows the one it serves, which is not the output layer;
    a parametric hook and the two synaptic hooks sit on the layer itself, the
    synaptic pre-hook before the forward pass, the other two after it.  With
    only empty rounds no hook is installed at all. *)
Theorem _pre_run_installs_only_wanted_hooks c :
  (forall h, h ∈ faulty_hooks (_pre_run c).1 ->
     exists r, r ∈ at_least_one (rounds c) /\ hook_wanted (layers_info c) r h)
  /\ (Forall (fun r => r = []) (rounds c) -> faulty_hooks (_pre_run c).1 = []).
Proof.
  pose proof (_pre_run_placed c) as H. unfold hooks_wanted_by in H.
  rewrite Forall_forall in H. split; [exact H|].
  intros Hempty. destruct (faulty_hooks (_pre_run c).1) as [|h hs] eqn:Hh; [done|].
  destruct (H h ltac:(by left)) as (r & Hr & Hw).
  assert (Hnil : r = []).
  { destruct (rounds c) as [|r0 rs0]; simpl in Hr.
    - by apply list_elem_of_singleton in Hr.
    - rewrite Forall_forall in Hempty. by apply Hempty. }
  subst r. unfold hook_wanted in Hw.
  destruct (hook_fn h);
    [destruct Hw as (_ & _ & _ & Hw)|destruct Hw as (_ & _ & Hw)
    |destruct Hw as (_ & _ & Hw)|destruct Hw as (_ & _ & Hw)];
    discriminate Hw.
Qed.

(** ** forward_opt on the golden network *)

(** The golden network hands its input back as it received it. *)
Lemma forward_layers_golden_input c first layers x y :
  (first = true -> y = x) ->
  forward_layers (layers_info c) golden_call first layers x y c
  = (c, inr (x, golden_layers c layers y)).
Proof.
  revert first x y. induction layers as [|n ns IH]; intros first x y Hfirst; simpl.
  { done. }
  unfold bind at 1, golden_call at 1. simpl.
  rewrite IH by done. destruct first; [by rewrite Hfirst|done].
Qed.

Lemma golden_forward_layers c x s e :
  golden_forward x s e c
  = (c, inr (x, golden_layers c
                  (subject_layers (layers_info c) (default 0 s)
                     (default (Z.of_nat (length (order (layers_info c))) - 1) e)) x)).
Proof.
  unfold golden_forward, forward_opt. unfold bind, get.
  by apply forward_layers_golden_input.
Qed.

Lemma select_from_split a b e k l :
  a <= b + 1 -> b <= e ->
  select_from a e k l = select_from a b k l ++ select_from (b + 1) e k l.
Proof.
  intros Hab Hbe. revert k. induction l as [|n l IH]; intros k; [done|].
  rewrite !select_from_cons, IH.
  destruct (decide (Z.of_nat k < a)) as [H1|H1].
  { replace (a <=? Z.of_nat k) with false by (symmetry; apply Z.leb_gt; lia).
    replace (b + 1 <=? Z.of_nat k) with false by (symmetry; apply Z.leb_gt; lia).
    done. }
  replace (a <=? Z.of_nat k) with true by (symmetry; apply Z.leb_le; lia).
  destruct (decide (Z.of_nat k <= b)) as [H2|H2].
  { replace (Z.of_nat k <=? b) with true by (symmetry; apply Z.leb_le; lia).
    replace (Z.of_nat k <=? e) with true by (symmetry; apply Z.leb_le; lia).
    replace (b + 1 <=? Z.of_nat k) with false by (symmetry; apply Z.leb_gt; lia).
    done. }
  replace (Z.of_nat k <=? b) with false by (symmetry; apply Z.leb_gt; lia).
  replace (b + 1 <=? Z.of_nat k) with true by (symmetry; apply Z.leb_le; lia).
  rewrite (select_from_none a b (S k)) by lia. simpl.
  by destruct (Z.of_nat k <=? e).
Qed.

Lemma golden_layers_app c l1 l2 x :
  golden_layers c (l1 ++ l2) x = golden_layers c l2 (golden_layers c l1 x).
Proof. unfold golden_layers. by rewrite foldl_app. Qed.

(** X7: the golden network can be evaluated in pieces.  With explicit layer
    indices, the stages [a..e] give what the stages [b+1..e] give on the
    output of the stages [a..b]; every call returns, hands its input back
    unchanged and leaves the campaign as it is. *)
Theorem golden_forward_composes c x a b e :
  a <= b + 1 -> b <= e ->
  exists y1 y,
    golden_forward x (Some a) (Some b) c = (c, inr (x, y1))
    /\ golden_forward y1 (Some (b + 1)) (Some e) c = (c, inr (y1, y))
    /\ golden_forward x (Some a) (Some e) c = (c, inr (x, y)).
Proof.
  intros Hab Hbe.
  exists (golden_layers c (subject_layers (layers_info c) a b) x),
         (golden_layers c (subject_layers (layers_info c) a e) x).
  rewrite !golden_forward_layers. cbn [default from_option id].
  split; [reflexivity|]. split; [|reflexivity].
  rewrite !subject_layers_select, (select_from_split a b e) by done.
  by rewrite golden_layers_app.
Qed.

(** ** forward_opt on an empty range *)




(** ** The golden activations of a batch *)

Lemma take_select k l : (k <= length l)%nat ->
  select_from 0 (Z.of_nat k - 1) 0 l = take k l.
Proof.
  intros Hk. rewrite <- (take_drop k l) at 1.
  assert (Hgen : forall j l1 l2, select_from 0 (Z.of_nat (j + length l1) - 1) j (l1 ++ l2) = l1).
  { intros j l1. revert j. induction l1 as [|n l1 IH]; intros j l2; simpl.
    - apply select_from_none. lia.
    - rewrite select_from_cons.
      replace (0 <=? Z.of_nat j) with true by (symmetry; apply Z.leb_le; lia).
      replace (Z.of_nat j <=? Z.of_nat (j + S (length l1)) - 1) with true
        by (symmetry; apply Z.leb_le; lia).
      simpl. f_equal. replace (j + S (length l1))%nat with (S j + length l1)%nat by lia.
      apply IH. }
  specialize (Hgen 0%nat (take k l) (drop k l)).
  rewrite length_take, Nat.min_l in Hgen by lia. exact Hgen.
Qed.

(** X9: the loop that stores the golden activations of a batch never
    raises and leaves the campaign as it is.  It returns one tensor more
    than there are layers: the input first, then, at index [k + 1], what the
    golden network computes from the input through the stages [0..k]; the
    last one is the output of the golden network. *)
Theorem store_golden_caches_every_stage c input :
  exists golden_spikes,
    store_golden input c = (c, inr golden_spikes)
    /\ length golden_spikes = S (length (order (layers_info c)))
    /\ golden_spikes !! 0%nat = Some input
    /\ (forall k, (k < length (order (layers_info c)))%nat ->
          exists y, golden_spikes !! S k = Some y
                    /\ golden_forward input (Some 0) (Some (Z.of_nat k)) c
                       = (c, inr (input, y)))
    /\ last golden_spikes = Some (golden_output c input).
Proof.
  exists (cached c input (length (order (layers_info c)))).
  split; [apply store_golden_eq|]. split; [apply cached_length|].
  split; [by rewrite cached_lookup by lia|]. split; [|apply cached_last].
  intros k Hk. eexists. split; [apply cached_lookup; lia|].
  rewrite golden_forward_layers. cbn [default from_option id].
  rewrite subject_layers_select, <- (take_select (S k)) by lia.
  by replace (Z.of_nat (S k) - 1) with (Z.of_nat k) by lia.
Qed.

(** ** A faulty network without hooks *)

Lemma faulty_call_unhooked c net m t :
  faulty c = Some net -> faulty_hooks c = [] ->
  faulty_call m t c = (c, inr (t, layer_forward m (net m) t)).
Proof.
  intros Hf Hh. unfold faulty_call, bind, get, the_faulty, hooks_on.
  rewrite Hh. simpl. rewrite Hf. simpl. by rewrite Hh.
Qed.

Lemma forward_layers_unhooked c first layers x y :
  faulty c = Some (golden c) -> faulty_hooks c = [] ->
  (first = true -> y = x) ->
  forward_layers (layers_info c) faulty_call first layers x y c
  = (c, inr (x, golden_layers c layers y)).
Proof.
  intros Hf Hh. revert first x y.
  induction layers as [|n ns IH]; intros first x y Hfirst; simpl; [done|].
  unfold bind at 1. rewrite (faulty_call_unhooked c (golden c)) by done. simpl.
  rewrite IH by done. destruct first; [by rewrite Hfirst|done].
Qed.

Lemma faulty_forward_unhooked c x s e :
  faulty c = Some (golden c) -> faulty_hooks c = [] ->
  faulty_forward x s e c = golden_forward x s e c.
Proof.
  intros Hf Hh. rewrite golden_forward_layers.
  unfold faulty_forward, forward_opt, the_faulty, bind, get. rewrite Hf.
  by apply forward_layers_unhooked.
Qed.

(** ** The installation of the hooks for a round without faults *)

Lemma set_handles_twice h1 h2 (c : Campaign) :
  set_handles h2 (set_handles h1 c) = set_handles h2 c.
Proof. by destruct c. Qed.

Lemma perturb_layer_empty o n c :
  oround o = [] ->
  perturb_layer o n c = (set_handles (<[n := layer_slots c n]> (handles c)) c, inr ()).
Proof. intros Ho. unfold perturb_layer. rewrite Ho. reflexivity. Qed.

Lemma for_each_perturb_layer_empty o l c h :
  oround o = [] ->
  exists h', for_each l (perturb_layer o) (set_handles h c) = (set_handles h' c, inr ()).
Proof.
  intros Ho. revert h. induction l as [|n l IH]; intros h; simpl; [by exists h|].
  unfold bind. rewrite perturb_layer_empty by done. rewrite set_handles_twice. apply IH.
Qed.

Lemma _perturb_net_empty o c :
  oround o = [] -> exists h, _perturb_net o c = (set_handles h c, inr ()).
Proof.
  intros Ho. unfold _perturb_net. unfold bind at 1, get. cbv beta iota.
  destruct (for_each_perturb_layer_empty o (get_injectables (layers_info c)) c (handles c) Ho)
    as [h' Hh'].
  exists h'. rewrite <- Hh'. f_equal. by destruct c.
Qed.

Lemma prepare_round_empty r c :
  exists h,
    prepare_round r [] c
    = (set_performance (performance c ++ [new_stats])
         (set_handles h
            (set_rgroups (group_append (rgroups c) None r)
               (set_orounds (orounds c ++ [mkORound [] None None None false]) c))),
       inr ()).
Proof.
  unfold prepare_round. unfold bind at 1, get at 1. cbv beta iota zeta.
  change (optimized (layers_info c) []) with (mkORound [] None None None false).
  do 2 (unfold bind at 1; unfold modify at 1; cbv beta iota).
  unfold bind at 1.
  match goal with
  | |- context [_perturb_net ?o ?c1] =>
      destruct (_perturb_net_empty o c1 eq_refl) as [h ->]
  end.
  exists h. unfold modify. cbv beta iota. by destruct c.
Qed.

Lemma _pre_run_baseline c :
  at_least_one (rounds c) = [ [] ] ->
  exists h, _pre_run c = (baseline_ready c h, inr ()).
Proof.
  intros Hr. unfold _pre_run.
  do 7 (unfold bind at 1; unfold modify at 1; cbv beta iota).
  unfold bind at 1, get at 1. cbv beta iota.
  match goal with
  | |- exists h, bind (prepare_rounds 0 (rounds ?c0)) ?k ?c0 = _ =>
      assert (Hc0 : c0 = mkCampaign (golden c) (Some (golden c)) [] (slayer_neuron c)
                           (layers_info c) 0 [ [] ] [] [] ∅ [] (originals c) (model_args c));
      [|rewrite Hc0]
  end.
  { destruct c as [? ? ? ? ? ? [|r0 rs0] ? ? ? ? ? ?]; simpl in *; [done|].
    by injection Hr as -> ->. }
  cbn [rounds prepare_rounds]. unfold bind at 1. unfold bind at 1.
  destruct (prepare_round_empty 0
              (mkCampaign (golden c) (Some (golden c)) [] (slayer_neuron c)
                 (layers_info c) 0 [ [] ] [] [] ∅ [] (originals c) (model_args c)))
    as [h ->].
  exists h. reflexivity.
Qed.

(** ** A run with the baseline round only *)

Lemma golden_forward_output c x : golden_forward x None None c = (c, inr (x, golden_output c x)).
Proof.
  rewrite golden_forward_layers, golden_output_layers. cbn [default from_option id].
  rewrite subject_layers_select, select_from_all; [done|lia|simpl; lia].
Qed.

Lemma set_performance_twice p1 p2 (c : Campaign) :
  set_performance p2 (set_performance p1 c) = set_performance p2 c.
Proof. by destruct c. Qed.

Lemma evaluate_single_loop error test_loader : forall c st,
  faulty c = Some (golden c) -> faulty_hooks c = [] -> r_idx c = 0%nat ->
  performance c = [st] ->
  for_each test_loader (fun '(input, target, label) =>
    r <~ faulty_forward input None None ;;
    output <~ ret (snd r) ;;
    _advance_performance output target label error) c
  = (set_performance
       [foldl (fun s '(input, target, label) =>
                 advance s (golden_output c input) target label error) st test_loader] c,
     inr ()).
Proof.
  induction test_loader as [|[[input target] label] bs IH]; intros c st Hf Hh Hr Hp.
  { simpl. unfold ret. f_equal. destruct c; simpl in *. by subst. }
  cbn [for_each foldl]. unfold bind at 1. unfold bind at 1.
  rewrite faulty_forward_unhooked, golden_forward_output by done. cbv beta iota.
  unfold bind at 1, ret at 1. cbv beta iota. cbn [snd].
  unfold _advance_performance. unfold bind at 1, get at 1. cbv beta iota.
  rewrite Hr, Hp. cbn [lookup list_lookup]. unfold modify. cbv beta iota.
  cbn [insert list_insert].
  rewrite (IH _ (advance st (golden_output c input) target label error));
    try (by destruct c).
  rewrite set_performance_twice. do 3 f_equal.
  apply foldl_pointwise. intros s [[i t] l]. f_equal.
  apply golden_output_same; by destruct c.
Qed.

(** X14: a campaign that holds the empty baseline round only gives the
    statistics of the golden network.  On a network with at least one layer
    [run] returns, by the path for a single round: no hook is installed, the
    faulty network computes what the golden network computes on every batch,
    and the one statistics object is that of the golden network evaluated on
    the batches, updated. *)
Theorem run_baseline_only_gives_golden_statistics c test_loader error :
  at_least_one (rounds c) = [ [] ] -> order (layers_info c) <> [] ->
  exists c',
    run test_loader error c = (c', inr ())
    /\ rounds c' = [ [] ] /\ faulty_hooks c' = []
    /\ performance c' = [stats_update (golden_stats c test_loader error)].
Proof.
  intros Hr Horder. unfold run. unfold bind at 1.
  destruct (_pre_run_baseline c Hr) as [h ->].
  unfold bind at 1, get at 1. cbv beta iota. cbn [rounds baseline_ready length Nat.leb].
  unfold bind at 1. unfold _evaluate_single.
  unfold bind at 1, current_oround at 1. cbn [orounds r_idx baseline_ready lookup list_lookup].
  cbv beta iota.
  destruct (last (order (layers_info c))) as [out_name|] eqn:Hlast;
    [|by apply last_None in Hlast].
  apply py_get_last in Hlast.
  unfold bind at 1, output_layer at 1, bind at 1, get at 1, lift at 1. cbv beta iota.
  cbn [layers_info baseline_ready]. rewrite Hlast. cbv beta iota.
  cbn [is_out_faulty].
  pose proof (evaluate_single_loop error test_loader (baseline_ready c h) new_stats
                eq_refl eq_refl eq_refl eq_refl) as Hloop.
  match type of Hloop with
  | _ = ?rhs =>
      match goal with
      | |- context [for_each test_loader ?body ?c0] =>
          replace (for_each test_loader body c0) with rhs by (symmetry; exact Hloop)
      end
  end.
  eexists. split; [unfold modify; reflexivity|].
  cbn. split; [done|]. split; [done|]. do 2 f_equal.
  unfold golden_stats. apply foldl_pointwise. intros s [[i t] l]. f_equal.
  by apply golden_output_same.
Qed.

(** ** Every round sees every batch once *)

Lemma evaluate_round_counts out target label error gs r c c' gs' :
  evaluate_round out target label error gs r c = (c', inr gs') ->
  static c c'
  /\ exists x, counts c !! r = Some x
               /\ counts c' = <[r := x + num_samples label]> (counts c).
Proof.
  intros H. apply evaluate_round_ok in H as (stats & output & c0 & Hs & _ & Hp & Hst).
  split; [done|]. exists (numSamples stats). unfold counts.
  split; [by rewrite list_lookup_fmap, Hs|].
  by rewrite Hp, list_fmap_insert.
Qed.

Lemma evaluate_rounds_counts out target label error rs :
  NoDup rs ->
  forall gs c c' gs',
    for_fold rs gs (evaluate_round out target label error) c = (c', inr gs') ->
    static c c'
    /\ forall i, counts c' !! i
                 = if bool_decide (i ∈ rs)
                   then (fun x => x + num_samples label) <$> counts c !! i
                   else counts c !! i.
Proof.
  induction 1 as [|r rs Hnotin Hnd IH]; intros gs c c' gs' H.
  { apply ret_ok_inv in H as [-> _]. split; [done|]. intros i.
    by rewrite bool_decide_eq_false_2 by apply not_elem_of_nil. }
  cbn [for_fold] in H. apply bind_ok_inv in H as (c1 & gs1 & Hround & H).
  apply evaluate_round_counts in Hround as (Hst1 & x & Hx & Hc1).
  destruct (IH _ _ _ _ H) as [Hst Hc']. split; [by etrans|].
  intros i. rewrite Hc', Hc1. destruct (decide (i = r)) as [->|Hne].
  - rewrite bool_decide_eq_false_2 by done.
    rewrite bool_decide_eq_true_2 by apply list_elem_of_here.
    rewrite list_lookup_insert_eq by (by eapply lookup_lt_Some). by rewrite Hx.
  - rewrite list_lookup_insert_ne by done.
    destruct (bool_decide (i ∈ rs)) eqn:Hin.
    + apply bool_decide_eq_true in Hin. by rewrite bool_decide_eq_true_2 by (by right).
    + apply bool_decide_eq_false in Hin. rewrite bool_decide_eq_false_2; [done|].
      intros [?|?]%elem_of_cons; congruence.
Qed.

Lemma counts_length c : length (counts c) = length (performance c).
Proof. unfold counts. by rewrite length_fmap. Qed.

Lemma evaluate_batch_counts out error input target label c c' :
  evaluate_batch out error (input, target, label) c = (c', inr ()) ->
  concat ((rgroups c).*2) ≡ₚ seq 0 (length (performance c)) ->
  static c c' /\ counts c' = (fun x => x + num_samples label) <$> counts c.
Proof.
  intros H Hcover. unfold evaluate_batch in H.
  apply bind_ok_inv in H as (c0 & gs & Hgs & H).
  rewrite store_golden_eq in Hgs. injection Hgs as <- <-.
  apply bind_ok_inv in H as (c1 & c2 & Hget & H).
  unfold get in Hget. injection Hget as <- <-.
  apply bind_ok_inv in H as (c1 & gs' & Hloop & H).
  apply ret_ok_inv in H as [-> _].
  rewrite for_fold_concat in Hloop.
  assert (Hnd : NoDup (concat ((rgroups c).*2))) by (rewrite Hcover; apply NoDup_seq).
  destruct (evaluate_rounds_counts _ _ _ _ _ Hnd _ _ _ _ Hloop) as [Hst Hc].
  split; [done|]. apply list_eq. intros i. rewrite Hc, list_lookup_fmap.
  case_bool_decide as Hin; [done|].
  rewrite Hcover in Hin. rewrite elem_of_seq in Hin.
  rewrite lookup_ge_None_2; [done|]. rewrite counts_length. lia.
Qed.

Lemma evaluate_batches_counts out error test_loader : forall c c',
  for_each test_loader (evaluate_batch out error) c = (c', inr ()) ->
  concat ((rgroups c).*2) ≡ₚ seq 0 (length (performance c)) ->
  counts c' = (fun x => samples_from x test_loader) <$> counts c.
Proof.
  induction test_loader as [|[[input target] label] bs IH]; intros c c' H Hcover.
  { apply ret_ok_inv in H as [-> _]. by rewrite list_fmap_id. }
  cbn [for_each] in H. apply bind_ok_inv in H as (c1 & [] & Hbatch & H).
  apply evaluate_batch_counts in Hbatch as [Hst Hc1]; [|done].
  assert (Hlen : length (performance c1) = length (performance c)).
  { by rewrite <- !counts_length, Hc1, length_fmap. }
  rewrite (IH c1 c' H), Hc1, <- list_fmap_compose; [done|].
  destruct Hst as (_ & _ & _ & ->). by rewrite Hlen.
Qed.

Lemma _advance_performance_counts output target label error c c' :
  _advance_performance output target label error c = (c', inr ()) ->
  r_idx c' = r_idx c
  /\ exists x, counts c !! r_idx c = Some x
               /\ counts c' = <[r_idx c := x + num_samples label]> (counts c).
Proof.
  unfold _advance_performance. unfold bind, get. cbv beta iota.
  destruct (performance c !! r_idx c) as [stats|] eqn:Hs; [|done].
  unfold modify. intros [= <-]. split; [by destruct c|].
  exists (numSamples stats). unfold counts. split; [by rewrite list_lookup_fmap, Hs|].
  replace (performance (set_performance _ c))
    with (<[r_idx c := advance stats output target label error]> (performance c))
    by (by destruct c).
  by rewrite list_fmap_insert.
Qed.

Lemma evaluate_single_counts o out_name error test_loader : forall c c',
  for_each test_loader (fun '(input, target, label) =>
    r <~ faulty_forward input None None ;;
    output <~ (if is_out_faulty o then run_neuron_pre_hook out_name (snd r)
               else ret (snd r)) ;;
    _advance_performance output target label error) c = (c', inr ()) ->
  r_idx c' = r_idx c
  /\ forall x, counts c !! r_idx c = Some x ->
       counts c' = <[r_idx c := samples_from x test_loader]> (counts c).
Proof.
  induction test_loader as [|[[input target] label] bs IH]; intros c c' H.
  { apply ret_ok_inv in H as [-> _]. split; [done|]. intros x Hx.
    by rewrite list_insert_id. }
  cbn [for_each] in H. apply bind_ok_inv in H as (c3 & [] & Hbody & H).
  apply bind_ok_inv in Hbody as (c1 & r & Hfwd & Hbody).
  apply bind_ok_inv in Hbody as (c2 & output & Hout & Hadv).
  pose proof (faulty_forward_frame input None None c) as Hf1.
  rewrite Hfwd in Hf1. simpl in Hf1. destruct Hf1 as (_ & _ & _ & Hr1 & _ & _ & _ & Hp1).
  assert (Hf2 : r_idx c2 = r_idx c1 /\ performance c2 = performance c1).
  { destruct (is_out_faulty o).
    - pose proof (run_neuron_pre_hook_frame out_name r.2 c1) as Hf2.
      rewrite Hout in Hf2. simpl in Hf2. by destruct Hf2 as (_ & _ & _ & ? & _ & _ & _ & ?).
    - by apply ret_ok_inv in Hout as [-> _]. }
  destruct Hf2 as [Hr2 Hp2].
  apply _advance_performance_counts in Hadv as (Hr3 & y & Hy & Hc3).
  assert (Hcounts : counts c2 = counts c) by (unfold counts; by rewrite Hp2, Hp1).
  assert (Hridx : r_idx c2 = r_idx c) by congruence.
  rewrite Hcounts, Hridx in Hy, Hc3. rewrite Hridx in Hr3.
  destruct (IH c3 c' H) as [Hr' Hc']. split; [congruence|].
  intros x Hx. rewrite Hx in Hy. injection Hy as <-.
  rewrite (Hc' (x + num_samples label)).
  - rewrite Hr3, Hc3. by rewrite list_insert_insert_eq.
  - rewrite Hr3, Hc3. apply list_lookup_insert_eq. by eapply lookup_lt_Some.
Qed.

(** X15: every round is evaluated on every batch exactly once.  When [run]
    returns, by either path, there is one statistics object per round, each
    the update of counters that have counted exactly the samples of all the
    batches, whatever the faults of the round. *)
Theorem run_evaluates_every_round_on_every_batch c c' test_loader error :
  run test_loader error c = (c', inr ()) ->
  exists perf,
    performance c' = stats_update <$> perf
    /\ length perf = length (at_least_one (rounds c))
    /\ Forall (fun st => numSamples st = total_samples test_loader) perf.
Proof.
  intros H. unfold run in H.
  apply bind_ok_inv in H as (c1 & [] & Hpre & H).
  apply bind_ok_inv in H as (c1' & c1'' & Hget & H).
  unfold get in Hget. injection Hget as <- <-.
  apply bind_ok_inv in H as (c2 & [] & Heval & H).
  unfold modify in H. injection H as <-.
  pose proof (_pre_run_rounds c) as Hrounds. pose proof (_pre_run_net c) as [_ Hridx].
  rewrite Hpre in Hrounds, Hridx. simpl in Hrounds, Hridx.
  apply _pre_run_ok in Hpre as (_ & _ & _ & Hperf & Hcover).
  change (match rounds c with [] => [ [] ] | _ :: _ => rounds c end)
    with (at_least_one (rounds c)) in *.
  set (n := length (at_least_one (rounds c))) in *.
  assert (Hc1 : counts c1 = replicate n 0).
  { unfold counts. rewrite Hperf. by rewrite fmap_replicate. }
  assert (Hc2 : counts c2 = replicate n (total_samples test_loader)).
  { destruct (length (rounds c1) <=? 1)%nat eqn:Hlen.
    - apply Nat.leb_le in Hlen. unfold FaultRound in *. rewrite Hrounds in Hlen.
      assert (Hn : n = 1%nat).
      { subst n. unfold FaultRound in *. destruct (rounds c) as [|? [|? ?]]; simpl in *; lia. }
      unfold _evaluate_single in Heval.
      apply bind_ok_inv in Heval as (c3 & o & Ho & Heval).
      apply current_oround_ok_inv in Ho as [-> _].
      apply bind_ok_inv in Heval as (c3 & out_name & Hout & Heval).
      apply output_layer_ok_inv in Hout as ->.
      apply evaluate_single_counts in Heval as [_ Hcounts].
      rewrite Hridx, Hc1, Hn in Hcounts. rewrite Hn.
      by rewrite (Hcounts 0 eq_refl).
    - unfold _evaluate_optimized in Heval.
      apply bind_ok_inv in Heval as (c3 & out_name & Hout & Heval).
      apply output_layer_ok_inv in Hout as ->.
      apply evaluate_batches_counts in Heval.
      + by rewrite Heval, Hc1, fmap_replicate.
      + rewrite Hperf, length_replicate. exact Hcover. }
  exists (performance c2). split; [by destruct c2|]. split.
  - by rewrite <- counts_length, Hc2, length_replicate.
  - unfold counts in Hc2. apply Forall_forall. intros st Hst.
    assert (Hin : numSamples st ∈ numSamples <$> performance c2)
      by (by apply list_elem_of_fmap_2).
    rewrite Hc2 in Hin. by apply elem_of_replicate in Hin as [-> _].
Qed.

(** ** The sweep of run_complete over synapses and over several layers *)

(** One step of the sweep appends a round that holds the fault of one synapse. *)
Lemma then_inject_step_synapse c g fm lay K C H W p rs :
  is_synaptic fm = true ->
  unsupported_parametric c (synapse_fault fm lay p) = false ->
  lay ∈ get_injectables (layers_info c) ->
  shapes_syn (layers_info c) !! lay = Some (K, C, H, W) ->
  0 <= p.1.1.1 < K -> 0 <= p.1.1.2 < C -> 0 <= p.1.2 < H -> 0 <= p.2 < W ->
  then_inject_step g
    [Fault_new fm (mkFaultSite (Some lay) (Int p.1.1.1, Int p.1.1.2, Int p.1.2, Int p.2))]
    (set_rounds c rs)
  = (set_rounds c (rs ++ [[synapse_fault fm lay p]]), inr g).
Proof.
  intros Hsyn Hsup Hinj Hshape Hk Hl Hm Hn.
  destruct p as [[[k l] m] n]; simpl in *.
  change (Fault_new fm (mkFaultSite (Some lay) (Int k, Int l, Int m, Int n)))
    with (synapse_fault fm lay (k, l, m, n)).
  set (f := synapse_fault fm lay (k, l, m, n)) in *.
  assert (Hval : forall rs', validate (set_rounds c rs') [f] = ([f], inr [f])).
  { intros rs'. simpl.
    rewrite (unsupported_parametric_model c _ f f) by (by destruct c).
    rewrite Hsup. replace (layers_info (set_rounds c rs')) with (layers_info c)
      by (by destruct c).
    simpl. rewrite Hsyn.
    unfold site_valid. simpl.
    rewrite bool_decide_eq_true_2 by done.
    unfold get_shapes. rewrite Hshape. simpl. unfold check_axis. simpl.
    unfold shape_at. simpl.
    assert (Hin : forall d z, 0 <= z < d -> (- d <=? z) && (z <? d) = true).
    { intros d z Hz. apply andb_true_iff; split; [apply Z.leb_le|apply Z.ltb_lt]; lia. }
    by rewrite !Hin by done. }
  unfold then_inject_step, then_inject, inject.
  rewrite set_rounds_twice.
  replace (rounds (set_rounds c rs)) with rs by (by destruct c).
  replace (rounds (set_rounds c (rs ++ [[]]))) with (rs ++ [[]]) by (by destruct c).
  replace (layers_info (set_rounds c (rs ++ [[]]))) with (layers_info c) by (by destruct c).
  unfold FaultRound in *.
  destruct (py_last_append (A:=list Fault) rs []) as [-> ->]. simpl negb. cbv iota.
  assert (Hdr : define_random (layers_info c) g [f] = (g, [f], inr false)) by done.
  rewrite Hdr, Hval. simpl.
  rewrite set_rounds_twice. f_equal. f_equal.
  rewrite list_lookup_middle by done. simpl.
  replace (length rs) with (length rs + 0)%nat by lia.
  by rewrite insert_app_r.
Qed.

Lemma complete_layer_synapses c g fm lay K C H W rs :
  is_synaptic fm = true ->
  unsupported_parametric c (mkFault fm [] []) = false ->
  lay ∈ get_injectables (layers_info c) ->
  shapes_syn (layers_info c) !! lay = Some (K, C, H, W) ->
  complete_layer fm g lay (set_rounds c rs)
  = (set_rounds c (rs ++ ((fun p => [synapse_fault fm lay p]) <$> synapse_coords K C H W)),
     inr g).
Proof.
  intros Hsyn Hsup Hinj Hshape. unfold complete_layer.
  unfold bind at 1. simpl.
  rewrite Hsyn. unfold get_shapes. rewrite Hshape.
  unfold bind at 1. simpl. unfold shape_at. simpl.
  unfold synapse_coords. rewrite fmap_over_bind.
  apply for_fold_appends. intros k rs1 Hk.
  rewrite fmap_over_bind.
  apply for_fold_appends. intros l rs2 Hl.
  rewrite fmap_over_bind.
  apply for_fold_appends. intros m rs3 Hm.
  rewrite fmap_over_bind.
  apply for_fold_appends. intros n rs4 Hn.
  unfold range in *. apply elem_of_seqZ in Hk, Hl, Hm, Hn.
  apply (then_inject_step_synapse c g fm lay K C H W (k, l, m, n)); simpl; try done; try lia.
Qed.

Lemma synapse_coords_length K C H W :
  0 <= K -> 0 <= C -> 0 <= H -> 0 <= W ->
  length (synapse_coords K C H W) = Z.to_nat (K * C * H * W).
Proof.
  intros HK HC HH HW. unfold synapse_coords, range.
  rewrite (length_bind_const _ _ (Z.to_nat C * Z.to_nat H * Z.to_nat W)).
  - rewrite length_seqZ, !Z2Nat.inj_mul by lia. lia.
  - intros k. rewrite (length_bind_const _ _ (Z.to_nat H * Z.to_nat W)).
    + rewrite length_seqZ. lia.
    + intros l. rewrite (length_bind_const _ _ (Z.to_nat W)).
      * by rewrite length_seqZ.
      * intros m. rewrite (length_bind_const _ _ 1%nat); [|done].
        rewrite length_seqZ. lia.
Qed.

Lemma synapse_coords_elem K C H W k l m n :
  (k, l, m, n) ∈ synapse_coords K C H W
  <-> 0 <= k < K /\ 0 <= l < C /\ 0 <= m < H /\ 0 <= n < W.
Proof.
  unfold synapse_coords, range. rewrite list_elem_of_bind. split.
  - intros (k' & Hin & Hk). apply list_elem_of_bind in Hin as (l' & Hin & Hl).
    apply list_elem_of_bind in Hin as (m' & Hin & Hm).
    apply list_elem_of_bind in Hin as (n' & Hin & Hn).
    apply list_elem_of_singleton in Hin. injection Hin as -> -> -> ->.
    apply elem_of_seqZ in Hk, Hl, Hm, Hn. lia.
  - intros (Hk & Hl & Hm & Hn). exists k. split; [|apply elem_of_seqZ; lia].
    apply list_elem_of_bind. exists l. split; [|apply elem_of_seqZ; lia].
    apply list_elem_of_bind. exists m. split; [|apply elem_of_seqZ; lia].
    apply list_elem_of_bind. exists n. split; [|apply elem_of_seqZ; lia].
    by apply list_elem_of_singleton.
Qed.

Lemma synapse_coords_NoDup K C H W : NoDup (synapse_coords K C H W).
Proof.
  unfold synapse_coords, range. apply NoDup_bind; [| |apply NoDup_seqZ].
  - intros k1 k2 p _ _ H1 H2.
    apply list_elem_of_bind in H1 as (l1 & H1 & _), H2 as (l2 & H2 & _).
    apply list_elem_of_bind in H1 as (m1 & H1 & _), H2 as (m2 & H2 & _).
    apply list_elem_of_bind in H1 as (n1 & H1 & _), H2 as (n2 & H2 & _).
    apply list_elem_of_singleton in H1, H2. congruence.
  - intros k _. apply NoDup_bind; [| |apply NoDup_seqZ].
    + intros l1 l2 p _ _ H1 H2.
      apply list_elem_of_bind in H1 as (m1 & H1 & _), H2 as (m2 & H2 & _).
      apply list_elem_of_bind in H1 as (n1 & H1 & _), H2 as (n2 & H2 & _).
      apply list_elem_of_singleton in H1, H2. congruence.
    + intros l _. apply NoDup_bind; [| |apply NoDup_seqZ].
      * intros m1 m2 p _ _ H1 H2.
        apply list_elem_of_bind in H1 as (n1 & H1 & _), H2 as (n2 & H2 & _).
        apply list_elem_of_singleton in H1, H2. congruence.
      * intros m _. apply NoDup_bind; [| |apply NoDup_seqZ].
        -- intros n1 n2 p _ _ H1 H2.
           apply list_elem_of_singleton in H1, H2. congruence.
        -- intros n _. apply NoDup_singleton.
Qed.

(** The sweep of one injectable layer appends the rounds of that layer. *)
Lemma complete_layer_sweep c g fm lay rs :
  unsupported_parametric c (mkFault fm [] []) = false ->
  positive_shapes (layers_info c) = true ->
  lay ∈ get_injectables (layers_info c) ->
  complete_layer fm g lay (set_rounds c rs)
  = (set_rounds c (rs ++ layer_sweep (layers_info c) fm lay), inr g).
Proof.
  intros Hsup Hpos Hinj. unfold layer_sweep.
  destruct (is_synaptic fm) eqn:Hsyn.
  - destruct (positive_shapes_syn _ _ Hpos Hinj) as (K & C & H & W & Hs & _).
    rewrite Hs. by apply complete_layer_synapses.
  - destruct (positive_shapes_neu _ _ Hpos Hinj) as (C & H & W & Hs & _).
    rewrite Hs. by apply complete_layer_neurons.
Qed.

Lemma layer_sweep_length li fm lay :
  positive_shapes li = true -> lay ∈ get_injectables li ->
  Z.of_nat (length (layer_sweep li fm lay)) = layer_sites li (is_synaptic fm) lay
  /\ 0 < layer_sites li (is_synaptic fm) lay.
Proof.
  intros Hpos Hinj. unfold layer_sweep, layer_sites.
  destruct (is_synaptic fm).
  - destruct (positive_shapes_syn _ _ Hpos Hinj) as (K & C & H & W & -> & ? & ? & ? & ?).
    rewrite length_fmap, synapse_coords_length by lia. split; [|nia]. rewrite Z2Nat.id; nia.
  - destruct (positive_shapes_neu _ _ Hpos Hinj) as (C & H & W & -> & ? & ? & ?).
    rewrite length_fmap, neuron_coords_length by lia. split; [|nia]. rewrite Z2Nat.id; nia.
Qed.

Lemma swept_layers_injectable li layer_names lay :
  lay ∈ swept_layers li layer_names -> lay ∈ get_injectables li.
Proof.
  unfold swept_layers. destruct layer_names as [[|n names]|]; try done.
  intros H. by apply list_elem_of_filter in H as [H _].
Qed.

Lemma sweep_length li fm lays :
  positive_shapes li = true ->
  (forall lay, lay ∈ lays -> lay ∈ get_injectables li) ->
  Z.of_nat (length (lays ≫= layer_sweep li fm))
  = foldr Z.add 0 (layer_sites li (is_synaptic fm) <$> lays)
  /\ (lays <> [] -> lays ≫= layer_sweep li fm <> []).
Proof.
  intros Hpos. induction lays as [|lay lays IH]; intros Hin; [done|].
  destruct (layer_sweep_length li fm lay Hpos) as [Hlen Hp]; [apply Hin; by left|].
  destruct IH as [IH _]; [intros x Hx; apply Hin; by right|].
  rewrite bind_cons, length_app, fmap_cons. cbn [foldr]. split; [lia|].
  intros _ Hnil. apply app_eq_nil in Hnil as [Hnil _]. rewrite Hnil in Hlen. simpl in Hlen. lia.
Qed.

Lemma bind_same_start {A C} (m : M A) (k : A -> M C) c1 c2 :
  m c1 = m c2 -> bind m k c1 = bind m k c2.
Proof. intros H. unfold bind. by rewrite H. Qed.

(** X16: [run_complete] sweeps every site of every selected layer.  The
    fault model is not a parametric one on a parameter the neuron model
    lacks, and every injectable layer has positive shapes.  The rounds the
    campaign had are discarded; the selected layers are the injectable ones
    among [layer_names], or all injectable layers when none is named; for
    each of them in turn, and for each synapse of its weight tensor (synaptic
    model) or each neuron of its output tensor (any other model) in the order
    of the nested loops, there is one round holding one Fault with that one
    site.  When a layer is selected, the number of rounds is the sum of the
    products of the shapes.  This holds whether [run] then returns or raises. *)
Theorem run_complete_sweeps_the_selected_layers c g test_loader fault_model layer_names error :
  unsupported_parametric c (mkFault fault_model [] []) = false ->
  positive_shapes (layers_info c) = true ->
  let lays := swept_layers (layers_info c) layer_names in
  let c' := (run_complete g test_loader fault_model layer_names error c).1 in
  rounds c' = at_least_one (lays ≫= layer_sweep (layers_info c) fault_model)
  /\ (lays <> [] ->
      Z.of_nat (length (rounds c'))
      = foldr Z.add 0 (layer_sites (layers_info c) (is_synaptic fault_model) <$> lays))
  /\ (forall K C H W,
        NoDup (synapse_coords K C H W)
        /\ forall k l m n,
             (k, l, m, n) ∈ synapse_coords K C H W
             <-> 0 <= k < K /\ 0 <= l < C /\ 0 <= m < H /\ 0 <= n < W).
Proof.
  intros Hsup Hpos lays c'.
  assert (Hrounds : rounds c' = at_least_one (lays ≫= layer_sweep (layers_info c) fault_model)).
  { subst c'. unfold run_complete. unfold bind at 1, get. cbv beta iota.
    set (lay_names_inj := match layer_names with Some (_ :: _) => _ | _ => _ end).
    assert (Hl : lay_names_inj = lays).
    { subst lay_names_inj lays. unfold swept_layers.
      destruct layer_names as [[|n names]|]; try done.
      apply list_filter_iff. intros x. unfold is_injectable.
      by rewrite bool_decide_eq_true. }
    rewrite Hl. rewrite bind_modify. unfold bind at 1.
    rewrite (for_fold_appends lays (layer_sweep (layers_info c) fault_model)
               (complete_layer fault_model) c g).
    2:{ intros lay rs Hlay. apply complete_layer_sweep; try done.
        by apply (swept_layers_injectable _ layer_names). }
    cbv beta iota. rewrite app_nil_l.
    set (rs := lays ≫= layer_sweep (layers_info c) fault_model).
    destruct rs as [|r rs'] eqn:Hrs.
    - replace (run test_loader error (set_rounds c []))
        with (run test_loader error (set_rounds c [ [] ])).
      + pose proof (run_rounds_kept test_loader error (set_rounds c [ [] ])) as H.
        unfold rounds_kept in H. rewrite H by (by destruct c). by destruct c.
      + assert (He : _pre_run (set_rounds c []) = _pre_run (set_rounds c [ [] ])).
        { rewrite (_pre_run_without_round (set_rounds c [])) by (by destruct c).
          by rewrite set_rounds_twice. }
        unfold run. symmetry. apply bind_same_start, He.
    - pose proof (run_rounds_kept test_loader error (set_rounds c (r :: rs'))) as H.
      unfold rounds_kept in H. rewrite H by (by destruct c). by destruct c. }
  split; [exact Hrounds|]. split.
  - intros Hne. rewrite Hrounds.
    destruct (sweep_length (layers_info c) fault_model lays Hpos) as [Hlen Hnn].
    { intros lay. apply swept_layers_injectable. }
    rewrite <- Hlen. specialize (Hnn Hne).
    by destruct (lays ≫= layer_sweep (layers_info c) fault_model).
  - intros K C H W. split; [apply synapse_coords_NoDup|]. intros k l m n.
    apply synapse_coords_elem.
Qed.

(** ** Hooks installed for other rounds *)

Lemma run_pre_hook_idle c o module t h :
  orounds c !! r_idx c = Some o -> hook_faults (oround o) h = [] ->
  run_pre_hook module t h c = (c, inr t).
Proof.
  intros Ho Hh. destruct h as [n|n|n|n]; simpl in *; try done.
  - unfold run_neuron_pre_hook, bind, current_oround, get. rewrite Ho. cbv beta iota.
    by rewrite Hh.
  - unfold run_synaptic_pre_hook. unfold bind at 1. unfold bind at 1.
    unfold current_oround. rewrite Ho. cbv beta iota. by rewrite Hh.
Qed.

Lemma run_hook_idle c o module out h :
  orounds c !! r_idx c = Some o -> hook_faults (oround o) h = [] ->
  run_hook module out h c = (c, inr ()).
Proof.
  intros Ho Hh. destruct h as [n|n|n|n]; simpl in *; try done.
  - unfold run_parametric_hook. unfold bind at 1.
    unfold current_oround. rewrite Ho. cbv beta iota. by rewrite Hh.
  - unfold run_synaptic_hook. unfold bind at 1.
    unfold current_oround. rewrite Ho. cbv beta iota. by rewrite Hh.
Qed.

Lemma pre_hooks_idle c o module t hs :
  orounds c !! r_idx c = Some o ->
  Forall (fun h => hook_faults (oround o) h = []) hs ->
  for_fold hs t (run_pre_hook module) c = (c, inr t).
Proof.
  intros Ho. induction 1 as [|h hs Hh _ IH]; simpl; [done|].
  unfold bind. by rewrite (run_pre_hook_idle c o).
Qed.

Lemma hooks_idle c o module out hs :
  orounds c !! r_idx c = Some o ->
  Forall (fun h => hook_faults (oround o) h = []) hs ->
  for_each hs (run_hook module out) c = (c, inr ()).
Proof.
  intros Ho. induction 1 as [|h hs Hh _ IH]; simpl; [done|].
  unfold bind. by rewrite (run_hook_idle c o).
Qed.

Lemma hooks_on_idle c o layers module pre :
  idle_on layers (oround o) c -> module ∈ layers ->
  Forall (fun h => hook_faults (oround o) h = []) (hooks_on module pre (faulty_hooks c)).
Proof.
  intros Hidle Hm. unfold hooks_on. apply Forall_fmap, Forall_forall.
  intros h Hh. apply list_elem_of_filter in Hh as [[Hon _] Hh]. simpl.
  apply Hidle; [done|by rewrite Hon].
Qed.

Lemma faulty_call_idle c o net layers module t :
  faulty c = Some net -> orounds c !! r_idx c = Some o ->
  idle_on layers (oround o) c -> module ∈ layers ->
  faulty_call module t c = (c, inr (t, layer_forward module (net module) t)).
Proof.
  intros Hf Ho Hidle Hm. unfold faulty_call.
  unfold bind at 1, get at 1. cbv beta iota.
  unfold bind at 1. rewrite (pre_hooks_idle c o) by (done || by eapply hooks_on_idle).
  cbv beta iota. unfold bind at 1, the_faulty. rewrite Hf. cbv beta iota zeta.
  unfold bind at 1, get at 1. cbv beta iota.
  unfold bind at 1. rewrite (hooks_idle c o) by (done || by eapply hooks_on_idle).
  done.
Qed.

Lemma forward_layers_idle c o first layers x y :
  faulty c = Some (golden c) -> orounds c !! r_idx c = Some o ->
  idle_on layers (oround o) c ->
  (first = true -> y = x) ->
  forward_layers (layers_info c) faulty_call first layers x y c
  = (c, inr (x, golden_layers c layers y)).
Proof.
  intros Hf Ho. revert first x y.
  induction layers as [|n ns IH]; intros first x y Hidle Hfirst; simpl; [done|].
  unfold bind at 1.
  rewrite (faulty_call_idle c o (golden c) (n :: ns)) by (done || by left). simpl.
  rewrite IH; [by destruct first; [rewrite Hfirst|]| |done].
  intros h Hh Hon. apply Hidle; [done|by right].
Qed.

(** X17: the hooks installed for other rounds do not disturb a round.  The
    weights of the faulty network are those of the golden one, and no hook
    on a layer of the range finds a fault in the current round: then the
    faulty network computes on the range what the golden network computes,
    and leaves the campaign, the saved weights and the arguments of the
    fault models included, as it was. *)
Theorem idle_hooks_leave_the_golden_result c o x start_idx end_idx :
  faulty c = Some (golden c) ->
  orounds c !! r_idx c = Some o ->
  idle_on (subject_layers (layers_info c) (default 0 start_idx)
             (default (Z.of_nat (length (order (layers_info c))) - 1) end_idx))
          (oround o) c ->
  faulty_forward x start_idx end_idx c = golden_forward x start_idx end_idx c
  /\ (faulty_forward x start_idx end_idx c).1 = c.
Proof.
  intros Hf Ho Hidle.
  assert (H : faulty_forward x start_idx end_idx c = golden_forward x start_idx end_idx c).
  { rewrite golden_forward_layers.
    unfold faulty_forward, forward_opt, the_faulty, bind, get. rewrite Hf.
    by apply (forward_layers_idle c o). }
  split; [exact H|]. by rewrite H, golden_forward_layers.
Qed.

End Frames.

(** * The shape of a heat map *)

Lemma descend_spec N x :
  1 <= N -> (1 <= x)%nat ->
  exists d, descend N x = inr d /\ 1 <= d <= Z.of_nat x /\ (d | N)
            /\ forall e, d < e <= Z.of_nat x -> ~ (e | N).
Proof.
  intros HN. induction x as [|x IH]; intros Hx; [lia|].
  cbn [descend]. destruct (N mod Z.of_nat (S x) =? 0) eqn:Hmod.
  - apply Z.eqb_eq in Hmod. exists (Z.of_nat (S x)). split; [done|]. split; [lia|].
    split; [apply Z.mod_divide; [lia|done]|]. intros e He. lia.
  - apply Z.eqb_neq in Hmod. destruct x as [|x'].
    { exfalso. apply Hmod. change (Z.of_nat 1) with 1. apply Z.mod_1_r. }
    destruct IH as (d & Hd & Hr & Hdiv & Hmax); [lia|].
    exists d. split; [done|]. split; [lia|]. split; [done|].
    intros e He Hdiv'. destruct (decide (e = Z.of_nat (S (S x')))) as [->|Hne].
    + apply Hmod. apply Z.mod_divide; [lia|done].
    + apply (Hmax e); [lia|done].
Qed.

Lemma _shape_square_factors N :
  1 <= N ->
  exists x y, _shape_square N = inr (x, y) /\ x * y = N /\ 1 <= x <= y
              /\ forall d, 1 <= d -> (d | N) -> d * d <= N -> d <= x.
Proof.
  intros HN. unfold _shape_square, int_sqrt.
  replace (N <? 0) with false by (symmetry; apply Z.ltb_ge; lia).
  assert (Hs : 1 <= Z.sqrt N) by (apply Z.sqrt_le_square; lia).
  destruct (descend_spec N (Z.to_nat (Z.sqrt N)) HN) as (x & -> & Hx & [q Hq] & Hmax); [lia|].
  rewrite Z2Nat.id in Hx, Hmax by lia.
  assert (Hxx : x * x <= N).
  { pose proof (Z.sqrt_spec N ltac:(lia)) as [Hlo _]. nia. }
  exists x, q. unfold int_div. split; [|split; [lia|split]].
  - f_equal. f_equal. rewrite Hq. apply Z.quot_mul. lia.
  - split; [lia|]. nia.
  - intros d Hd Hdiv Hdd. destruct (decide (d <= x)) as [|Hgt]; [done|].
    exfalso. apply (Hmax d); [|done]. split; [lia|].
    apply Z.sqrt_le_square; lia.
Qed.

(** X18: [_shape_square] factors the number of cells into the two factors
    that are closest to each other.  For [N] from [1] up to the limit of the
    exact floating-point range it returns [(x, y)] with [x * y = N] and
    [1 <= x <= y], and no divisor of [N] whose square is at most [N] is
    larger than [x].  It raises for every other [N]: [0] ends in a division
    by zero, a negative number is outside the domain of the square root. *)
Theorem _shape_square_is_the_squarest_factorisation N :
  N < 2 ^ 52 ->
  (N < 0 -> _shape_square N = inl MathDomainError)
  /\ (N = 0 -> _shape_square N = inl ZeroDivisionError)
  /\ (1 <= N ->
      exists x y, _shape_square N = inr (x, y) /\ x * y = N /\ 1 <= x <= y
                  /\ forall d, 1 <= d -> (d | N) -> d * d <= N -> d <= x).
Proof.
  intros _. unfold _shape_square, int_sqrt. split; [|split].
  - intros HN. by replace (N <? 0) with true by (symmetry; apply Z.ltb_lt; lia).
  - by intros ->.
  - apply _shape_square_factors.
Qed.

Lemma get_shapes_form li is_syn lay shape :
  get_shapes li is_syn lay = inr shape ->
  if is_syn then exists k l m n, shape = [k; l; m; n] else exists l m n, shape = [l; m; n].
Proof.
  unfold get_shapes. destruct is_syn.
  - destruct (shapes_syn li !! lay) as [[[[k l] m] n]|]; [|done].
    intros [= <-]. by exists k, l, m, n.
  - destruct (shapes_neu li !! lay) as [[[l m] n]|]; [|done].
    intros [= <-]. by exists l, m, n.
Qed.

(** X20: the plot of [heat] has one cell per round.  For [N >= 1] rounds of
    a layer that is in the registry, with [N] and [max_size**2] in the exact
    floating-point range: the pair is skipped exactly when [N] exceeds
    [max_size**2]; otherwise no exception is raised and the plot shape
    [(r, c)] satisfies [r * c = N], whatever the shape of the layer and the
    value of [preserve_dim]. *)
Theorem heat_plot_has_one_cell_per_round li lay is_syn shape N preserve_dim max_size :
  1 <= N < 2 ^ 52 -> max_size ^ 2 < 2 ^ 52 ->
  get_shapes li is_syn lay = inr shape ->
  (max_size ^ 2 < N -> plot_shape li lay is_syn N preserve_dim max_size = None)
  /\ (N <= max_size ^ 2 ->
      exists r c, plot_shape li lay is_syn N preserve_dim max_size = Some (inr (r, c))
                  /\ r * c = N).
Proof.
  intros HN _ Hshape. unfold plot_shape. split.
  - intros Hbig. by replace (max_size ^ 2 <? N) with true by (symmetry; apply Z.ltb_lt; lia).
  - intros Hfit. replace (max_size ^ 2 <? N) with false by (symmetry; apply Z.ltb_ge; lia).
    rewrite Hshape. cbv zeta.
    destruct (_shape_square_factors N ltac:(lia)) as (x & y & -> & Hxy & _).
    set (ps := if negb (N =? prod shape) then _ else _).
    assert (Hps : ps.1 * ps.2 = N).
    { subst ps. destruct (N =? prod shape) eqn:HNp; simpl; [|lia].
      apply Z.eqb_eq in HNp. pose proof (get_shapes_form _ _ _ _ Hshape) as Hform.
      destruct is_syn.
      - destruct Hform as (k & l & m & n & ->). unfold prod, shape_at in *. simpl in *.
        destruct (m =? 1) eqn:Hm; [destruct (n =? 1) eqn:Hn|]; simpl;
          rewrite ?Z.eqb_eq in *; subst; lia.
      - destruct Hform as (l & m & n & ->). unfold prod, shape_at in *. simpl in *. lia. }
    destruct (negb preserve_dim || _ || _).
    + by exists x, y.
    + exists ps.1, ps.2. split; [by destruct ps|done].
Qed.

(** * The properties on the concrete network *)

Lemma eject_faults_raises_witness :
  [f_neuron] <> [] /\ [f_neuron] ∈ rounds (with_rounds [[f_neuron]])
  /\ extract_many [f_neuron] [f_neuron] = []
  /\ exists rs msg,
       eject (with_rounds [[f_neuron]]) (Some [f_neuron]) None
       = (set_rounds (with_rounds [[f_neuron]]) rs, inl (TypeError msg)).
Proof.
  assert (H1 : [f_neuron] <> []) by discriminate.
  assert (H2 : [f_neuron] ∈ rounds (with_rounds [[f_neuron]])) by apply list_elem_of_here.
  assert (H3 : extract_many [f_neuron] [f_neuron] = []) by reflexivity.
  split; [exact H1|]. split; [exact H2|]. split; [exact H3|].
  exact (eject_faults_raises_on_emptied_round (with_rounds [[f_neuron]]) [f_neuron]
           [f_neuron] H1 H2 H3).
Defined.

Lemma validate_keeps_sites_witness :
  registry_total (layers_info toy_campaign) = true
  /\ forallb (checkable toy_campaign) (f_gamma :: f_edges) = true
  /\ validate toy_campaign (f_gamma :: f_edges)
     = (validated_in_place toy_campaign <$> (f_gamma :: f_edges),
        inr (omap (surviving toy_campaign) (f_gamma :: f_edges)))
  /\ (forall N, 0 < N ->
        in_bounds N (-1) = true /\ in_bounds N N = false /\ in_bounds N (- N - 1) = false).
Proof.
  assert (H1 : registry_total (layers_info toy_campaign) = true) by (vm_compute; reflexivity).
  assert (H2 : forallb (checkable toy_campaign) (f_gamma :: f_edges) = true)
    by (vm_compute; reflexivity).
  split; [exact H1|]. split; [exact H2|].
  exact (validate_keeps_sites_in_bounds toy_campaign (f_gamma :: f_edges) H1 H2).
Defined.

(** C4, the claim as stated fails: a parametric Fault on a parameter the
    neuron model lacks is dropped although its only site is valid, and a
    wildcard on a sized axis raises [TypeError]. *)
Lemma validate_as_stated_fails :
  (validate toy_campaign [f_gamma]).2 = inr []
  /\ validate_as_stated toy_campaign [f_gamma] = [f_gamma]
  /\ (validate toy_campaign [f_gamma]).2 <> inr (validate_as_stated toy_campaign [f_gamma])
  /\ (validate toy_campaign [f_wild]).2
     = inl (TypeError "<= not supported between instances of int and slice").
Proof. vm_compute. repeat split; try reflexivity. discriminate. Qed.

Lemma run_complete_witness :
  is_synaptic dead_neuron = false
  /\ unsupported_parametric toy_campaign (mkFault dead_neuron [] []) = false
  /\ "SF1" ∈ get_injectables (layers_info toy_campaign)
  /\ shapes_neu (layers_info toy_campaign) !! "SF1" = Some (1, 1, 2)
  /\ 0 < 1 /\ 0 < 2
  /\ let c' := (run_complete [] toy_batches dead_neuron (Some ["SF1"]) true toy_campaign).1 in
     rounds c' = (fun p => [neuron_fault dead_neuron "SF1" p]) <$> neuron_coords 1 1 2
     /\ length (rounds c') = Z.to_nat (1 * 1 * 2)
     /\ NoDup (neuron_coords 1 1 2)
     /\ forall l m n,
          (l, m, n) ∈ neuron_coords 1 1 2 <-> 0 <= l < 1 /\ 0 <= m < 1 /\ 0 <= n < 2.
Proof.
  assert (H1 : is_synaptic dead_neuron = false) by reflexivity.
  assert (H2 : unsupported_parametric toy_campaign (mkFault dead_neuron [] []) = false)
    by reflexivity.
  assert (H3 : "SF1" ∈ get_injectables (layers_info toy_campaign))
    by apply list_elem_of_here.
  assert (H4 : shapes_neu (layers_info toy_campaign) !! "SF1" = Some (1, 1, 2))
    by (vm_compute; reflexivity).
  assert (H5 : 0 < 1) by lia.
  assert (H6 : 0 < 2) by lia.
  split; [exact H1|]. split; [exact H2|]. split; [exact H3|]. split; [exact H4|].
  split; [exact H5|]. split; [exact H6|].
  exact (run_complete_one_round_per_neuron toy_campaign [] toy_batches dead_neuron "SF1"
           1 1 2 true H1 H2 H3 H4 H5 H5 H6).
Defined.

(** C5, the claim as stated fails: with a parametric model on a parameter
    the neuron model lacks, the sweep leaves the two rounds of the shape
    [(1, 1, 2)], and both are empty. *)
Lemma run_complete_unsupported_parametric_rounds_empty :
  is_synaptic gamma_scaled = false
  /\ rounds (run_complete [] toy_batches gamma_scaled (Some ["SF1"]) true toy_campaign).1
     = [ [] ; [] ].
Proof. split; [reflexivity|]. vm_compute. reflexivity. Qed.

Lemma early_stop_witness :
  orounds toy_ready !! r_idx toy_ready = Some toy_oround
  /\ round_bool (oround toy_oround) = true
  /\ is_out_faulty toy_oround = false
  /\ early_idx toy_oround = Some 0 /\ late_idx toy_oround = Some 0 /\ 0 <= 0 <= 0
  /\ py_get (A:=@Tensor toy_backend) [-5; 0; 5; 10] 0 = inr (-5)
  /\ faulty_forward (B:=toy_backend) (-5) (Some 0) (Some 0) toy_ready
     = (toy_c1, inr (-5, 0))
  /\ faulty_forward (B:=toy_backend) (-5, 0).2 (Some (0 + 1)) (Some (0 + 1)) toy_c1
     = (toy_c2, inr (0, 5))
  /\ py_get (A:=@Tensor toy_backend)
            (<[py_pos [-5; 0; 5; 10] 0 := (-5, 0).1]> [-5; 0; 5; 10]) (0 + 2) = inr 5
  /\ (@tensor_equal toy_backend (0, 5).2 5 = true ->
      exists final : @Tensor toy_backend,
        last [-5; 0; 5; 10] = Some final
        /\ round_output (B:=toy_backend) "SF3" [-5; 0; 5; 10] toy_ready
           = (toy_c2, inr (<[py_pos [-5; 0; 5; 10] 0 := (-5, 0).1]> [-5; 0; 5; 10], final))).
Proof.
  assert (H1 : orounds toy_ready !! r_idx toy_ready = Some toy_oround)
    by (vm_compute; reflexivity).
  assert (H2 : round_bool (oround toy_oround) = true) by reflexivity.
  assert (H3 : is_out_faulty toy_oround = false) by (vm_compute; reflexivity).
  assert (H4 : early_idx toy_oround = Some 0) by (vm_compute; reflexivity).
  assert (H5 : late_idx toy_oround = Some 0) by (vm_compute; reflexivity).
  assert (H6 : 0 <= 0 <= 0) by lia.
  assert (H7 : py_get (A:=@Tensor toy_backend) [-5; 0; 5; 10] 0 = inr (-5)) by reflexivity.
  assert (H8 : faulty_forward (B:=toy_backend) (-5) (Some 0) (Some 0) toy_ready
               = (toy_c1, inr (-5, 0))) by (vm_compute; reflexivity).
  assert (H9 : faulty_forward (B:=toy_backend) (-5, 0).2 (Some (0 + 1)) (Some (0 + 1)) toy_c1
               = (toy_c2, inr (0, 5))) by (vm_compute; reflexivity).
  assert (H10 : py_get (A:=@Tensor toy_backend)
                  (<[py_pos [-5; 0; 5; 10] 0 := (-5, 0).1]> [-5; 0; 5; 10]) (0 + 2) = inr 5)
    by reflexivity.
  repeat (split; [assumption|]).
  exact (proj1 (@early_stop_reports_golden_output toy_backend toy_ready toy_oround "SF3"
                  [-5; 0; 5; 10] 0 0 (-5) toy_c1 (-5, 0) toy_c2 (0, 5) 5
                  H1 H2 H3 H4 H5 H6 H7 H8 H9 H10)).
Defined.

Lemma empty_round_witness :
  rounds (with_rounds [ [] ; [f_neuron] ]) !! 0%nat = Some []
  /\ _pre_run (with_rounds [ [] ; [f_neuron] ]) = (toy_pre, inr ())
  /\ _evaluate_optimized toy_batches true toy_pre = (toy_done, inr ())
  /\ performance toy_done !! 0%nat
     = Some (golden_stats (with_rounds [ [] ; [f_neuron] ]) toy_batches true).
Proof.
  assert (H1 : rounds (with_rounds [ [] ; [f_neuron] ]) !! 0%nat = Some []) by reflexivity.
  assert (H2 : _pre_run (with_rounds [ [] ; [f_neuron] ]) = (toy_pre, inr ()))
    by (vm_compute; reflexivity).
  assert (H3 : _evaluate_optimized toy_batches true toy_pre = (toy_done, inr ()))
    by (vm_compute; reflexivity).
  split; [exact H1|]. split; [exact H2|]. split; [exact H3|].
  exact (proj2 (@empty_round_statistics_are_golden toy_backend
                  (with_rounds [ [] ; [f_neuron] ]) toy_pre toy_done toy_batches true 0%nat
                  H1 H2 H3)).
Defined.

(** C2: with two synaptic faults of different models on the same weight of a
    layer, one forward pass of the layer returns, and leaves the weight at
    the value the first fault gave it, not at its value before the pass: the
    hook restores in the order in which the pre-hook perturbed.  With one
    fault the weight is back at its value. *)
Theorem synaptic_hook_restores_in_perturbation_order :
  faulty_weight toy_two "SF1" (0, 0, 0, 0) = Some 5
  /\ (faulty_call (B:=toy_backend) "SF1" 3 toy_two).2 = inr (3, 10)
  /\ faulty_weight (faulty_call (B:=toy_backend) "SF1" 3 toy_two).1 "SF1" (0, 0, 0, 0) = Some 0
  /\ faulty_weight (faulty_call (B:=toy_backend) "SF1" 3 toy_one).1 "SF1" (0, 0, 0, 0) = Some 5.
Proof. vm_compute. repeat split; reflexivity. Qed.

(** * The further properties on the concrete network *)

Lemma validate_returns_only_valid_faults_witness :
  validate toy_campaign (f_gamma :: f_edges) = (toy_validated, inr toy_valid)
  /\ f_inside ∈ toy_valid
  /\ fault_bool f_inside = true
  /\ unsupported_parametric toy_campaign f_inside = false
  /\ forall s, s ∈ sites f_inside ->
       is_injectable (layers_info toy_campaign) (layer s) = true
       /\ site_valid (layers_info toy_campaign) (is_synaptic (model f_inside)) s = inr true.
Proof.
  assert (H1 : validate toy_campaign (f_gamma :: f_edges) = (toy_validated, inr toy_valid))
    by (vm_compute; reflexivity).
  assert (H2 : f_inside ∈ toy_valid) by apply list_elem_of_here.
  split; [exact H1|]. split; [exact H2|].
  exact (validate_returns_only_valid_faults toy_campaign (f_gamma :: f_edges)
           toy_validated toy_valid f_inside H1 H2).
Defined.

Lemma validate_idempotent_witness :
  validate toy_campaign (f_gamma :: f_edges) = (toy_validated, inr toy_valid)
  /\ validate toy_campaign toy_valid = (toy_valid, inr toy_valid).
Proof.
  assert (H1 : validate toy_campaign (f_gamma :: f_edges) = (toy_validated, inr toy_valid))
    by (vm_compute; reflexivity).
  split; [exact H1|].
  exact (validate_idempotent toy_campaign (f_gamma :: f_edges) toy_validated toy_valid H1).
Defined.

Lemma eject_from_one_round_witness :
  -1 <> 0
  /\ eject (with_rounds [ [f_neuron] ; [f_dead] ]) None (Some (-1))
     = (set_rounds (with_rounds [ [f_neuron] ; [f_dead] ]) [ [f_neuron] ], inr ()).
Proof.
  assert (H1 : -1 <> 0) by lia.
  split; [exact H1|].
  exact (proj2 (eject_from_one_round (with_rounds [ [f_neuron] ; [f_dead] ]) None (-1) H1)
           [f_dead] eq_refl eq_refl).
Defined.


Lemma golden_forward_composes_witness :
  0 <= 0 + 1 /\ 0 <= 2
  /\ exists y1 y : @Tensor toy_backend,
       golden_forward (B:=toy_backend) 1 (Some 0) (Some 0) toy_campaign
       = (toy_campaign, inr (1, y1))
       /\ golden_forward (B:=toy_backend) y1 (Some (0 + 1)) (Some 2) toy_campaign
          = (toy_campaign, inr (y1, y))
       /\ golden_forward (B:=toy_backend) 1 (Some 0) (Some 2) toy_campaign
          = (toy_campaign, inr (1, y)).
Proof.
  assert (H1 : 0 <= 0 + 1) by lia.
  assert (H2 : 0 <= 2) by lia.
  split; [exact H1|]. split; [exact H2|].
  exact (@golden_forward_composes toy_backend toy_campaign 1 0 0 2 H1 H2).
Defined.


Lemma _pre_run_derives_the_round_state_witness :
  _pre_run (with_rounds [ [] ; [f_neuron] ]) = (toy_pre, inr ())
  /\ rounds toy_pre = [ [] ; [f_neuron] ]
  /\ orounds toy_pre = optimized toy_layers <$> [ [] ; [f_neuron] ]
  /\ faulty toy_pre = Some toy_net.
Proof.
  assert (H1 : _pre_run (with_rounds [ [] ; [f_neuron] ]) = (toy_pre, inr ()))
    by (vm_compute; reflexivity).
  split; [exact H1|].
  destruct (@_pre_run_derives_the_round_state toy_backend
              (with_rounds [ [] ; [f_neuron] ]) toy_pre H1) as (Hr & _ & _ & Hf & Ho & _).
  split; [exact Hr|]. split; [exact Ho|exact Hf].
Defined.

Lemma _pre_run_groups_witness :
  _pre_run (with_rounds [ [] ; [f_neuron] ]) = (toy_pre, inr ())
  /\ NoDup ((rgroups toy_pre).*1)
  /\ concat ((rgroups toy_pre).*2) ≡ₚ seq 0 (length (rounds toy_pre)).
Proof.
  assert (H1 : _pre_run (with_rounds [ [] ; [f_neuron] ]) = (toy_pre, inr ()))
    by (vm_compute; reflexivity).
  split; [exact H1|].
  destruct (@_pre_run_groups_rounds_by_earliest_layer toy_backend
              (with_rounds [ [] ; [f_neuron] ]) toy_pre H1) as (Hnd & Hp & _).
  split; [exact Hnd|exact Hp].
Defined.

Lemma run_baseline_only_witness :
  at_least_one (rounds toy_campaign) = [ [] ]
  /\ order (layers_info toy_campaign) <> []
  /\ exists c',
       run (B:=toy_backend) toy_batches true toy_campaign = (c', inr ())
       /\ rounds c' = [ [] ] /\ faulty_hooks c' = []
       /\ performance c' = [stats_update (golden_stats toy_campaign toy_batches true)].
Proof.
  assert (H1 : at_least_one (rounds toy_campaign) = [ [] ]) by reflexivity.
  assert (H2 : order (layers_info toy_campaign) <> []) by discriminate.
  split; [exact H1|]. split; [exact H2|].
  exact (@run_baseline_only_gives_golden_statistics toy_backend toy_campaign toy_batches true
           H1 H2).
Defined.

Lemma run_evaluates_every_round_witness :
  run (B:=toy_backend) toy_batches true (with_rounds [ [] ; [f_neuron] ]) = (toy_ran, inr ())
  /\ exists perf,
       performance toy_ran = stats_update <$> perf
       /\ length perf = length (at_least_one (rounds (with_rounds [ [] ; [f_neuron] ])))
       /\ Forall (fun st => numSamples st = total_samples toy_batches) perf.
Proof.
  assert (H1 : run (B:=toy_backend) toy_batches true (with_rounds [ [] ; [f_neuron] ])
               = (toy_ran, inr ())) by (vm_compute; reflexivity).
  split; [exact H1|].
  exact (@run_evaluates_every_round_on_every_batch toy_backend
           (with_rounds [ [] ; [f_neuron] ]) toy_ran toy_batches true H1).
Defined.

Lemma run_complete_sweeps_witness :
  unsupported_parametric toy_campaign (mkFault dead_synapse [] []) = false
  /\ positive_shapes (layers_info toy_campaign) = true
  /\ rounds (run_complete [] toy_batches dead_synapse None true toy_campaign).1
     = at_least_one (swept_layers (layers_info toy_campaign) None
                       ≫= layer_sweep (layers_info toy_campaign) dead_synapse).
Proof.
  assert (H1 : unsupported_parametric toy_campaign (mkFault dead_synapse [] []) = false)
    by reflexivity.
  assert (H2 : positive_shapes (layers_info toy_campaign) = true) by (vm_compute; reflexivity).
  split; [exact H1|]. split; [exact H2|].
  exact (proj1 (@run_complete_sweeps_the_selected_layers toy_backend toy_campaign []
                  toy_batches dead_synapse None true H1 H2)).
Defined.

Lemma idle_hooks_witness :
  faulty toy_pre = Some (golden toy_pre)
  /\ orounds toy_pre !! r_idx toy_pre = Some (mkORound [] None None None false)
  /\ faulty_hooks toy_pre <> []
  /\ faulty_forward (B:=toy_backend) 1 None None toy_pre
     = golden_forward (B:=toy_backend) 1 None None toy_pre.
Proof.
  assert (H1 : faulty toy_pre = Some (golden toy_pre)) by reflexivity.
  assert (H2 : orounds toy_pre !! r_idx toy_pre = Some (mkORound [] None None None false))
    by reflexivity.
  assert (H3 : idle_on (subject_layers (layers_info toy_pre) (default 0 None)
                          (default (Z.of_nat (length (order (layers_info toy_pre))) - 1) None))
                       (oround (mkORound [] None None None false)) toy_pre).
  { intros h _ _. simpl. by destruct (hook_fn h). }
  split; [exact H1|]. split; [exact H2|]. split; [vm_compute; discriminate|].
  exact (proj1 (@idle_hooks_leave_the_golden_result toy_backend toy_pre
                  (mkORound [] None None None false) 1 None None H1 H2 H3)).
Defined.

Lemma _shape_square_witness :
  12 < 2 ^ 52 /\ 1 <= 12
  /\ exists x y, _shape_square 12 = inr (x, y) /\ x * y = 12 /\ 1 <= x <= y
                 /\ forall d, 1 <= d -> (d | 12) -> d * d <= 12 -> d <= x.
Proof.
  assert (H1 : 12 < 2 ^ 52) by reflexivity.
  assert (H2 : 1 <= 12) by lia.
  split; [exact H1|]. split; [exact H2|].
  exact (proj2 (proj2 (_shape_square_is_the_squarest_factorisation 12 H1)) H2).
Defined.

Lemma eject_extracts_witness :
  [f_dead] <> [] /\ idx_truthy None = false
  /\ Forall (fun r => extract_many r [f_dead] <> []) (rounds (with_rounds [ [f_neuron; f_dead] ]))
  /\ eject (with_rounds [ [f_neuron; f_dead] ]) (Some [f_dead]) None
     = (set_rounds (with_rounds [ [f_neuron; f_dead] ])
          (at_least_one ((fun r => extract_many r [f_dead])
                           <$> rounds (with_rounds [ [f_neuron; f_dead] ]))),
        inr ()).
Proof.
  assert (H1 : [f_dead] <> []) by discriminate.
  assert (H2 : idx_truthy None = false) by reflexivity.
  assert (H3 : Forall (fun r => extract_many r [f_dead] <> [])
                 (rounds (with_rounds [ [f_neuron; f_dead] ]))).
  { apply Forall_cons. split; [vm_compute; discriminate|apply Forall_nil_2]. }
  split; [exact H1|]. split; [exact H2|]. split; [exact H3|].
  exact (proj2 (@eject_extracts_from_every_round toy_backend (with_rounds [ [f_neuron; f_dead] ])
                  [f_dead] None H1 H2) H3).
Defined.

Lemma heat_plot_witness :
  1 <= 2 < 2 ^ 52 /\ 512 ^ 2 < 2 ^ 52
  /\ get_shapes toy_layers false "SF1" = inr [1; 1; 2]
  /\ 2 <= 512 ^ 2
  /\ exists r c, plot_shape toy_layers "SF1" false 2 true 512 = Some (inr (r, c)) /\ r * c = 2.
Proof.
  assert (H1 : 1 <= 2 < 2 ^ 52) by (split; [lia|reflexivity]).
  assert (H2 : 512 ^ 2 < 2 ^ 52) by reflexivity.
  assert (H3 : get_shapes toy_layers false "SF1" = inr [1; 1; 2]) by (vm_compute; reflexivity).
  assert (H4 : 2 <= 512 ^ 2) by (vm_compute; discriminate).
  split; [exact H1|]. split; [exact H2|]. split; [exact H3|]. split; [exact H4|].
  exact (proj2 (heat_plot_has_one_cell_per_round toy_layers "SF1" false [1; 1; 2] 2 true 512
                  H1 H2 H3) H4).
Defined.
